(** * Instruction-semantics tables: the pattern flattener and the emitter

    A shallow embedding of [utils/TableGen/SemanticsEmitter.cpp]: the
    [Flattener] that linearises the DAG pattern of a machine instruction into
    a sequence of [NodeSemantics], and the [SemanticsEmitter] that packs the
    sequences of all instructions into [InstSemantics[]], [OpcodeToSemaIdx[]]
    and [ConstantArray[]].

    Conventions of the embedding.
    - A C++ [unsigned] is a [Z] in [0, 2^32); every operation on it writes its
      wrap-around out with [wrap32].  A [uint64_t] is a [Z] in [0, 2^64).
    - A [Record *] is a [TGRecord]; its address is the field [rec_ID].
    - [llvm_unreachable], a failed [assert] (the generator is taken as built
      with assertions), a failed [cast<>], an access out of the bounds of a
      vector and a write through a null [Parent] all stop the generator: the
      embedding returns [Abort].  Binding the reference [*Parent] writes
      nothing: a null [Parent] stops the generator only where an operand is
      added to it.
    - The mutable members of the C++ objects are threaded through the
      functions as a [Flattener] value; [errs()] is a field of it.

    The file has the embedding first, then the notions that the statements
    use and a small sample target, then the properties. *)

From stdpp Require Import gmap strings list sorting.
From Stdlib Require Import ZArith Lia.

Local Open Scope Z_scope.

(** ** Machine integers and their decimal form *)

Definition wrap32 (z : Z) : Z := z mod 2 ^ 32.
Definition wrap64 (z : Z) : Z := z mod 2 ^ 64.

(** Modelled from the spec: [utostr] of llvm/ADT/StringExtras.h is not among
    the sources; an operand token that stands for a number is "a decimal
    result-index", so [utostr] writes the decimal digits of an unsigned
    value, most significant first, and "0" for zero.  The buffer of the
    original holds 21 characters, enough for any 64-bit value. *)
Fixpoint utostr_loop (fuel : nat) (X : Z) (Buffer : string) : string :=
  match fuel with
  | O => Buffer
  | S fuel' =>
      if X =? 0 then Buffer
      else utostr_loop fuel' (X / 10)
             (String (Ascii.ascii_of_nat (48 + Z.to_nat (X mod 10))%nat) Buffer)
  end.

Definition utostr (X : Z) : string :=
  if X =? 0 then "0"%string else utostr_loop 21 X EmptyString.

Definition itostr (X : Z) : string :=
  if X <? 0 then ("-" +:+ utostr (wrap64 (- X)))%string else utostr X.

(** ** Value types *)

(** A part of the [MVT::SimpleValueType] enumeration of llvm/CodeGen, with
    the names that [llvm::getEnumName] prints; [isVoid] is the sentinel of an
    operation without result, the only value type that the generator tells
    from the others. *)
Inductive SimpleValueType : Set :=
| Other | i1 | i8 | i16 | i32 | i64 | f32 | f64 | isVoid.

Definition is_isVoid (T : SimpleValueType) : bool :=
  match T with isVoid => true | _ => false end.

Definition getEnumName (T : SimpleValueType) : string :=
  match T with
  | Other => "MVT::Other" | i1 => "MVT::i1" | i8 => "MVT::i8"
  | i16 => "MVT::i16" | i32 => "MVT::i32" | i64 => "MVT::i64"
  | f32 => "MVT::f32" | f64 => "MVT::f64" | isVoid => "MVT::isVoid"
  end%string.

(** ** Records of the target description *)

#[warnings="-register-all"]
Inductive TGRecord : Type := mkTGRecord {
  rec_ID : Z;
  rec_Name : string;
  rec_SuperClasses : list string;
  rec_RegClass : option TGRecord;
  rec_Opcode : option string
}.

Definition isSubClassOf (R : TGRecord) (Class : string) : bool :=
  existsb (String.eqb Class) (rec_SuperClasses R).

Definition same_record (A B : TGRecord) : bool := rec_ID A =? rec_ID B.

(** What stops the generator. *)
Inductive Fatal : Type :=
| Unreachable (Msg : string)
| AssertionFailed (Msg : string)
| NullParent
| BadCast
| OutOfRange
| NoSuchField (Field : string).

Inductive result (A : Type) : Type :=
| Ok (a : A)
| Abort (e : Fatal).
Arguments Ok {A} a.
Arguments Abort {A} e.

Definition bind {A B : Type} (m : result A) (k : A -> result B) : result B :=
  match m with
  | Ok a => k a
  | Abort e => Abort e
  end.

Notation "'do' x <- m ; k" := (bind m (fun x => k))
  (at level 10, x name, m at level 100, k at level 200).

Definition getValueAsDef_RegClass (R : TGRecord) : result TGRecord :=
  match rec_RegClass R with
  | Some C => Ok C
  | None => Abort (NoSuchField "RegClass")
  end.

Definition getValueAsString_Opcode (R : TGRecord) : result string :=
  match rec_Opcode R with
  | Some Opc => Ok Opc
  | None => Abort (NoSuchField "Opcode")
  end.

(** "RegisterOperands are the same thing as RegisterClasses": the record
    that stands for [OpRec] once a [RegisterOperand] is replaced by its
    [RegClass]. *)
Definition asRegisterClass (OpRec : TGRecord) : result TGRecord :=
  if isSubClassOf OpRec "RegisterOperand" then getValueAsDef_RegClass OpRec
  else Ok OpRec.

(** ** Instructions and their operands *)

Record OperandInfo : Type := mkOperandInfo {
  Name : string;
  MIOperandNo : Z;
  OperandType : string;
  Rec : TGRecord
}.

Record CodeGenInstruction : Type := mkCodeGenInstruction {
  Namespace : string;
  CGI_Operands : list OperandInfo;
  TheDef : TGRecord;
  isCodeGenOnly : bool
}.

(** ** Pattern trees *)

Inductive Init : Type :=
| IntInit (Value : Z)
| DefInit (Def : TGRecord)
| UnsetInit.

#[warnings="-register-all"]
Inductive TreePatternNode : Type :=
| TPLeaf (NodeName : string) (NodeTypes : list SimpleValueType) (Val : Init)
| TPOp (NodeName : string) (NodeTypes : list SimpleValueType)
       (Operator : TGRecord) (Children : list TreePatternNode).

Definition getName (TPN : TreePatternNode) : string :=
  match TPN with TPLeaf N _ _ | TPOp N _ _ _ => N end.

Definition getExtTypes (TPN : TreePatternNode) : list SimpleValueType :=
  match TPN with TPLeaf _ T _ | TPOp _ T _ _ => T end.

Definition getNumTypes (TPN : TreePatternNode) : Z :=
  Z.of_nat (length (getExtTypes TPN)).

Definition isLeaf (TPN : TreePatternNode) : bool :=
  match TPN with TPLeaf _ _ _ => true | TPOp _ _ _ _ => false end.

Definition getLeafValue (TPN : TreePatternNode) : result Init :=
  match TPN with
  | TPLeaf _ _ V => Ok V
  | TPOp _ _ _ _ => Abort (AssertionFailed "isLeaf()")
  end.

Definition getChild (Children : list TreePatternNode) (i : nat)
  : result TreePatternNode :=
  match Children !! i with
  | Some C => Ok C
  | None => Abort OutOfRange
  end.

Definition getAsString (V : Init) : string :=
  match V with
  | IntInit X => itostr X
  | DefInit R => rec_Name R
  | UnsetInit => "?"%string
  end.

Definition cast_DefInit (V : Init) : result TGRecord :=
  match V with
  | DefInit R => Ok R
  | _ => Abort BadCast
  end.

(** ** The semantics of one node and of one instruction *)

Record NodeSemantics : Type := mkNodeSemantics {
  Opcode : string;
  Types : list SimpleValueType;
  Operands : list string
}.

Definition emptyNS : NodeSemantics := mkNodeSemantics EmptyString [] [].

Definition addOperand (NS : NodeSemantics) (Op : string) : NodeSemantics :=
  mkNodeSemantics (Opcode NS) (Types NS) (Operands NS ++ [Op]).

Definition setOpcode (NS : NodeSemantics) (Opc : string) : NodeSemantics :=
  mkNodeSemantics Opc (Types NS) (Operands NS).

Definition setTypes (NS : NodeSemantics) (Ts : list SimpleValueType)
  : NodeSemantics :=
  mkNodeSemantics (Opcode NS) Ts (Operands NS).

(** ** The target: node equivalences and the constant pool *)

Record SDNodeInfo : Type := mkSDNodeInfo {
  EnumName : string;
  NumResults : Z
}.

(** [SDNodeEquiv] is keyed by the address of the target-specific record.
    [getSDNodeInfo] stands for [CGPatterns.getSDNodeInfo], which belongs to
    the pattern elaborator. *)
Record SemanticsTarget : Type := mkSemanticsTarget {
  getSDNodeInfo : TGRecord -> result SDNodeInfo;
  SDNodeEquiv : gmap Z TGRecord;
  ConstantIdx : gmap Z Z;
  CurConstIdx : Z
}.

(** The constructor [SemanticsTarget::SemanticsTarget], lines 551-561: the
    equivalences are read off the list of [SDNodeEquiv] definitions, each
    given as its (TargetSpecific, TargetIndependent) pair; the pool starts
    empty with [CurConstIdx = 1]. *)
Definition SemanticsTarget_new (Info : TGRecord -> result SDNodeInfo)
    (Equivs : list (TGRecord * TGRecord)) : SemanticsTarget :=
  mkSemanticsTarget Info
    (fold_left (fun M E => <[rec_ID (fst E) := snd E]> M) Equivs ∅)
    ∅ 1.

(** Lines 208-210 of [flattenLeaf]: the index of [Value] in the pool.
    [operator[]] of [std::map] creates the entry with 0 when it is missing,
    and an entry that reads 0 is given the next index. *)
Definition intern (Value : Z) (T : SemanticsTarget) : Z * SemanticsTarget :=
  let Key := wrap64 Value in
  let fresh :=
    (CurConstIdx T,
     mkSemanticsTarget (getSDNodeInfo T) (SDNodeEquiv T)
       (<[Key := CurConstIdx T]> (ConstantIdx T))
       (wrap32 (CurConstIdx T + 1))) in
  match ConstantIdx T !! Key with
  | Some Idx => if Idx =? 0 then fresh else (Idx, T)
  | None => fresh
  end.

(** ** The flattener *)

Inductive Diag : Type :=
| DiagStr (Str : string)
| DiagNum (N : Z)
| DiagDump (TPN : TreePatternNode).

(** Modelled from the spec: [SmallPtrSet] of llvm/ADT is not among the
    sources.  [EliminatedImplicitRegs] is a set of record addresses that is
    iterated "in insertion order": a list without repetition, a new register
    going to its end.  The sources do not fix the order of the iteration;
    what is stated of the set below is stated of its members, and of the
    nodes made of them up to their order. *)
Definition ImplicitRegSet : Type := list TGRecord.

Definition ImplicitRegSet_insert (Regs : ImplicitRegSet) (R : TGRecord)
  : ImplicitRegSet :=
  if existsb (same_record R) Regs then Regs else Regs ++ [R].

Record Flattener : Type := mkFlattener {
  Target : SemanticsTarget;
  Semantics : list NodeSemantics;
  EliminatedImplicitRegs : ImplicitRegSet;
  OperandByName : gmap string Z;
  CurDefNo : Z;
  errs : list Diag
}.

Definition Flattener_new (T : SemanticsTarget) (E : list Diag) : Flattener :=
  mkFlattener T [] [] ∅ 0 E.

(** Assignments to one member. *)
Definition setTarget (F : Flattener) (T : SemanticsTarget) : Flattener :=
  mkFlattener T (Semantics F) (EliminatedImplicitRegs F) (OperandByName F)
    (CurDefNo F) (errs F).

Definition setOperandByName (F : Flattener) (M : gmap string Z) : Flattener :=
  mkFlattener (Target F) (Semantics F) (EliminatedImplicitRegs F) M
    (CurDefNo F) (errs F).

Definition setEliminatedImplicitRegs (F : Flattener) (Regs : ImplicitRegSet)
  : Flattener :=
  mkFlattener (Target F) (Semantics F) Regs (OperandByName F) (CurDefNo F)
    (errs F).

Definition setErrs (F : Flattener) (E : list Diag) : Flattener :=
  mkFlattener (Target F) (Semantics F) (EliminatedImplicitRegs F)
    (OperandByName F) (CurDefNo F) E.

(** [getNamedOperand], lines 104-113: the first operand of the instruction
    that carries the name, none for the empty name. *)
Definition getNamedOperand (CGI : CodeGenInstruction) (N : string)
  : option OperandInfo :=
  if String.eqb N EmptyString then None
  else find (fun OI => String.eqb N (Name OI)) (CGI_Operands CGI).

(** [setNSTypeFromNode], lines 117-124. *)
Definition setNSTypeFromNode (NS : NodeSemantics) (TPN : TreePatternNode)
  : NodeSemantics :=
  if getNumTypes TPN =? 0 then setTypes NS (Types NS ++ [isVoid])
  else setTypes NS (Types NS ++ getExtTypes TPN).

(** The counter after the loop of [addSemantics]. *)
Definition countDefs (Ts : list SimpleValueType) (DefNo : Z) : Z :=
  fold_left (fun D T => if is_isVoid T then D else wrap32 (D + 1)) Ts DefNo.

(** [addSemantics], lines 128-134. *)
Definition addSemantics (F : Flattener) (NS : NodeSemantics) : Flattener :=
  mkFlattener (Target F) (Semantics F ++ [NS]) (EliminatedImplicitRegs F)
    (OperandByName F) (countDefs (Types NS) (CurDefNo F)) (errs F).

(** The loop of [addResOperand], from index [i] on. *)
Fixpoint addResOperands (FirstDefNo : Z) (i : Z) (Ts : list SimpleValueType)
    (NS : NodeSemantics) : NodeSemantics :=
  match Ts with
  | [] => NS
  | T :: Ts' =>
      addResOperands FirstDefNo (i + 1) Ts'
        (if is_isVoid T then NS
         else addOperand NS (utostr (wrap32 (FirstDefNo + i))))
  end.

(** [addResOperand], lines 137-144: [FirstDefNo] is taken from the counter
    as it stands before [Prev] is appended. *)
Definition addResOperand (F : Flattener) (NS Prev : NodeSemantics)
  : Flattener * NodeSemantics :=
  let FirstDefNo := wrap32 (CurDefNo F - (Z.of_nat (length (Types Prev)) - 1)) in
  (addSemantics F Prev, addResOperands FirstDefNo 0 (Types Prev) NS).

(** [Parent->addOperand(...)], line 179: the parent that is written to; a
    null [Parent] stops the generator. *)
Definition deref (Parent : option NodeSemantics) : result NodeSemantics :=
  match Parent with
  | Some NS => Ok NS
  | None => Abort NullParent
  end.

(** [addResOperand] on [*Parent], lines 189, 212 and 226.  The loop of
    [addResOperand] adds an operand to the parent only for a type of [Prev]
    other than [isVoid]: under a null [Parent] the first such type stops the
    generator, and a [Prev] whose types are all [isVoid] is appended with no
    parent touched. *)
Definition addResOperand_to (F : Flattener) (Parent : option NodeSemantics)
    (Prev : NodeSemantics) : result (Flattener * option NodeSemantics) :=
  match Parent with
  | Some P =>
      let '(F, P) := addResOperand F P Prev in
      Ok (F, Some P)
  | None =>
      if forallb is_isVoid (Types Prev) then Ok (addSemantics F Prev, None)
      else Abort NullParent
  end.

(** [flattenOperand], lines 158-190.  [finish] is the common end of the
    function, lines 188-189. *)
Definition flattenOperand (CGI : CodeGenInstruction) (TPN : TreePatternNode)
    (Parent : option NodeSemantics) (OpInfo : OperandInfo) (F : Flattener)
  : result (Flattener * option NodeSemantics) :=
  let Op := setNSTypeFromNode emptyNS TPN in
  do OpRec <- asRegisterClass (Rec OpInfo) ;
  let finish (F : Flattener) (Op : NodeSemantics) :=
    let Op := addOperand Op (utostr (MIOperandNo OpInfo)) in
    addResOperand_to F Parent Op in
  if isSubClassOf OpRec "Operand" then
    if String.eqb (OperandType OpInfo) "OPERAND_IMMEDIATE" then
      finish F (setOpcode Op "DCINS::CONSTANT_OP")
    else
      let Op := setOpcode Op "DCINS::CUSTOM_OP" in
      let Op := addOperand Op
                  (Namespace CGI +:+ "::OpTypes::" +:+ rec_Name OpRec) in
      match OperandByName F !! Name OpInfo with
      | None =>
          finish
            (setOperandByName F
               (<[Name OpInfo := CurDefNo F]> (OperandByName F)))
            Op
      | Some DefNo =>
          do P <- deref Parent ;
          Ok (F, Some (addOperand P (utostr DefNo)))
      end
  else if isSubClassOf OpRec "RegisterClass" then
    finish F (setOpcode Op "DCINS::GET_RC")
  else Abort (Unreachable "Unknown operand type").

(** [flattenLeaf], lines 200-227. *)
Definition flattenLeaf (CGI : CodeGenInstruction) (TPN : TreePatternNode)
    (Parent : option NodeSemantics) (F : Flattener)
  : result (Flattener * option NodeSemantics) :=
  do V <- getLeafValue TPN ;
  match V with
  | DefInit OpRec =>
      let Op := setNSTypeFromNode emptyNS TPN in
      if isSubClassOf OpRec "Register" then
        let Op := setOpcode Op "DCINS::GET_REG" in
        let Op := addOperand Op (Namespace CGI +:+ "::" +:+ rec_Name OpRec) in
        addResOperand_to F Parent Op
      else Abort (Unreachable "Unknown operand type")
  | IntInit Value =>
      let Mov := setNSTypeFromNode emptyNS TPN in
      let Mov := setOpcode Mov "DCINS::MOV_CONSTANT" in
      let '(Idx, T) := intern Value (Target F) in
      let F := setTarget F T in
      let Mov := addOperand Mov (utostr Idx) in
      addResOperand_to F Parent Mov
  | UnsetInit => Abort BadCast
  end.

(** [flattenImplicit], lines 232-237. *)
Fixpoint flattenImplicit_loop (CGI : CodeGenInstruction)
    (Children : list TreePatternNode) (NS : NodeSemantics)
  : result NodeSemantics :=
  match Children with
  | [] => Ok NS
  | C :: Children' =>
      do V <- getLeafValue C ;
      flattenImplicit_loop CGI Children'
        (addOperand NS (Namespace CGI +:+ "::" +:+ getAsString V))
  end.

Definition flattenImplicit (CGI : CodeGenInstruction)
    (Children : list TreePatternNode) (NS : NodeSemantics)
  : result NodeSemantics :=
  flattenImplicit_loop CGI Children (setOpcode NS "DCINS::IMPLICIT").

(** ** [flattenSet] *)

(** One turn of the first loop of [flattenSet] (lines 281-304): the node that
    stores result [FirstDefNo + i] into destination [i]. *)
Definition flattenSet_def (CGI : CodeGenInstruction)
    (Children : list TreePatternNode) (FirstDefNo : Z) (i : nat)
    (F : Flattener) : result Flattener :=
  do Child <- getChild Children i ;
  do V <- getLeafValue Child ;
  do OpRec <- cast_DefInit V ;
  let NS := mkNodeSemantics EmptyString [isVoid] [] in
  do OpRec <- asRegisterClass OpRec ;
  do NS <- (if isSubClassOf OpRec "RegisterClass" then
              match getNamedOperand CGI (getName Child) with
              | Some OpInfo =>
                  Ok (addOperand (setOpcode NS "DCINS::PUT_RC")
                        (utostr (MIOperandNo OpInfo)))
              | None =>
                  Abort (AssertionFailed
                           "'set' output operand not found in instruction?")
              end
            else if isSubClassOf OpRec "Register" then
              Ok (addOperand (setOpcode NS "DCINS::PUT_REG")
                    (Namespace CGI +:+ "::" +:+ rec_Name OpRec))
            else Ok NS) ;
  let NS := addOperand NS (utostr (wrap32 (FirstDefNo + Z.of_nat i))) in
  Ok (addSemantics F NS).

(** The first loop, with [n] turns left from index [i]. *)
Fixpoint flattenSet_defs (CGI : CodeGenInstruction)
    (Children : list TreePatternNode) (FirstDefNo : Z) (i n : nat)
    (F : Flattener) : result Flattener :=
  match n with
  | O => Ok F
  | S n' =>
      do F <- flattenSet_def CGI Children FirstDefNo i F ;
      flattenSet_defs CGI Children FirstDefNo (S i) n' F
  end.

(** One turn of the second loop (lines 307-314). *)
Definition flattenSet_drop (Children : list TreePatternNode) (i : nat)
    (F : Flattener) : result Flattener :=
  do Child <- getChild Children i ;
  if isLeaf Child then
    do V <- getLeafValue Child ;
    do OpRec <- cast_DefInit V ;
    if isSubClassOf OpRec "Register" then
      Ok (setEliminatedImplicitRegs F
            (ImplicitRegSet_insert (EliminatedImplicitRegs F) OpRec))
    else Abort (AssertionFailed
                  "Dropped SDNode result isn't an imp-def'd register.")
  else Abort (AssertionFailed
                "Invalid SDNode equivalence: dropped non-leaf node!").

Fixpoint flattenSet_drops (Children : list TreePatternNode) (i n : nat)
    (F : Flattener) : result Flattener :=
  match n with
  | O => Ok F
  | S n' =>
      do F <- flattenSet_drop Children i F ;
      flattenSet_drops Children (S i) n' F
  end.

(** [f] applied to the last element of a vector, [getChild(size - 1)]; the
    index is out of bounds when there is no element. *)
Fixpoint with_last {A B : Type} (f : A -> result B) (l : list A) : result B :=
  match l with
  | [] => Abort OutOfRange
  | x :: l' =>
      match l' with
      | [] => f x
      | _ :: _ => with_last f l'
      end
  end.

Definition nl : string := String (Ascii.ascii_of_nat 10) EmptyString.

(** What lines 253-259 write to [errs()]. *)
Definition SetMismatchDiag (TPN : TreePatternNode) (NumNodeDefs : nat)
    (LastChild : TreePatternNode) : list Diag :=
  [DiagStr (nl +:+ "Flatten" +:+ nl); DiagNum (Z.of_nat NumNodeDefs);
   DiagStr " "; DiagDump TPN; DiagStr nl;
   DiagNum (getNumTypes LastChild); DiagStr " "; DiagDump LastChild;
   DiagStr nl].

(** What [flattenSet] does once it holds the last child.  When the second
    loop starts above its bound, its first [getChild(i)] already lies
    outside the children. *)
Definition flattenSet_body (CGI : CodeGenInstruction)
    (flatten : TreePatternNode -> option NodeSemantics -> Flattener ->
               result (Flattener * option NodeSemantics))
    (TPN : TreePatternNode) (Children : list TreePatternNode)
    (F : Flattener) (LastChild : TreePatternNode) : result Flattener :=
  let NumNodeDefs := (length Children - 1)%nat in
  if negb (Z.of_nat NumNodeDefs =? getNumTypes LastChild) then
    Ok (setErrs F (errs F ++ SetMismatchDiag TPN NumNodeDefs LastChild))
  else
    let DummyNS := emptyNS in
    do R <- flatten LastChild (Some DummyNS) F ;
    let F := fst R in
    let DummyNS := from_option id DummyNS (snd R) in
    let NumDefs := length (Operands DummyNS) in
    let FirstDefNo := wrap32 (CurDefNo F - Z.of_nat NumDefs) in
    do F <- flattenSet_defs CGI Children FirstDefNo 0 NumDefs F ;
    if (NumDefs <=? NumNodeDefs)%nat then
      flattenSet_drops Children NumDefs (NumNodeDefs - NumDefs) F
    else Abort OutOfRange.

(** [flattenSet], lines 248-315, given the private [flatten] that it calls
    on its last child. *)
Definition flattenSet (CGI : CodeGenInstruction)
    (flatten : TreePatternNode -> option NodeSemantics -> Flattener ->
               result (Flattener * option NodeSemantics))
    (TPN : TreePatternNode) (Children : list TreePatternNode)
    (F : Flattener) : result Flattener :=
  with_last (flattenSet_body CGI flatten TPN Children F) Children.

(** ** [flattenSDNode] *)

(** [e] turns of [pop_back]: the vector loses its last [e] entries, and
    [pop_back] on an empty vector is out of bounds. *)
Definition pop_back_n {A : Type} (e : Z) (l : list A) : result (list A) :=
  if e <=? Z.of_nat (length l) then Ok (take (length l - Z.to_nat e) l)
  else Abort OutOfRange.

(** The last loop of [flattenSDNode]: the children, each with [NS] as its
    parent. *)
Fixpoint flatten_children
    (flatten : TreePatternNode -> option NodeSemantics -> Flattener ->
               result (Flattener * option NodeSemantics))
    (Children : list TreePatternNode) (NS : NodeSemantics) (F : Flattener)
  : result (Flattener * NodeSemantics) :=
  match Children with
  | [] => Ok (F, NS)
  | C :: Children' =>
      do R <- flatten C (Some NS) F ;
      flatten_children flatten Children' (from_option id NS (snd R)) (fst R)
  end.

(** [flattenSDNode], lines 323-338, given the private [flatten] that it
    calls on the children. *)
Definition flattenSDNode
    (flatten : TreePatternNode -> option NodeSemantics -> Flattener ->
               result (Flattener * option NodeSemantics))
    (NumTypes : Z) (Operator : TGRecord) (Children : list TreePatternNode)
    (NS : NodeSemantics) (F : Flattener)
  : result (Flattener * NodeSemantics) :=
  do Opc <- getValueAsString_Opcode Operator ;
  let NS := setOpcode NS Opc in
  do NS <- match SDNodeEquiv (Target F) !! rec_ID Operator with
           | Some EquivNode =>
               do SDNI <- getSDNodeInfo (Target F) EquivNode ;
               let NS := setOpcode NS (EnumName SDNI) in
               do Ts <- pop_back_n (wrap32 (NumTypes - NumResults SDNI))
                          (Types NS) ;
               Ok (setTypes NS Ts)
           | None => Ok NS
           end ;
  flatten_children flatten Children NS F.

(** ** [flatten] *)

(** The private [flatten], lines 341-373.  It returns the flattener and the
    parent as the call leaves them. *)
Fixpoint flatten (CGI : CodeGenInstruction) (TPN : TreePatternNode)
    (Parent : option NodeSemantics) (F : Flattener) {struct TPN}
  : result (Flattener * option NodeSemantics) :=
  match getNamedOperand CGI (getName TPN) with
  | Some OpInfo => flattenOperand CGI TPN Parent OpInfo F
  | None =>
      match TPN with
      | TPLeaf _ _ _ => flattenLeaf CGI TPN Parent F
      | TPOp _ _ Operator Children =>
          let NS := setNSTypeFromNode emptyNS TPN in
          if String.eqb (rec_Name Operator) "set" then
            match Parent with
            | Some _ =>
                Abort (AssertionFailed "A 'set' node wasn't at the top-level?")
            | None =>
                do F <- flattenSet CGI (flatten CGI) TPN Children F ;
                Ok (F, None)
            end
          else
            do R <- (if String.eqb (rec_Name Operator) "implicit" then
                       match Parent with
                       | Some _ =>
                           Abort (AssertionFailed
                             "An 'implicit' node wasn't at the top-level?")
                       | None =>
                           do NS <- flattenImplicit CGI Children NS ;
                           Ok (F, NS)
                       end
                     else if isSubClassOf Operator "SDNode" then
                       flattenSDNode (flatten CGI) (getNumTypes TPN) Operator
                         Children NS F
                     else Abort (Unreachable "Unable to handle operator.")) ;
            match Parent with
            | Some P =>
                let FP := addResOperand (fst R) P (snd R) in
                Ok (fst FP, Some (snd FP))
            | None => Ok (addSemantics (fst R) (snd R), None)
            end
      end
  end.

(** The node and the [push_back] of the public [flatten], lines 381-389. *)
Definition ImplicitNS (CGI : CodeGenInstruction) (R : TGRecord)
  : NodeSemantics :=
  mkNodeSemantics "DCINS::IMPLICIT" [isVoid]
    [Namespace CGI +:+ "::" +:+ rec_Name R].

Definition push_back (F : Flattener) (NS : NodeSemantics) : Flattener :=
  mkFlattener (Target F) (Semantics F ++ [NS]) (EliminatedImplicitRegs F)
    (OperandByName F) (CurDefNo F) (errs F).

(** The public [flatten], lines 376-391: one tree, then an [IMPLICIT] node
    for every register of [EliminatedImplicitRegs]. *)
Definition flatten_tree (CGI : CodeGenInstruction) (TPN : TreePatternNode)
    (F : Flattener) : result Flattener :=
  do R <- flatten CGI TPN None F ;
  let F := fst R in
  Ok (fold_left (fun F IRI => push_back F (ImplicitNS CGI IRI))
        (EliminatedImplicitRegs F) F).

Fixpoint flatten_trees (CGI : CodeGenInstruction)
    (Trees : list TreePatternNode) (F : Flattener) : result Flattener :=
  match Trees with
  | [] => Ok F
  | T :: Trees' =>
      do F <- flatten_tree CGI T F ;
      flatten_trees CGI Trees' F
  end.

(** [InstSemantics::InstSemantics(Target, CGI, TP)], lines 563-569: the
    flattener after all trees of the pattern; its [Semantics] are those of
    the instruction, its [Target] carries the constant pool on. *)
Definition InstSemantics_new (T : SemanticsTarget) (E : list Diag)
    (CGI : CodeGenInstruction) (TP : list TreePatternNode)
  : result Flattener :=
  flatten_trees CGI TP (Flattener_new T E).

(** ** The emitter *)

(** [InstSemantics::InstSemantics()], lines 571-575: the dummy semantics of
    slot 0. *)
Definition InstSemantics_empty : list NodeSemantics :=
  [mkNodeSemantics "DCINS::END_OF_INSTRUCTION" [] []].

(** [InstIdx] maps the enum value of an instruction to the index of its
    semantics in [InstSemas]; [run] replaces it by the offset of its block.
    [Diags] is [errs()]. *)
Record SemanticsEmitter : Type := mkSemanticsEmitter {
  InstSemas : list (list NodeSemantics);
  InstIdx : list Z;
  CurSemaOffset : Z;
  SemaTarget : SemanticsTarget;
  Diags : list Diag
}.

(** [addInstSemantics], lines 451-455. *)
Definition addInstSemantics (E : SemanticsEmitter) (InstEnumValue : nat)
    (Sema : list NodeSemantics) : result SemanticsEmitter :=
  if (InstEnumValue <? length (InstIdx E))%nat then
    Ok (mkSemanticsEmitter (InstSemas E ++ [Sema])
          (<[InstEnumValue := wrap32 (Z.of_nat (length (InstSemas E)))]>
             (InstIdx E))
          (CurSemaOffset E) (SemaTarget E) (Diags E))
  else Abort OutOfRange.

(** [addInstSemantics(i, InstSemantics(SemaTarget, CGI, TP))] *)
Definition addFlattened (E : SemanticsEmitter) (i : nat)
    (CGI : CodeGenInstruction) (TP : list TreePatternNode)
  : result SemanticsEmitter :=
  do F <- InstSemantics_new (SemaTarget E) (Diags E) CGI TP ;
  addInstSemantics
    (mkSemanticsEmitter (InstSemas E) (InstIdx E) (CurSemaOffset E)
       (Target F) (errs F))
    i (Semantics F).

(** An instruction as the emitter sees it: the [CodeGenInstruction] and the
    pattern that [CGPatterns.getInstruction] holds for it, if any. *)
Record Instruction : Type := mkInstruction {
  Inst_CGI : CodeGenInstruction;
  Inst_Pattern : option (list TreePatternNode)
}.

(** [ParseSemantics], lines 457-486: every [Semantics] definition is given by
    the enum value of its [Inst] and the trees that [parseInstructionPattern]
    makes of its [Pattern]. *)
Fixpoint ParseSemantics (CGIByEnum : list Instruction)
    (Instrs : list (nat * list TreePatternNode)) (E : SemanticsEmitter)
  : result SemanticsEmitter :=
  match Instrs with
  | [] => Ok E
  | (It, TP) :: Instrs' =>
      match CGIByEnum !! It with
      | Some Inst =>
          do E <- addFlattened E It (Inst_CGI Inst) TP ;
          ParseSemantics CGIByEnum Instrs' E
      | None => Abort (AssertionFailed "It != CGIByEnum.end() && *It == &CGI")
      end
  end.

(** The loop of the constructor over the instructions that are left, from
    enum value [i] on. *)
Fixpoint usePatterns (Insts : list Instruction) (i : nat)
    (E : SemanticsEmitter) : result SemanticsEmitter :=
  match Insts with
  | [] => Ok E
  | Inst :: Insts' =>
      do Idx <- match InstIdx E !! i with
                | Some Idx => Ok Idx
                | None => Abort OutOfRange
                end ;
      if negb (Idx =? 0) then usePatterns Insts' (S i) E
      else
        match Inst_Pattern Inst with
        | Some TP =>
            if negb (isCodeGenOnly (Inst_CGI Inst)) then
              do E <- addFlattened E i (Inst_CGI Inst) TP ;
              usePatterns Insts' (S i) E
            else usePatterns Insts' (S i) E
        | None => usePatterns Insts' (S i) E
        end
  end.

(** The constructor [SemanticsEmitter::SemanticsEmitter], lines 423-449. *)
Definition SemanticsEmitter_new (Info : TGRecord -> result SDNodeInfo)
    (Equivs : list (TGRecord * TGRecord)) (CGIByEnum : list Instruction)
    (Instrs : list (nat * list TreePatternNode)) : result SemanticsEmitter :=
  let E := mkSemanticsEmitter [] (replicate (length CGIByEnum) 0) 0
             (SemanticsTarget_new Info Equivs) [] in
  do E <- addInstSemantics E 0 InstSemantics_empty ;
  do E <- ParseSemantics CGIByEnum Instrs E ;
  usePatterns CGIByEnum 0 E.

(** *** [run]

    The output is kept as the elements of the three arrays; the comments and
    the line breaks that [run] writes between them are left out. *)
Record Output : Type := mkOutput {
  Out_InstSemantics : list string;
  Out_OpcodeToSemaIdx : list Z;
  Out_ConstantArray : list Z
}.

Definition END_OF_INSTRUCTION : string := "DCINS::END_OF_INSTRUCTION".

(** The elements that one node contributes to [InstSemantics[]]. *)
Definition NodeTokens (SI : NodeSemantics) : list string :=
  Opcode SI :: map getEnumName (Types SI) ++ Operands SI.

(** The inner loop of [run] over the nodes of one instruction. *)
Fixpoint run_nodes (Sema : list NodeSemantics) (OS : list string)
    (Offset : Z) : list string * Z :=
  match Sema with
  | [] => (OS, Offset)
  | SI :: Sema' =>
      let Offset := wrap32 (Offset + 1) in
      let OS := OS ++ [Opcode SI] in
      let OS := OS ++ map getEnumName (Types SI) in
      let Offset := wrap32 (Offset + Z.of_nat (length (Types SI))) in
      let OS := OS ++ Operands SI in
      let Offset := wrap32 (Offset + Z.of_nat (length (Operands SI))) in
      run_nodes Sema' OS Offset
  end.

(** The outer loop of [run] over the entries of [InstIdx] that are left; it
    returns the entries as they are rewritten, the stream and the offset. *)
Fixpoint run_insts (Semas : list (list NodeSemantics)) (Idx : list Z)
    (OS : list string) (Offset : Z) : result (list Z * list string * Z) :=
  match Idx with
  | [] => Ok ([], OS, Offset)
  | X :: Idx' =>
      if X =? 0 then
        do R <- run_insts Semas Idx' OS Offset ;
        Ok (X :: fst (fst R), snd (fst R), snd R)
      else
        match Semas !! Z.to_nat X with
        | Some Sema =>
            let Start := Offset in
            let Offset := wrap32 (Offset + 1) in
            let '(OS, Offset) := run_nodes Sema OS Offset in
            let OS := OS ++ [END_OF_INSTRUCTION] in
            do R <- run_insts Semas Idx' OS Offset ;
            Ok (Start :: fst (fst R), snd (fst R), snd R)
        | None => Abort OutOfRange
        end
  end.

(** The entries of a [std::map<uint64_t, unsigned>] in the order of its
    iterator, by increasing key. *)
Definition key_le (A B : Z * Z) : Prop := fst A <= fst B.

#[global]
Instance key_le_dec (A B : Z * Z) : Decision (key_le A B) :=
  Z_le_dec (fst A) (fst B).

Definition ConstantIdx_entries (M : gmap Z Z) : list (Z * Z) :=
  merge_sort key_le (map_to_list M).

(** [Constants[CI->second] = CI->first] over the entries. *)
Fixpoint fill_Constants (Entries : list (Z * Z)) (Constants : list Z)
  : result (list Z) :=
  match Entries with
  | [] => Ok Constants
  | CI :: Entries' =>
      if (Z.to_nat (snd CI) <? length Constants)%nat then
        fill_Constants Entries' (<[Z.to_nat (snd CI) := fst CI]> Constants)
      else Abort OutOfRange
  end.

Definition emit_Constants (T : SemanticsTarget) : result (list Z) :=
  fill_Constants (ConstantIdx_entries (ConstantIdx T))
    (replicate (size (ConstantIdx T) + 1) 0).

(** [run], lines 488-547. *)
Definition run (E : SemanticsEmitter) : result Output :=
  do R <- run_insts (InstSemas E) (InstIdx E) [END_OF_INSTRUCTION] 1 ;
  do Constants <- emit_Constants (SemaTarget E) ;
  Ok (mkOutput (snd (fst R)) (fst (fst R)) Constants).

(** [EmitSemantics], lines 579-582. *)
Definition EmitSemantics (Info : TGRecord -> result SDNodeInfo)
    (Equivs : list (TGRecord * TGRecord)) (CGIByEnum : list Instruction)
    (Instrs : list (nat * list TreePatternNode)) : result Output :=
  do E <- SemanticsEmitter_new Info Equivs CGIByEnum Instrs ;
  run E.

(** ** Notions used by the statements *)

(** The pool after a session that interns the values [Vs] one after the
    other. *)
Definition interns (Vs : list Z) (T : SemanticsTarget) : SemanticsTarget :=
  fold_left (fun T V => snd (intern V T)) Vs T.

(** The pool is sound: the next index is one more than the number of values,
    no value has index 0 or an index that was not handed out yet, and two
    values never share an index. *)
Definition pool_wf (T : SemanticsTarget) : Prop :=
  CurConstIdx T = Z.of_nat (size (ConstantIdx T)) + 1
  /\ (forall K Idx, ConstantIdx T !! K = Some Idx -> 1 <= Idx < CurConstIdx T)
  /\ (forall K1 K2 Idx,
        ConstantIdx T !! K1 = Some Idx -> ConstantIdx T !! K2 = Some Idx ->
        K1 = K2).

(** The block of an instruction in [InstSemantics[]]: the elements of its
    nodes, then the terminator. *)
Definition BlockTokens (Sema : list NodeSemantics) : list string :=
  concat (map NodeTokens Sema) ++ [END_OF_INSTRUCTION].

(** The block of [Sema] lies in the stream [OS] from offset [Start] on. *)
Definition block_at (OS : list string) (Start : Z)
    (Sema : list NodeSemantics) : Prop :=
  exists pre post,
    OS = pre ++ BlockTokens Sema ++ post /\ Z.of_nat (length pre) = Start.

(** The first element of a block: the opcode of its first node, or the
    terminator when the instruction has no node. *)
Definition firstOpcode (Sema : list NodeSemantics) : string :=
  match Sema with
  | SI :: _ => Opcode SI
  | [] => END_OF_INSTRUCTION
  end.

(** Instruction [i] has semantics: [addInstSemantics] has installed some for
    it, which [run] reads off a non-zero entry of [InstIdx]. *)
Definition hasSemantics (E : SemanticsEmitter) (i : nat) : Prop :=
  exists X, InstIdx E !! i = Some X /\ X <> 0.

(** A token that [utostr] writes. *)
Definition isDefToken (Tok : string) : Prop := exists z : Z, Tok = utostr z.

(** The tokens that [addResOperand] hands to the parent: one for every type
    that is not [isVoid], numbered by the position of the type. *)
Fixpoint resTokens (FirstDefNo i : Z) (Ts : list SimpleValueType)
  : list string :=
  match Ts with
  | [] => []
  | T :: Ts' =>
      (if is_isVoid T then [] else [utostr (wrap32 (FirstDefNo + i))])
      ++ resTokens FirstDefNo (i + 1) Ts'
  end.

Definition addOperands (NS : NodeSemantics) (Toks : list string)
  : NodeSemantics :=
  mkNodeSemantics (Opcode NS) (Types NS) (Operands NS ++ Toks).

(** The node that materialises a custom operand. *)
Definition CustomNode (CGI : CodeGenInstruction) (OpInfo : OperandInfo)
    (OpRec : TGRecord) (Ts : list SimpleValueType) : NodeSemantics :=
  mkNodeSemantics "DCINS::CUSTOM_OP" Ts
    [Namespace CGI +:+ "::OpTypes::" +:+ rec_Name OpRec;
     utostr (MIOperandNo OpInfo)].

(** The steps by which flattening changes the [Flattener]: the first
    reference to a custom operand records it and appends its node; any other
    node is appended as it is (its opcode is not [CUSTOM_OP], or all its
    operands are tokens of results); a constant is interned; a dropped
    destination is inserted into the eliminated registers; a diagnostic is
    written. *)
Inductive prim (CGI : CodeGenInstruction) : Flattener -> Flattener -> Prop :=
| prim_custom N OpInfo OpRec Ts F :
    getNamedOperand CGI N = Some OpInfo ->
    asRegisterClass (Rec OpInfo) = Ok OpRec ->
    OperandByName F !! Name OpInfo = None ->
    prim CGI F
      (addSemantics
         (setOperandByName F (<[Name OpInfo := CurDefNo F]> (OperandByName F)))
         (CustomNode CGI OpInfo OpRec Ts))
| prim_node F NS :
    Opcode NS <> "DCINS::CUSTOM_OP"%string
    \/ Forall isDefToken (Operands NS) ->
    prim CGI F (addSemantics F NS)
| prim_intern F V :
    prim CGI F (setTarget F (snd (intern V (Target F))))
| prim_drop F R :
    prim CGI F
      (setEliminatedImplicitRegs F
         (ImplicitRegSet_insert (EliminatedImplicitRegs F) R))
| prim_diag F E :
    prim CGI F (setErrs F E).

Inductive reach (CGI : CodeGenInstruction) : Flattener -> Flattener -> Prop :=
| reach_refl F : reach CGI F F
| reach_step F F1 F2 : prim CGI F F1 -> reach CGI F1 F2 -> reach CGI F F2.

(** The property of a tree that the induction carries. *)
Definition flatten_reaches (CGI : CodeGenInstruction) (TPN : TreePatternNode)
  : Prop :=
  forall Parent F F' P',
    flatten CGI TPN Parent F = Ok (F', P') -> reach CGI F F'.

(** Reading a decimal token back. *)
Definition digit_of (c : Ascii.ascii) : Z := Z.of_nat (Ascii.nat_of_ascii c) - 48.

Fixpoint parse_decimal (acc : Z) (Str : string) : Z :=
  match Str with
  | EmptyString => acc
  | String c Str' => parse_decimal (acc * 10 + digit_of c) Str'
  end.



(** The [DefNo]s that the results of a node with types [Ts] acquire when the
    node is appended while the counter stands at [D]. *)
Fixpoint acquiredDefNos (D : Z) (Ts : list SimpleValueType) : list Z :=
  match Ts with
  | [] => []
  | T :: Ts' =>
      if is_isVoid T then acquiredDefNos D Ts'
      else D :: acquiredDefNos (wrap32 (D + 1)) Ts'
  end.









(** The numbering of the tokens of [addResOperand] as the specification
    words it: the parent receives the [DefNo]s that the results of [Prev]
    acquire. *)
Definition tokens_as_specified (F : Flattener) (NS Prev : NodeSemantics)
  : Prop :=
  Operands (snd (addResOperand F NS Prev)) =
    Operands NS ++ map utostr (acquiredDefNos (CurDefNo F) (Types Prev)).

(** The constructor installs semantics for instruction [i]: a [Semantics]
    record names it, or it has a pattern and is not code-gen-only. *)
Definition installed (CGIByEnum : list Instruction)
    (Instrs : list (nat * list TreePatternNode)) (i : nat) : Prop :=
  i ∈ map fst Instrs
  \/ exists Inst TP,
       CGIByEnum !! i = Some Inst /\ Inst_Pattern Inst = Some TP
       /\ isCodeGenOnly (Inst_CGI Inst) = false.

(** Instruction [i] has semantics that are not empty: the semantics
    installed for it hold a node. *)
Definition nonemptySemantics (E : SemanticsEmitter) (i : nat) : Prop :=
  exists X NS Sema,
    InstIdx E !! i = Some X /\ X <> 0
    /\ InstSemas E !! Z.to_nat X = Some (NS :: Sema).

(** The offset table as the specification words it, "has semantics" read as
    its emitter reads it, "nonempty semantics": the entry of an instruction
    is 0 exactly when it has none, and the element at the entry of an
    instruction that has some is the opcode of the first node of its
    block. *)
Definition offsets_as_specified (E : SemanticsEmitter) (Out : Output) : Prop :=
  forall (i : nat) (Start : Z),
    Out_OpcodeToSemaIdx Out !! i = Some Start ->
    (Start = 0 <-> ~ nonemptySemantics E i)
    /\ (forall X NS Sema,
          InstIdx E !! i = Some X -> X <> 0 ->
          InstSemas E !! Z.to_nat X = Some (NS :: Sema) ->
          Out_InstSemantics Out !! Z.to_nat Start = Some (Opcode NS)).



(** ** Further notions *)

(** The types that [setNSTypeFromNode] gives to a fresh node for a pattern
    node with the types [Ts]. *)
Definition NodeTypes (Ts : list SimpleValueType) : list SimpleValueType :=
  match Ts with
  | [] => [isVoid]
  | _ :: _ => Ts
  end.

(** The operand that an [implicit] node gets for a child. *)
Definition ImplicitOperand (CGI : CodeGenInstruction) (C : TreePatternNode)
  : string :=
  Namespace CGI +:+ "::" +:+
  match C with
  | TPLeaf _ _ V => getAsString V
  | TPOp _ _ _ _ => EmptyString
  end.

(** The node that [flattenSet] appends for the destination [Child] and the
    value token [Tok]: [PUT_RC] on the number of the operand that the
    destination names, for a register class (a register operand counts as
    its class); [PUT_REG] on the qualified name of the register, for a
    register; the node without opcode for anything else. *)
Inductive StoreNode (CGI : CodeGenInstruction) (Tok : string)
  : TreePatternNode -> NodeSemantics -> Prop :=
| Store_RC N Ts R R' OpInfo :
    asRegisterClass R = Ok R' ->
    isSubClassOf R' "RegisterClass" = true ->
    getNamedOperand CGI N = Some OpInfo ->
    StoreNode CGI Tok (TPLeaf N Ts (DefInit R))
      (mkNodeSemantics "DCINS::PUT_RC" [isVoid]
         [utostr (MIOperandNo OpInfo); Tok])
| Store_Reg N Ts R R' :
    asRegisterClass R = Ok R' ->
    isSubClassOf R' "RegisterClass" = false ->
    isSubClassOf R' "Register" = true ->
    StoreNode CGI Tok (TPLeaf N Ts (DefInit R))
      (mkNodeSemantics "DCINS::PUT_REG" [isVoid]
         [Namespace CGI +:+ "::" +:+ rec_Name R'; Tok])
| Store_other N Ts R R' :
    asRegisterClass R = Ok R' ->
    isSubClassOf R' "RegisterClass" = false ->
    isSubClassOf R' "Register" = false ->
    StoreNode CGI Tok (TPLeaf N Ts (DefInit R))
      (mkNodeSemantics EmptyString [isVoid] [Tok]).

(** [F'] is [F] with the nodes [More] appended and nothing else changed but
    the eliminated registers. *)
Definition appended (F F' : Flattener) (More : list NodeSemantics) : Prop :=
  Semantics F' = Semantics F ++ More
  /\ CurDefNo F' = CurDefNo F
  /\ Target F' = Target F
  /\ OperandByName F' = OperandByName F
  /\ errs F' = errs F.

(** The number of results that a node defines: its type entries other than
    [isVoid]; and the number of results that the nodes of a block define. *)
Definition definedBy (NS : NodeSemantics) : nat :=
  length (List.filter (fun T => negb (is_isVoid T)) (Types NS)).

Definition numDefs (Sema : list NodeSemantics) : nat :=
  list_sum (map definedBy Sema).

(** [F'] extends [F]: the nodes emitted are kept at their places; the
    [DefNo]s recorded for named operands, the eliminated registers and the
    pool entries with a non-zero index are kept; and the node equivalences
    are the same. *)
Definition extends (F F' : Flattener) : Prop :=
  Semantics F `prefix_of` Semantics F'
  /\ (forall N d, OperandByName F !! N = Some d ->
                  OperandByName F' !! N = Some d)
  /\ (forall R, R ∈ EliminatedImplicitRegs F -> R ∈ EliminatedImplicitRegs F')
  /\ (forall K Idx, ConstantIdx (Target F) !! K = Some Idx -> Idx <> 0 ->
                    ConstantIdx (Target F') !! K = Some Idx)
  /\ SDNodeEquiv (Target F') = SDNodeEquiv (Target F).

(** A pattern node with at most one type; when it carries the name of an
    operand of the instruction it has exactly one, which is a result. *)
Definition types_ok (CGI : CodeGenInstruction) (N : string)
    (Ts : list SimpleValueType) : Prop :=
  (length Ts <= 1)%nat
  /\ (getNamedOperand CGI N <> None -> exists T, Ts = [T] /\ T <> isVoid).

(** A tree all of whose nodes are such. *)
#[warnings="-register-all"]
Inductive single_valued (CGI : CodeGenInstruction) : TreePatternNode -> Prop :=
| sv_leaf N Ts V :
    types_ok CGI N Ts -> single_valued CGI (TPLeaf N Ts V)
| sv_op N Ts Op Cs :
    types_ok CGI N Ts -> Forall (single_valued CGI) Cs ->
    single_valued CGI (TPOp N Ts Op Cs).

(** The counter stands at the number of results of the block, and every
    [DefNo] recorded for a named operand is the number of a result of the
    block. *)
Definition defs_ok (F : Flattener) : Prop :=
  CurDefNo F = Z.of_nat (numDefs (Semantics F))
  /\ forall N d, OperandByName F !! N = Some d ->
                 0 <= d < Z.of_nat (numDefs (Semantics F)).

(** The tokens [ds] that a call hands to its parent [P], each the number of
    a result of the block [Sema]. *)
Definition hands_up (Sema : list NodeSemantics) (P P' : NodeSemantics)
    (ds : list Z) : Prop :=
  P' = addOperands P (map utostr ds)
  /\ Forall (fun d => 0 <= d < Z.of_nat (numDefs Sema)) ds.

(** The tokens [ds] of a call that led from [F] to [F']: unless the call
    appended nothing, there is none, or one, the number of the result that
    the block defined last. *)
Definition last_value (F F' : Flattener) (ds : list Z) : Prop :=
  Semantics F' = Semantics F
  \/ ds = []
  \/ ds = [Z.of_nat (numDefs (Semantics F')) - 1].

(** What the induction on a tree carries for the numbering of values. *)
Definition flatten_defines (CGI : CodeGenInstruction) (TPN : TreePatternNode)
  : Prop :=
  forall Parent F F' P',
    single_valued CGI TPN -> defs_ok F ->
    flatten CGI TPN Parent F = Ok (F', P') ->
    Z.of_nat (numDefs (Semantics F')) < 2 ^ 32 ->
    defs_ok F'
    /\ forall P, Parent = Some P ->
         exists P1 ds,
           P' = Some P1 /\ hands_up (Semantics F') P P1 ds
           /\ last_value F F' ds.

(** What the induction on a tree carries for the error stream: below a
    parent nothing is written to it. *)
Definition flatten_silent (CGI : CodeGenInstruction) (TPN : TreePatternNode)
  : Prop :=
  forall P F F' P',
    flatten CGI TPN (Some P) F = Ok (F', P') -> errs F' = errs F.

(** Every index that the pool has handed out belongs to a value. *)
Definition pool_full (T : SemanticsTarget) : Prop :=
  forall Idx, 1 <= Idx < CurConstIdx T ->
              exists K, ConstantIdx T !! K = Some Idx.

(** The semantics that [run] writes: those of the non-zero entries of
    [InstIdx], in the order of the enum values. *)
Definition emittedSemas (Semas : list (list NodeSemantics)) (Idx : list Z)
  : list (list NodeSemantics) :=
  omap (fun X => if X =? 0 then None else Semas !! Z.to_nat X) Idx.

(** Every entry of [InstIdx] is 0 or the index of an element of
    [InstSemas]. *)
Definition idx_wf (E : SemanticsEmitter) : Prop :=
  Forall (fun X => 0 <= X /\ (X <> 0 -> X < Z.of_nat (length (InstSemas E))))
    (InstIdx E).

(** The semantics that [E] holds for instruction [i] are those that the
    flattener makes of the trees [TP] for [CGI], started on a pool that a
    session of [intern] calls has built from [T0]. *)
Definition semanticsFrom (E : SemanticsEmitter) (T0 : SemanticsTarget)
    (i : nat) (CGI : CodeGenInstruction) (TP : list TreePatternNode) : Prop :=
  exists X Vs D F,
    InstIdx E !! i = Some X /\ X <> 0
    /\ InstSemantics_new (interns Vs T0) D CGI TP = Ok F
    /\ InstSemas E !! Z.to_nat X = Some (Semantics F).

(** The block that [OpcodeToSemaIdx[i]] points at in [InstSemantics[]] is
    the flattening of the trees [TP] for instruction [CGI], by a target
    that [T0] has grown into. *)
Definition emittedFrom (Out : Output) (T0 : SemanticsTarget)
    (i : nat) (CGI : CodeGenInstruction) (TP : list TreePatternNode) : Prop :=
  exists Start Vs D F,
    Out_OpcodeToSemaIdx Out !! i = Some Start /\ Start <> 0
    /\ InstSemantics_new (interns Vs T0) D CGI TP = Ok F
    /\ block_at (Out_InstSemantics Out) Start (Semantics F).

(** ** A sample target *)

Module Sample.

Definition GPR := mkTGRecord 1 "GPR" ["RegisterClass"%string] None None.
Definition EFLAGS := mkTGRecord 2 "EFLAGS" ["Register"%string] None None.
Definition EAX := mkTGRecord 3 "EAX" ["Register"%string] None None.
Definition set := mkTGRecord 4 "set" [] None None.
Definition implicit := mkTGRecord 5 "implicit" [] None None.
Definition add :=
  mkTGRecord 6 "add" ["SDNode"%string] None (Some "ISD::ADD"%string).
Definition X86add_flag :=
  mkTGRecord 7 "X86add_flag" ["SDNode"%string] None
    (Some "X86ISD::ADD"%string).
Definition store :=
  mkTGRecord 8 "store" ["SDNode"%string] None (Some "ISD::STORE"%string).
Definition MemOperand :=
  mkTGRecord 9 "MemOperand" ["Operand"%string] None None.
Definition i32imm := mkTGRecord 10 "i32imm" ["Operand"%string] None None.
Definition SEGMENT := mkTGRecord 11 "SEGMENT" [] None None.

Definition Info (R : TGRecord) : result SDNodeInfo :=
  if rec_ID R =? 6 then Ok (mkSDNodeInfo "ISD::ADD" 1)
  else Abort (AssertionFailed "Unknown node type!").

(** A target where [X86add_flag] is equivalent to [add], and one without
    equivalences. *)
Definition TEquiv : SemanticsTarget :=
  SemanticsTarget_new Info [(X86add_flag, add)].
Definition TPlain : SemanticsTarget := SemanticsTarget_new Info [].

Definition CGI : CodeGenInstruction :=
  mkCodeGenInstruction "X86"
    [mkOperandInfo "dst" 0 "OPERAND_REGISTER" GPR;
     mkOperandInfo "a" 1 "OPERAND_REGISTER" GPR;
     mkOperandInfo "b" 2 "OPERAND_REGISTER" GPR;
     mkOperandInfo "addr" 3 "OPERAND_MEMORY" MemOperand;
     mkOperandInfo "imm" 8 "OPERAND_IMMEDIATE" i32imm]
    (mkTGRecord 100 "ADD32rr" [] None None) false.

Definition leaf (N : string) (R : TGRecord) : TreePatternNode :=
  TPLeaf N [i32] (DefInit R).

(** [(set GPR:$dst, (add GPR:$a, GPR:$b))] *)
Definition AddRR : TreePatternNode :=
  TPOp "" [] set
    [leaf "dst" GPR; TPOp "" [i32] add [leaf "a" GPR; leaf "b" GPR]].


(** [(set GPR:$dst, (add addr:$addr, addr:$addr))] *)
Definition AddMM : TreePatternNode :=
  TPOp "" [] set
    [leaf "dst" GPR;
     TPOp "" [i32] add [leaf "addr" MemOperand; leaf "addr" MemOperand]].

(** [(set GPR:$dst, (add GPR:$a, 1234))] *)
Definition AddRI : TreePatternNode :=
  TPOp "" [] set
    [leaf "dst" GPR;
     TPOp "" [i32] add [leaf "a" GPR; TPLeaf "" [i32] (IntInit 1234)]].

(** [(set GPR:$dst, EFLAGS, (X86add_flag GPR:$a, GPR:$b))] *)
Definition AddFlag : TreePatternNode :=
  TPOp "" [] set
    [leaf "dst" GPR; leaf "" EFLAGS;
     TPOp "" [i32; i32] X86add_flag [leaf "a" GPR; leaf "b" GPR]].

(** [(store (X86add_flag GPR:$a, GPR:$b))]: a node with two results below
    another node. *)
Definition StoreFlag : TreePatternNode :=
  TPOp "" [] store
    [TPOp "" [i32; i32] X86add_flag [leaf "a" GPR; leaf "b" GPR]].

(** [(set GPR:$dst, EFLAGS, (add GPR:$a, GPR:$b))]: two destinations for a
    node with one result. *)
Definition BadSet : TreePatternNode :=
  TPOp "" [] set
    [leaf "dst" GPR; leaf "" EFLAGS;
     TPOp "" [i32] add [leaf "a" GPR; leaf "b" GPR]].

(** [(set SEGMENT, (add GPR:$a, GPR:$b))]: the destination is neither a
    register class nor a register. *)
Definition OddSet : TreePatternNode :=
  TPOp "" [] set
    [leaf "" SEGMENT; TPOp "" [i32] add [leaf "a" GPR; leaf "b" GPR]].

(** Five instructions: two without pattern, one with a sound pattern, one
    whose [set] has a wrong arity, and one given by a [Semantics] record. *)
Definition Insts : list Instruction :=
  [mkInstruction CGI None; mkInstruction CGI (Some [AddRR]);
   mkInstruction CGI (Some [BadSet]); mkInstruction CGI None;
   mkInstruction CGI None].

Definition Instrs : list (nat * list TreePatternNode) := [(4%nat, [AddRI])].

End Sample.

(** * Properties *)

(** [bind_ok H as p]: [H] says that [do x <- m ; k] returned, so [m]
    returned; [p] names what it returned.  With [eqn:E] the equation of [m]
    is kept. *)
Tactic Notation "bind_ok" hyp(H) "as" simple_intropattern(p) :=
  match type of H with
  | bind ?m _ = _ => destruct m as [p|]; [|discriminate H]
  end.

Tactic Notation "bind_ok" hyp(H) "as" simple_intropattern(p) "eqn" ":"
    ident(E) :=
  match type of H with
  | bind ?m _ = _ => destruct m as [p|] eqn:E; [|discriminate H]
  end.

(** ** Appending a node without result (C9) *)

Lemma countDefs_all_void (Ts : list SimpleValueType) (D : Z) :
  Forall (fun T => T = isVoid) Ts -> countDefs Ts D = D.
Proof.
  unfold countDefs. intros H. revert D.
  induction H as [|T Ts HT _ IH]; intros D; simpl; [reflexivity|].
  rewrite HT. simpl. apply IH.
Qed.

Lemma addResOperands_all_void (First i : Z) (Ts : list SimpleValueType)
    (NS : NodeSemantics) :
  Forall (fun T => T = isVoid) Ts -> addResOperands First i Ts NS = NS.
Proof.
  intros H. revert i.
  induction H as [|T Ts HT _ IH]; intros i; simpl; [reflexivity|].
  rewrite HT. simpl. apply IH.
Qed.

(** C9. When every type entry of the child [Prev] is [isVoid],
    [addResOperand] leaves the parent as it is (no operand token is added),
    leaves [CurDefNo] as it is, and still appends [Prev] to the semantics of
    the instruction. *)
Theorem C9_void_child_frame (F : Flattener) (NS Prev : NodeSemantics) :
  Forall (fun T => T = isVoid) (Types Prev) ->
  Operands (snd (addResOperand F NS Prev)) = Operands NS
  /\ snd (addResOperand F NS Prev) = NS
  /\ CurDefNo (fst (addResOperand F NS Prev)) = CurDefNo F
  /\ Semantics (fst (addResOperand F NS Prev)) = Semantics F ++ [Prev].
Proof.
  intros H. unfold addResOperand. simpl.
  rewrite addResOperands_all_void by exact H.
  rewrite countDefs_all_void by exact H.
  repeat split; reflexivity.
Qed.

Lemma C9_void_child_frame_witness :
  let F := Flattener_new Sample.TPlain [] in
  let NS := mkNodeSemantics "ISD::STORE" [isVoid] ["0"%string] in
  let Prev := mkNodeSemantics "ISD::BR" [isVoid; isVoid] ["1"%string] in
  Operands (snd (addResOperand F NS Prev)) = Operands NS
  /\ snd (addResOperand F NS Prev) = NS
  /\ CurDefNo (fst (addResOperand F NS Prev)) = CurDefNo F
  /\ Semantics (fst (addResOperand F NS Prev)) = Semantics F ++ [Prev].
Proof.
  intros F NS Prev. apply (C9_void_child_frame F NS Prev).
  repeat constructor.
Defined.

(** ** The constant pool (C6, C7) *)

Lemma wrap32_small (z : Z) : 0 <= z < 2 ^ 32 -> wrap32 z = z.
Proof. intros H. unfold wrap32. apply Z.mod_small. exact H. Qed.

Lemma pool_wf_new (Info : TGRecord -> result SDNodeInfo)
    (Equivs : list (TGRecord * TGRecord)) :
  pool_wf (SemanticsTarget_new Info Equivs).
Proof.
  unfold pool_wf, SemanticsTarget_new. simpl. split; [|split].
  - rewrite map_size_empty. reflexivity.
  - intros K Idx H. rewrite lookup_empty in H. discriminate.
  - intros K1 K2 Idx H. rewrite lookup_empty in H. discriminate.
Qed.

(** What [intern] does in a sound pool. *)
Lemma intern_present (V Idx : Z) (T : SemanticsTarget) :
  pool_wf T -> ConstantIdx T !! wrap64 V = Some Idx -> intern V T = (Idx, T).
Proof.
  intros (_ & Hrange & _) H. unfold intern. rewrite H.
  specialize (Hrange _ _ H).
  destruct (Idx =? 0) eqn:E; [|reflexivity].
  apply Z.eqb_eq in E. lia.
Qed.

Lemma intern_absent (V : Z) (T : SemanticsTarget) :
  ConstantIdx T !! wrap64 V = None ->
  intern V T =
    (CurConstIdx T,
     mkSemanticsTarget (getSDNodeInfo T) (SDNodeEquiv T)
       (<[wrap64 V := CurConstIdx T]> (ConstantIdx T))
       (wrap32 (CurConstIdx T + 1))).
Proof. intros H. unfold intern. rewrite H. reflexivity. Qed.

Lemma intern_size_le (V : Z) (T : SemanticsTarget) :
  pool_wf T ->
  (size (ConstantIdx T) <= size (ConstantIdx (snd (intern V T))))%nat.
Proof.
  intros Hwf. destruct (ConstantIdx T !! wrap64 V) as [Idx|] eqn:E.
  - rewrite (intern_present V Idx T Hwf E). simpl. lia.
  - rewrite (intern_absent V T E). simpl.
    rewrite map_size_insert_None by exact E. lia.
Qed.

Lemma intern_wf (V : Z) (T : SemanticsTarget) :
  pool_wf T ->
  Z.of_nat (size (ConstantIdx (snd (intern V T)))) < 2 ^ 32 - 1 ->
  pool_wf (snd (intern V T)).
Proof.
  intros Hwf. destruct (ConstantIdx T !! wrap64 V) as [Idx|] eqn:E.
  - rewrite (intern_present V Idx T Hwf E). simpl. intros _. exact Hwf.
  - rewrite (intern_absent V T E). simpl.
    rewrite map_size_insert_None by exact E. intros Hsz.
    destruct Hwf as (Hcur & Hrange & Hinj).
    assert (Hw : wrap32 (CurConstIdx T + 1) = CurConstIdx T + 1)
      by (apply wrap32_small; lia).
    unfold pool_wf. simpl. rewrite Hw.
    rewrite map_size_insert_None by exact E.
    split; [lia|]. split.
    + intros K Idx. rewrite lookup_insert. case_decide as HK.
      * intros [= <-]. lia.
      * intros H. specialize (Hrange _ _ H). lia.
    + intros K1 K2 Idx. rewrite !lookup_insert.
      case_decide as H1; case_decide as H2.
      * congruence.
      * intros [= <-] H. specialize (Hrange _ _ H). lia.
      * intros H [= <-]. specialize (Hrange _ _ H). lia.
      * apply Hinj.
Qed.

Lemma interns_snoc (Vs : list Z) (V : Z) (T : SemanticsTarget) :
  interns (Vs ++ [V]) T = snd (intern V (interns Vs T)).
Proof. unfold interns. rewrite fold_left_app. reflexivity. Qed.

(** Every pool of a session is sound, as long as it holds fewer than
    [2^32 - 1] values. *)
Lemma interns_wf (Vs : list Z) (T : SemanticsTarget) :
  pool_wf T ->
  Z.of_nat (size (ConstantIdx (interns Vs T))) < 2 ^ 32 - 1 ->
  pool_wf (interns Vs T).
Proof.
  intros Hwf. induction Vs as [|V Vs IH] using rev_ind.
  - intros _. exact Hwf.
  - rewrite interns_snoc. intros Hsz.
    assert (Hprev : Z.of_nat (size (ConstantIdx (interns Vs T))) < 2 ^ 32 - 1).
    { destruct (ConstantIdx (interns Vs T) !! wrap64 V) as [Idx|] eqn:E.
      - destruct (decide (Z.of_nat (size (ConstantIdx (interns Vs T)))
                          < 2 ^ 32 - 1)) as [Hlt|Hge]; [exact Hlt|].
        exfalso. revert Hsz. unfold intern. rewrite E.
        destruct (Idx =? 0); simpl.
        + rewrite map_size_insert_Some by (rewrite E; eauto). lia.
        + lia.
      - revert Hsz. rewrite (intern_absent V _ E). simpl.
        rewrite map_size_insert_None by exact E. lia. }
    apply intern_wf; [apply IH; exact Hprev | exact Hsz].
Qed.

(** C6. In every pool that a session of [intern] calls has built from the
    empty pool of the constructor and that holds fewer than [2^32 - 1]
    values: a value that is present gets its recorded index back and the
    pool stays as it is; a value that is absent gets the next index, which
    is the number of values so far plus one (so 1 for the first value), and
    is recorded with it; in both cases the index is not 0 and is the one
    that the pool holds for the value afterwards. *)
Theorem C6_intern (Info : TGRecord -> result SDNodeInfo)
    (Equivs : list (TGRecord * TGRecord)) (Vs : list Z) (V : Z) :
  let T := interns Vs (SemanticsTarget_new Info Equivs) in
  Z.of_nat (size (ConstantIdx T)) < 2 ^ 32 - 1 ->
  (forall Idx, ConstantIdx T !! wrap64 V = Some Idx -> intern V T = (Idx, T))
  /\ (ConstantIdx T !! wrap64 V = None ->
      fst (intern V T) = Z.of_nat (size (ConstantIdx T)) + 1
      /\ ConstantIdx (snd (intern V T)) =
           <[wrap64 V := Z.of_nat (size (ConstantIdx T)) + 1]> (ConstantIdx T)
      /\ size (ConstantIdx (snd (intern V T))) = S (size (ConstantIdx T)))
  /\ fst (intern V T) <> 0
  /\ ConstantIdx (snd (intern V T)) !! wrap64 V = Some (fst (intern V T)).
Proof.
  intros T Hsz.
  assert (Hwf : pool_wf T) by (apply interns_wf; [apply pool_wf_new | exact Hsz]).
  pose proof Hwf as (Hcur & Hrange & _).
  split; [|split; [|split]].
  - intros Idx H. apply intern_present; assumption.
  - intros H. rewrite (intern_absent V T H). simpl. rewrite Hcur.
    split; [reflexivity|]. split; [reflexivity|].
    apply map_size_insert_None. exact H.
  - destruct (ConstantIdx T !! wrap64 V) as [Idx|] eqn:E.
    + rewrite (intern_present V Idx T Hwf E). simpl.
      specialize (Hrange _ _ E). lia.
    + rewrite (intern_absent V T E). simpl. lia.
  - destruct (ConstantIdx T !! wrap64 V) as [Idx|] eqn:E.
    + rewrite (intern_present V Idx T Hwf E). simpl. exact E.
    + rewrite (intern_absent V T E). simpl. apply lookup_insert_eq.
Qed.

Lemma C6_intern_witness :
  let T := interns [1234; 7; 1234] Sample.TPlain in
  (forall Idx, ConstantIdx T !! wrap64 7 = Some Idx -> intern 7 T = (Idx, T))
  /\ (ConstantIdx T !! wrap64 7 = None ->
      fst (intern 7 T) = Z.of_nat (size (ConstantIdx T)) + 1
      /\ ConstantIdx (snd (intern 7 T)) =
           <[wrap64 7 := Z.of_nat (size (ConstantIdx T)) + 1]> (ConstantIdx T)
      /\ size (ConstantIdx (snd (intern 7 T))) = S (size (ConstantIdx T)))
  /\ fst (intern 7 T) <> 0
  /\ ConstantIdx (snd (intern 7 T)) !! wrap64 7 = Some (fst (intern 7 T)).
Proof.
  apply (C6_intern Sample.Info [] [1234; 7; 1234] 7).
  vm_compute. reflexivity.
Defined.

(** [fill_Constants] writes every entry to its own slot when the indices are
    within the vector and pairwise different. *)
Lemma fill_Constants_spec (Entries : list (Z * Z)) (Constants : list Z) :
  Forall (fun CI => (Z.to_nat (snd CI) < length Constants)%nat) Entries ->
  NoDup (map (fun CI => Z.to_nat (snd CI)) Entries) ->
  exists Constants',
    fill_Constants Entries Constants = Ok Constants'
    /\ length Constants' = length Constants
    /\ (forall CI, CI ∈ Entries ->
          Constants' !! Z.to_nat (snd CI) = Some (fst CI))
    /\ (forall j : nat,
          j ∉ map (fun CI => Z.to_nat (snd CI)) Entries ->
          Constants' !! j = Constants !! j).
Proof.
  revert Constants.
  induction Entries as [|CI Entries IH]; intros Constants Hin Hnd; simpl.
  - exists Constants. repeat split; try reflexivity.
    intros CI H. inversion H.
  - apply Forall_cons in Hin as [Hlt Hin].
    apply NoDup_cons in Hnd as [Hfresh Hnd].
    destruct (Nat.ltb_spec (Z.to_nat (snd CI)) (length Constants)) as [_|Hge];
      [|lia].
    destruct (IH (<[Z.to_nat (snd CI) := fst CI]> Constants))
      as (Constants' & Hfill & Hlen & Hat & Hother).
    { rewrite length_insert. exact Hin. }
    { exact Hnd. }
    exists Constants'. split; [exact Hfill|]. split.
    { rewrite Hlen, length_insert. reflexivity. }
    split.
    + intros CI' H. apply elem_of_cons in H as [->|H].
      * rewrite Hother by exact Hfresh.
        apply list_lookup_insert_eq. exact Hlt.
      * apply Hat. exact H.
    + intros j Hj. rewrite not_elem_of_cons in Hj. destruct Hj as [Hne Hj].
      rewrite Hother by exact Hj.
      apply list_lookup_insert_ne. congruence.
Qed.

Lemma ConstantIdx_entries_elem (M : gmap Z Z) (K Idx : Z) :
  (K, Idx) ∈ ConstantIdx_entries M <-> M !! K = Some Idx.
Proof.
  unfold ConstantIdx_entries. rewrite merge_sort_Permutation.
  apply elem_of_map_to_list.
Qed.

(** The array that the emitter builds from the pool of a session. *)
Lemma session_ConstantArray (Info : TGRecord -> result SDNodeInfo)
    (Equivs : list (TGRecord * TGRecord)) (Vs : list Z) :
  let T := interns Vs (SemanticsTarget_new Info Equivs) in
  Z.of_nat (size (ConstantIdx T)) < 2 ^ 32 - 1 ->
  exists Constants,
    emit_Constants T = Ok Constants
    /\ length Constants = S (size (ConstantIdx T))
    /\ Constants !! 0%nat = Some 0
    /\ (forall K Idx, ConstantIdx T !! K = Some Idx ->
          Constants !! Z.to_nat Idx = Some K)
    /\ (forall V, V ∈ Vs ->
          Constants !! Z.to_nat (fst (intern V T)) = Some (wrap64 V)).
Proof.
  intros T Hsz.
  assert (Hwf : pool_wf T) by (apply interns_wf; [apply pool_wf_new | exact Hsz]).
  pose proof Hwf as (Hcur & Hrange & Hinj).
  destruct (fill_Constants_spec (ConstantIdx_entries (ConstantIdx T))
              (replicate (size (ConstantIdx T) + 1) 0))
    as (Constants & Hfill & Hlen & Hat & Hother).
  { apply Forall_forall. intros [K Idx] H.
    apply ConstantIdx_entries_elem in H. specialize (Hrange _ _ H).
    rewrite length_replicate. simpl. lia. }
  { unfold ConstantIdx_entries. rewrite merge_sort_Permutation.
    apply (NoDup_fmap_2_strong (fun CI : Z * Z => Z.to_nat (snd CI))).
    - intros [K1 I1] [K2 I2] H1 H2 Heq. simpl in Heq.
      apply elem_of_map_to_list in H1, H2.
      pose proof (Hrange _ _ H1). pose proof (Hrange _ _ H2).
      assert (I1 = I2) by lia. subst I2.
      rewrite (Hinj _ _ _ H1 H2). reflexivity.
    - apply NoDup_map_to_list. }
  assert (Hlook : forall K Idx, ConstantIdx T !! K = Some Idx ->
                    Constants !! Z.to_nat Idx = Some K).
  { intros K Idx H. apply (Hat (K, Idx)).
    apply ConstantIdx_entries_elem. exact H. }
  exists Constants. split; [exact Hfill|]. split.
  { rewrite Hlen, length_replicate. lia. }
  split.
  { rewrite Hother.
    - apply lookup_replicate_2. lia.
    - intros H. apply list_elem_of_fmap in H as ([K Idx] & Heq & H).
      apply ConstantIdx_entries_elem in H. specialize (Hrange _ _ H).
      simpl in Heq. lia. }
  split; [exact Hlook|].
  intros V HV.
  assert (Hpresent : is_Some (ConstantIdx T !! wrap64 V)).
  { clear -HV. subst T.
    generalize (SemanticsTarget_new Info Equivs) as T0.
    induction Vs as [|V' Vs IH] using rev_ind; intros T0.
    - inversion HV.
    - rewrite interns_snoc. apply elem_of_app in HV as [HV|HV].
      + specialize (IH HV T0). destruct IH as [Idx IH].
        unfold intern. destruct (ConstantIdx (interns Vs T0) !! wrap64 V')
          as [Idx'|] eqn:E; [destruct (Idx' =? 0)|]; simpl;
          try (rewrite lookup_insert; case_decide); eauto.
      + apply list_elem_of_singleton in HV. subst V'.
        unfold intern. destruct (ConstantIdx (interns Vs T0) !! wrap64 V)
          as [Idx'|] eqn:E; [destruct (Idx' =? 0)|]; simpl;
          try rewrite lookup_insert_eq; eauto. }
  destruct Hpresent as [Idx HIdx].
  rewrite (intern_present V Idx T Hwf HIdx). simpl.
  apply Hlook. exact HIdx.
Qed.

(** ** Destinations of [set] (C10) and its arity check (C3) *)



(** The whole block of [(set SEGMENT, (add GPR:$a, GPR:$b))]. *)
Example OddSet_block :
  match InstSemantics_new Sample.TPlain [] Sample.CGI [Sample.OddSet] with
  | Ok F =>
      Semantics F =
        [mkNodeSemantics "DCINS::GET_RC" [i32] ["1"%string];
         mkNodeSemantics "DCINS::GET_RC" [i32] ["2"%string];
         mkNodeSemantics "ISD::ADD" [i32] ["0"%string; "1"%string];
         mkNodeSemantics EmptyString [isVoid] ["2"%string]]
      /\ errs F = []
  | Abort _ => False
  end.
Proof. vm_compute. split; reflexivity. Qed.

Lemma with_last_last {A B : Type} (f : A -> result B) (l : list A) :
  with_last f l =
    match last l with
    | Some x => f x
    | None => Abort OutOfRange
    end.
Proof.
  induction l as [|x l IH]; [reflexivity|].
  destruct l as [|y l]; [reflexivity|].
  change (with_last f (x :: y :: l)) with (with_last f (y :: l)).
  rewrite IH. reflexivity.
Qed.



(** ** The offset table (C5) *)

Lemma run_nodes_OS (Sema : list NodeSemantics) (OS : list string) (Off : Z) :
  fst (run_nodes Sema OS Off) = OS ++ concat (map NodeTokens Sema).
Proof.
  revert OS Off. induction Sema as [|SI Sema IH]; intros OS Off; simpl.
  - rewrite app_nil_r. reflexivity.
  - rewrite IH. unfold NodeTokens. simpl.
    rewrite <- !app_assoc. reflexivity.
Qed.

Lemma NodeTokens_length (SI : NodeSemantics) :
  length (NodeTokens SI) = S (length (Types SI) + length (Operands SI)).
Proof.
  unfold NodeTokens. simpl. rewrite length_app, length_map. reflexivity.
Qed.

Lemma run_nodes_Offset (Sema : list NodeSemantics) (OS : list string)
    (Off c : Z) :
  Off = Z.of_nat (length OS) + c -> 0 <= c ->
  Z.of_nat (length (OS ++ concat (map NodeTokens Sema))) + c < 2 ^ 32 ->
  snd (run_nodes Sema OS Off) =
    Z.of_nat (length (OS ++ concat (map NodeTokens Sema))) + c.
Proof.
  revert OS Off. induction Sema as [|SI Sema IH]; intros OS Off HOff Hc Hlen.
  - simpl. rewrite app_nil_r. exact HOff.
  - change (concat (map NodeTokens (SI :: Sema)))
      with (NodeTokens SI ++ concat (map NodeTokens Sema)) in *.
    pose proof (NodeTokens_length SI) as HSI.
    rewrite !length_app in Hlen.
    assert (HOS : (OS ++ [Opcode SI]) ++ map getEnumName (Types SI)
                    ++ Operands SI = OS ++ NodeTokens SI).
    { unfold NodeTokens. rewrite <- !app_assoc. reflexivity. }
    cbn [run_nodes]. cbv zeta.
    rewrite <- (app_assoc (OS ++ [Opcode SI])), HOS.
    rewrite IH.
    + rewrite <- !app_assoc. reflexivity.
    + rewrite length_app. subst Off.
      rewrite (wrap32_small (Z.of_nat (length OS) + c + 1)) by lia.
      rewrite (wrap32_small (Z.of_nat (length OS) + c + 1 + _)) by lia.
      rewrite wrap32_small by lia. lia.
    + exact Hc.
    + rewrite !length_app. lia.
Qed.

Lemma block_at_app (OS More : list string) (Start : Z)
    (Sema : list NodeSemantics) :
  block_at OS Start Sema -> block_at (OS ++ More) Start Sema.
Proof.
  intros (pre & post & -> & Hlen). exists pre, (post ++ More).
  split; [|exact Hlen]. rewrite <- !app_assoc. reflexivity.
Qed.

Lemma block_at_head (OS : list string) (Start : Z)
    (Sema : list NodeSemantics) :
  block_at OS Start Sema ->
  OS !! Z.to_nat Start = head (BlockTokens Sema).
Proof.
  intros (pre & post & -> & <-). rewrite Nat2Z.id.
  rewrite lookup_app_r by lia. rewrite Nat.sub_diag.
  unfold BlockTokens. destruct (concat (map NodeTokens Sema)); reflexivity.
Qed.

Lemma run_insts_grows (Semas : list (list NodeSemantics)) (Idx : list Z) :
  forall (OS : list string) (Off : Z) (Idx' : list Z) (OS' : list string)
         (Off' : Z),
    run_insts Semas Idx OS Off = Ok (Idx', OS', Off') ->
    exists More, OS' = OS ++ More.
Proof.
  induction Idx as [|X Idx IH]; intros OS Off Idx' OS' Off' Hrun.
  - simpl in Hrun. injection Hrun as <- <- <-.
    exists []. rewrite app_nil_r. reflexivity.
  - simpl in Hrun. destruct (X =? 0).
    + destruct (run_insts Semas Idx OS Off) as [[[I1 O1] F1]|] eqn:Hrest;
        [|discriminate].
      simpl in Hrun. injection Hrun as <- <- <-.
      apply (IH _ _ _ _ _ Hrest).
    + destruct (Semas !! Z.to_nat X) as [Sema|]; [|discriminate].
      destruct (run_nodes Sema OS (wrap32 (Off + 1))) as [O2 F2] eqn:Hnodes.
      destruct (run_insts Semas Idx (O2 ++ [END_OF_INSTRUCTION]) F2)
        as [[[I1 O1] F1]|] eqn:Hrest; [|discriminate].
      simpl in Hrun. injection Hrun as <- <- <-.
      destruct (IH _ _ _ _ _ Hrest) as [More HM].
      pose proof (run_nodes_OS Sema OS (wrap32 (Off + 1))) as HO2.
      rewrite Hnodes in HO2. simpl in HO2. subst O2.
      exists (concat (map NodeTokens Sema) ++ [END_OF_INSTRUCTION] ++ More).
      rewrite HM. rewrite <- !app_assoc. reflexivity.
Qed.

Lemma run_insts_spec (Semas : list (list NodeSemantics)) (Idx : list Z) :
  forall (OS : list string) (Off : Z) (Idx' : list Z) (OS' : list string)
         (Off' : Z),
    run_insts Semas Idx OS Off = Ok (Idx', OS', Off') ->
    Off = Z.of_nat (length OS) ->
    (1 <= length OS)%nat ->
    Z.of_nat (length OS') < 2 ^ 32 ->
    length Idx' = length Idx
    /\ forall (i : nat) (X : Z),
         Idx !! i = Some X ->
         exists Start,
           Idx' !! i = Some Start
           /\ (Start = 0 <-> X = 0)
           /\ (X <> 0 ->
               exists Sema,
                 Semas !! Z.to_nat X = Some Sema /\ block_at OS' Start Sema).
Proof.
  induction Idx as [|X Idx IH]; intros OS Off Idx' OS' Off' Hrun HOff Hpos Hlen.
  - simpl in Hrun. injection Hrun as <- <- <-.
    split; [reflexivity|]. intros i X H. rewrite lookup_nil in H. discriminate.
  - simpl in Hrun. destruct (Z.eqb_spec X 0) as [HX|HX].
    + destruct (run_insts Semas Idx OS Off) as [[[I1 O1] F1]|] eqn:Hrest;
        [|discriminate].
      simpl in Hrun. injection Hrun as <- <- <-.
      destruct (IH _ _ _ _ _ Hrest HOff Hpos Hlen) as (HlenI & Hall).
      split; [simpl; rewrite HlenI; reflexivity|].
      intros [|i] Y H; simpl in H.
      * injection H as <-. exists X. split; [reflexivity|].
        split; [tauto | contradiction].
      * apply Hall. exact H.
    + destruct (Semas !! Z.to_nat X) as [Sema|] eqn:HSema; [|discriminate].
      destruct (run_nodes Sema OS (wrap32 (Off + 1))) as [O2 F2] eqn:Hnodes.
      destruct (run_insts Semas Idx (O2 ++ [END_OF_INSTRUCTION]) F2)
        as [[[I1 O1] F1]|] eqn:Hrest; [|discriminate].
      simpl in Hrun. injection Hrun as <- <- <-.
      pose proof (run_nodes_OS Sema OS (wrap32 (Off + 1))) as HO2.
      rewrite Hnodes in HO2. simpl in HO2.
      destruct (run_insts_grows _ _ _ _ _ _ _ Hrest) as [More HMore].
      assert (Hlen2 : Z.of_nat (length (O2 ++ [END_OF_INSTRUCTION])) < 2 ^ 32).
      { rewrite HMore in Hlen. rewrite length_app in Hlen. lia. }
      assert (HF2 : F2 = Z.of_nat (length (O2 ++ [END_OF_INSTRUCTION]))).
      { pose proof (run_nodes_Offset Sema OS (wrap32 (Off + 1)) 1) as HOff2.
        rewrite Hnodes in HOff2. simpl in HOff2. rewrite <- HO2 in HOff2.
        rewrite length_app. simpl. rewrite Nat2Z.inj_add. simpl.
        rewrite length_app in Hlen2. simpl in Hlen2.
        apply HOff2; [|lia|lia].
        subst Off. apply wrap32_small.
        subst O2. rewrite length_app in Hlen2. lia. }
      destruct (IH _ _ _ _ _ Hrest HF2) as (HlenI & Hall).
      { rewrite length_app. simpl. lia. }
      { exact Hlen. }
      split; [simpl; rewrite HlenI; reflexivity|].
      intros [|i] Y H; simpl in H.
      * injection H as <-. exists Off. split; [reflexivity|].
        split; [lia|]. intros _. exists Sema. split; [exact HSema|].
        rewrite HMore. subst O2. exists OS, More.
        split; [|symmetry; exact HOff].
        unfold BlockTokens. rewrite <- !app_assoc. reflexivity.
      * apply Hall. exact H.
Qed.

(** The offset table of an arbitrary emitter, with the emitter's own test
    for "has semantics". *)
Lemma run_offset_table (E : SemanticsEmitter) (Out : Output) :
  run E = Ok Out ->
  Z.of_nat (length (Out_InstSemantics Out)) < 2 ^ 32 ->
  length (Out_OpcodeToSemaIdx Out) = length (InstIdx E)
  /\ forall (i : nat) (X : Z),
       InstIdx E !! i = Some X ->
       exists Start,
         Out_OpcodeToSemaIdx Out !! i = Some Start
         /\ (Start = 0 <-> ~ hasSemantics E i)
         /\ (hasSemantics E i ->
             exists Sema,
               InstSemas E !! Z.to_nat X = Some Sema
               /\ block_at (Out_InstSemantics Out) Start Sema
               /\ Out_InstSemantics Out !! Z.to_nat Start =
                    Some (firstOpcode Sema)).
Proof.
  unfold run. intros Hrun Hlen.
  destruct (run_insts (InstSemas E) (InstIdx E) [END_OF_INSTRUCTION] 1)
    as [[[Idx' OS'] Off']|] eqn:Hinsts; [|discriminate].
  simpl in Hrun.
  destruct (emit_Constants (SemaTarget E)) as [Constants|]; [|discriminate].
  simpl in Hrun. injection Hrun as <-. simpl in *.
  destruct (run_insts_spec _ _ _ _ _ _ _ Hinsts) as (HlenI & Hall);
    [reflexivity | simpl; lia | exact Hlen |].
  split; [exact HlenI|].
  intros i X HX. destruct (Hall i X HX) as (Start & HStart & Hzero & Hblock).
  exists Start. split; [exact HStart|]. split.
  - unfold hasSemantics. rewrite Hzero. split.
    + intros -> (Y & HY & HneY). congruence.
    + intros Hno. destruct (decide (X = 0)) as [|Hne]; [assumption|].
      exfalso. apply Hno. exists X. split; assumption.
  - intros (Y & HY & HneY). assert (Y = X) by congruence. subst Y.
    destruct (Hblock HneY) as (Sema & HSema & Hat).
    exists Sema. split; [exact HSema|]. split; [exact Hat|].
    rewrite (block_at_head _ _ _ Hat). unfold BlockTokens, firstOpcode.
    destruct Sema as [|SI Sema]; reflexivity.
Qed.

(** What [addInstSemantics] makes of "has semantics": once the dummy of slot
    0 is in place, the instruction it is called for has semantics, namely
    the ones passed, and no other instruction is touched. *)
Lemma addInstSemantics_hasSemantics (E E' : SemanticsEmitter) (i : nat)
    (Sema : list NodeSemantics) :
  addInstSemantics E i Sema = Ok E' ->
  (1 <= length (InstSemas E))%nat ->
  Z.of_nat (length (InstSemas E)) < 2 ^ 32 ->
  hasSemantics E' i
  /\ (exists X, InstIdx E' !! i = Some X
                /\ InstSemas E' !! Z.to_nat X = Some Sema)
  /\ (forall j, j <> i -> InstIdx E' !! j = InstIdx E !! j).
Proof.
  unfold addInstSemantics. intros H Hpos Hlt.
  destruct (Nat.ltb_spec i (length (InstIdx E))) as [Hi|_]; [|discriminate].
  injection H as <-. simpl.
  rewrite wrap32_small by lia.
  split; [|split].
  - exists (Z.of_nat (length (InstSemas E))).
    split; [apply list_lookup_insert_eq; exact Hi | lia].
  - exists (Z.of_nat (length (InstSemas E))).
    split; [apply list_lookup_insert_eq; exact Hi|].
    rewrite Nat2Z.id. rewrite lookup_app_r by lia.
    rewrite Nat.sub_diag. reflexivity.
  - intros j Hj. apply list_lookup_insert_ne. congruence.
Qed.

(** ** The steps of flattening *)

Section Steps.

Variable CGI : CodeGenInstruction.

Lemma TreePatternNode_rect_children (P : TreePatternNode -> Prop) :
  (forall N Ts V, P (TPLeaf N Ts V)) ->
  (forall N Ts Op Cs, Forall P Cs -> P (TPOp N Ts Op Cs)) ->
  forall TPN, P TPN.
Proof.
  intros Hleaf Hop. fix IH 1. intros [N Ts V|N Ts Op Cs].
  - apply Hleaf.
  - apply Hop. induction Cs as [|C Cs IHCs]; constructor.
    + apply IH.
    + exact IHCs.
Qed.

Lemma reach_trans (F1 F2 F3 : Flattener) :
  reach CGI F1 F2 -> reach CGI F2 F3 -> reach CGI F1 F3.
Proof.
  induction 1 as [|F F1 F2 Hp _ IH]; intros H; [exact H|].
  eapply reach_step; [exact Hp | apply IH; exact H].
Qed.

Lemma reach_prim (F F' : Flattener) :
  prim CGI F F' -> reach CGI F F'.
Proof. intros H. eapply reach_step; [exact H | apply reach_refl]. Qed.

Lemma addResOperands_tokens (First i : Z) (Ts : list SimpleValueType)
    (NS : NodeSemantics) :
  addResOperands First i Ts NS = addOperands NS (resTokens First i Ts).
Proof.
  revert i NS. induction Ts as [|T Ts IH]; intros i NS; simpl.
  - unfold addOperands. rewrite app_nil_r. destruct NS; reflexivity.
  - rewrite IH. unfold addOperands, addOperand.
    destruct (is_isVoid T); simpl; [reflexivity|].
    rewrite <- app_assoc. reflexivity.
Qed.

Lemma resTokens_isDefToken (First i : Z) (Ts : list SimpleValueType) :
  Forall isDefToken (resTokens First i Ts).
Proof.
  revert i. induction Ts as [|T Ts IH]; intros i; simpl; [constructor|].
  apply Forall_app. split; [|apply IH].
  destruct (is_isVoid T); repeat constructor. eexists. reflexivity.
Qed.

(** [addResOperand] on a parent that may be null: what a call that returns
    has done. *)
Lemma addResOperand_to_inv (F F' : Flattener) (Parent P' : option NodeSemantics)
    (Prev : NodeSemantics) :
  addResOperand_to F Parent Prev = Ok (F', P') ->
  F' = addSemantics F Prev
  /\ match Parent with
     | Some P => P' = Some (snd (addResOperand F P Prev))
     | None => P' = None /\ forallb is_isVoid (Types Prev) = true
     end.
Proof.
  unfold addResOperand_to. destruct Parent as [P|].
  - simpl. intros [= <- <-]. split; reflexivity.
  - destruct (forallb is_isVoid (Types Prev)); [|discriminate].
    intros [= <- <-]. repeat split.
Qed.

(** What a call of [flatten] with a parent does to the parent: it keeps its
    opcode and types and gives it tokens of results. *)
Lemma flattenOperand_parent (TPN : TreePatternNode)
    (P : NodeSemantics) (OpInfo : OperandInfo)
    (F F' : Flattener) (P' : option NodeSemantics) :
  flattenOperand CGI TPN (Some P) OpInfo F = Ok (F', P') ->
  exists Toks, P' = Some (addOperands P Toks) /\ Forall isDefToken Toks.
Proof.
  unfold flattenOperand.
  destruct (asRegisterClass (Rec OpInfo)) as [OpRec|]; [|discriminate].
  simpl.
  assert (Hfinish : forall F0 Op,
    addResOperand_to F0 (Some P) Op = Ok (F', P') ->
    exists Toks, P' = Some (addOperands P Toks) /\ Forall isDefToken Toks).
  { intros F0 Op H. simpl in H. injection H as <- <-.
    eexists. rewrite addResOperands_tokens. split; [reflexivity|].
    apply resTokens_isDefToken. }
  destruct (isSubClassOf OpRec "Operand").
  - destruct (String.eqb (OperandType OpInfo) "OPERAND_IMMEDIATE").
    + intros H. exact (Hfinish _ _ H).
    + destruct (OperandByName F !! Name OpInfo) as [DefNo|].
      * simpl. intros [= <- <-]. exists [utostr DefNo].
        split; [reflexivity|].
        repeat constructor. eexists. reflexivity.
      * intros H. exact (Hfinish _ _ H).
  - destruct (isSubClassOf OpRec "RegisterClass"); [|discriminate].
    intros H. exact (Hfinish _ _ H).
Qed.

Lemma flattenLeaf_parent (TPN : TreePatternNode)
    (P : NodeSemantics) (F F' : Flattener)
    (P' : option NodeSemantics) :
  flattenLeaf CGI TPN (Some P) F = Ok (F', P') ->
  exists Toks, P' = Some (addOperands P Toks) /\ Forall isDefToken Toks.
Proof.
  unfold flattenLeaf.
  destruct (getLeafValue TPN) as [[Value|OpRec|]|]; simpl; try discriminate.
  - destruct (intern Value (Target F)) as [Idx T]. simpl.
    intros [= <- <-]. eexists.
    rewrite addResOperands_tokens. split; [reflexivity|].
    apply resTokens_isDefToken.
  - destruct (isSubClassOf OpRec "Register"); [|discriminate]. simpl.
    intros [= <- <-]. eexists.
    rewrite addResOperands_tokens. split; [reflexivity|].
    apply resTokens_isDefToken.
Qed.

Lemma flatten_parent (TPN : TreePatternNode)
    (P : NodeSemantics) (F F' : Flattener) (P' : option NodeSemantics) :
  flatten CGI TPN (Some P) F = Ok (F', P') ->
  exists Toks, P' = Some (addOperands P Toks) /\ Forall isDefToken Toks.
Proof.
  intros H.
  destruct TPN as [N Ts V|N Ts Op Cs]; simpl in H.
  - destruct (getNamedOperand CGI N) as [OpInfo|].
    + exact (flattenOperand_parent _ _ _ _ _ _ H).
    + exact (flattenLeaf_parent _ _ _ _ _ H).
  - destruct (getNamedOperand CGI N) as [OpInfo|].
    + exact (flattenOperand_parent _ _ _ _ _ _ H).
    + destruct (String.eqb (rec_Name Op) "set"); [discriminate|].
      destruct (String.eqb (rec_Name Op) "implicit"); [discriminate|].
      bind_ok H as [F1 NS].
      simpl in H. injection H as <- <-.
      eexists. rewrite addResOperands_tokens. split; [reflexivity|].
      apply resTokens_isDefToken.
Qed.



Lemma addOperands_nil (NS : NodeSemantics) : addOperands NS [] = NS.
Proof. unfold addOperands. rewrite app_nil_r. destruct NS; reflexivity. Qed.

Lemma addOperands_app (NS : NodeSemantics) (A B : list string) :
  addOperands (addOperands NS A) B = addOperands NS (A ++ B).
Proof. unfold addOperands. simpl. rewrite app_assoc. reflexivity. Qed.

(** The types that [setNSTypeFromNode] gives to a fresh node. *)
Lemma setNSTypeFromNode_emptyNS (TPN : TreePatternNode) :
  setNSTypeFromNode emptyNS TPN =
    mkNodeSemantics EmptyString
      (if getNumTypes TPN =? 0 then [isVoid] else getExtTypes TPN) [].
Proof. unfold setNSTypeFromNode. destruct (_ =? _); reflexivity. Qed.

Lemma flattenOperand_reach (N : string)
    (TPN : TreePatternNode) (Parent : option NodeSemantics)
    (OpInfo : OperandInfo) (F F' : Flattener) (P' : option NodeSemantics) :
  getNamedOperand CGI N = Some OpInfo ->
  flattenOperand CGI TPN Parent OpInfo F = Ok (F', P') ->
  reach CGI F F'.
Proof.
  intros HN. unfold flattenOperand.
  destruct (asRegisterClass (Rec OpInfo)) as [OpRec|] eqn:ER; [|discriminate].
  simpl. rewrite setNSTypeFromNode_emptyNS.
  destruct (isSubClassOf OpRec "Operand").
  - destruct (String.eqb (OperandType OpInfo) "OPERAND_IMMEDIATE").
    + intros H. apply addResOperand_to_inv in H as [-> _].
      apply reach_prim. apply prim_node. left. discriminate.
    + destruct (OperandByName F !! Name OpInfo) as [DefNo|] eqn:EN.
      * destruct Parent as [P|]; [|discriminate]. simpl. intros [= <- <-].
        apply reach_refl.
      * intros H. apply addResOperand_to_inv in H as [-> _].
        apply reach_prim.
        apply (prim_custom CGI N OpInfo OpRec _ F HN ER EN).
  - destruct (isSubClassOf OpRec "RegisterClass"); [|discriminate].
    intros H. apply addResOperand_to_inv in H as [-> _].
    apply reach_prim. apply prim_node. left. discriminate.
Qed.

Lemma flattenLeaf_reach (TPN : TreePatternNode)
    (Parent : option NodeSemantics) (F F' : Flattener)
    (P' : option NodeSemantics) :
  flattenLeaf CGI TPN Parent F = Ok (F', P') -> reach CGI F F'.
Proof.
  unfold flattenLeaf.
  destruct (getLeafValue TPN) as [[Value|OpRec|]|]; simpl; try discriminate.
  - destruct (intern Value (Target F)) as [Idx T] eqn:EI.
    intros H. apply addResOperand_to_inv in H as [-> _].
    eapply reach_step.
    + apply (prim_intern CGI F Value).
    + rewrite EI. apply reach_prim. apply prim_node. left.
      rewrite setNSTypeFromNode_emptyNS. discriminate.
  - destruct (isSubClassOf OpRec "Register"); [|discriminate].
    intros H. apply addResOperand_to_inv in H as [-> _].
    apply reach_prim. apply prim_node. left.
    rewrite setNSTypeFromNode_emptyNS. discriminate.
Qed.

Lemma flattenSet_def_reach 
    (Children : list TreePatternNode) (First : Z) (i : nat)
    (F F' : Flattener) :
  flattenSet_def CGI Children First i F = Ok F' -> reach CGI F F'.
Proof.
  unfold flattenSet_def.
  destruct (getChild Children i) as [Child|]; [|discriminate]. simpl.
  destruct (getLeafValue Child) as [V|]; [|discriminate]. simpl.
  destruct (cast_DefInit V) as [OpRec|]; [|discriminate]. simpl.
  destruct (asRegisterClass OpRec) as [OpRec'|]; [|discriminate]. simpl.
  destruct (isSubClassOf OpRec' "RegisterClass").
  - destruct (getNamedOperand CGI (getName Child)) as [OpInfo|];
      [|discriminate].
    simpl. intros [= <-]. apply reach_prim. apply prim_node. left.
    discriminate.
  - destruct (isSubClassOf OpRec' "Register"); simpl; intros [= <-];
      apply reach_prim; apply prim_node; left; discriminate.
Qed.

Lemma flattenSet_drop_reach 
    (Children : list TreePatternNode) (i : nat) (F F' : Flattener) :
  flattenSet_drop Children i F = Ok F' -> reach CGI F F'.
Proof.
  unfold flattenSet_drop.
  destruct (getChild Children i) as [Child|]; [|discriminate]. simpl.
  destruct (isLeaf Child); [|discriminate].
  destruct (getLeafValue Child) as [V|]; [|discriminate]. simpl.
  destruct (cast_DefInit V) as [OpRec|]; [|discriminate]. simpl.
  destruct (isSubClassOf OpRec "Register"); [|discriminate].
  intros [= <-]. apply reach_prim. apply prim_drop.
Qed.

Lemma flattenSet_defs_reach 
    (Children : list TreePatternNode) (First : Z) (n : nat) :
  forall (i : nat) (F F' : Flattener),
    flattenSet_defs CGI Children First i n F = Ok F' -> reach CGI F F'.
Proof.
  induction n as [|n IH]; intros i F F' H; simpl in H.
  - injection H as <-. apply reach_refl.
  - destruct (flattenSet_def CGI Children First i F) as [F1|] eqn:E;
      [|discriminate].
    simpl in H. eapply reach_trans.
    + eapply flattenSet_def_reach. exact E.
    + eapply IH. exact H.
Qed.

Lemma flattenSet_drops_reach 
    (Children : list TreePatternNode) (n : nat) :
  forall (i : nat) (F F' : Flattener),
    flattenSet_drops Children i n F = Ok F' -> reach CGI F F'.
Proof.
  induction n as [|n IH]; intros i F F' H; simpl in H.
  - injection H as <-. apply reach_refl.
  - destruct (flattenSet_drop Children i F) as [F1|] eqn:E; [|discriminate].
    simpl in H. eapply reach_trans.
    + eapply flattenSet_drop_reach. exact E.
    + eapply IH. exact H.
Qed.

Lemma flattenImplicit_loop_Opcode 
    (Children : list TreePatternNode) :
  forall NS NS',
    flattenImplicit_loop CGI Children NS = Ok NS' -> Opcode NS' = Opcode NS.
Proof.
  induction Children as [|C Cs IH]; intros NS NS' H; simpl in H.
  - injection H as <-. reflexivity.
  - destruct (getLeafValue C) as [V|]; [|discriminate]. simpl in H.
    rewrite (IH _ _ H). reflexivity.
Qed.

Lemma flatten_children_reach 
    (Children : list TreePatternNode) :
  Forall (flatten_reaches CGI) Children ->
  forall NS F F' NS',
    flatten_children (flatten CGI) Children NS F = Ok (F', NS') ->
    reach CGI F F'
    /\ exists Toks, NS' = addOperands NS Toks /\ Forall isDefToken Toks.
Proof.
  induction 1 as [|C Cs HC _ IH]; intros NS F F' NS' H; simpl in H.
  - injection H as <- <-. split; [apply reach_refl|].
    exists []. rewrite addOperands_nil. split; [reflexivity|constructor].
  - destruct (flatten CGI C (Some NS) F) as [[F1 P1]|] eqn:E; [|discriminate].
    simpl in H.
    destruct (flatten_parent _ _ _ _ _ E) as (Toks1 & -> & HT1).
    simpl in H. destruct (IH _ _ _ _ H) as (Hreach & Toks2 & -> & HT2).
    split.
    + eapply reach_trans; [eapply HC; exact E | exact Hreach].
    + exists (Toks1 ++ Toks2). rewrite addOperands_app.
      split; [reflexivity|]. apply Forall_app. split; assumption.
Qed.

Lemma with_last_elem {A B : Type} (f : A -> result B) (l : list A) (b : B) :
  with_last f l = Ok b -> exists x, last l = Some x /\ x ∈ l /\ f x = Ok b.
Proof.
  rewrite with_last_last. destruct (last l) as [x|] eqn:E; [|discriminate].
  intros H. exists x. split; [reflexivity|]. split; [|exact H].
  apply last_Some in E as [l' ->]. apply elem_of_app. right.
  apply list_elem_of_singleton. reflexivity.
Qed.

(** Every successful [flatten] is a sequence of steps. *)
Lemma flatten_reach (TPN : TreePatternNode) :
  flatten_reaches CGI TPN.
Proof.
  induction TPN as [N Ts V|N Ts Op Cs IH] using TreePatternNode_rect_children;
    intros Parent F F' P' H; simpl in H.
  - destruct (getNamedOperand CGI N) as [OpInfo|] eqn:EN.
    + eapply flattenOperand_reach; eassumption.
    + eapply flattenLeaf_reach. exact H.
  - destruct (getNamedOperand CGI N) as [OpInfo|] eqn:EN.
    { eapply flattenOperand_reach; eassumption. }
    destruct (String.eqb (rec_Name Op) "set").
    { destruct Parent as [P|]; [discriminate|].
      fold (flatten CGI) in H.
      destruct (flattenSet CGI (flatten CGI) (TPOp N Ts Op Cs) Cs F)
        as [F1|] eqn:ES; [|discriminate].
      simpl in H. injection H as <- <-.
      unfold flattenSet in ES.
      apply with_last_elem in ES as (LastChild & _ & Hin & ES).
      unfold flattenSet_body in ES.
      destruct (negb _).
      { injection ES as <-. apply reach_prim. apply prim_diag. }
      destruct (flatten CGI LastChild (Some emptyNS) F) as [[F2 P2]|] eqn:EL;
        [|discriminate].
      simpl in ES.
      rewrite Forall_forall in IH. specialize (IH _ Hin _ _ _ _ EL).
      bind_ok ES as F3 eqn:ED.
      simpl in ES. apply flattenSet_defs_reach in ED.
      destruct (_ <=? _)%nat; [|discriminate].
      apply flattenSet_drops_reach in ES.
      eapply reach_trans; [exact IH|]. eapply reach_trans; eassumption. }
    fold (flatten CGI) in H.
    destruct (String.eqb (rec_Name Op) "implicit").
    { destruct Parent as [P|]; [discriminate|].
      destruct (flattenImplicit CGI Cs
                  (setNSTypeFromNode emptyNS (TPOp N Ts Op Cs)))
        as [NS|] eqn:EI; [|discriminate].
      simpl in H. injection H as <- <-.
      apply reach_prim. apply prim_node. left.
      unfold flattenImplicit in EI.
      rewrite (flattenImplicit_loop_Opcode _ _ _ EI). discriminate. }
    destruct (isSubClassOf Op "SDNode"); [|discriminate].
    bind_ok H as [F1 NS] eqn:ESD.
    unfold flattenSDNode in ESD.
    destruct (getValueAsString_Opcode Op) as [Opc|]; [|discriminate].
    simpl in ESD.
    bind_ok ESD as NS0 eqn:ENS.
    simpl in ESD.
    destruct (flatten_children_reach Cs IH _ _ _ _ ESD)
      as (Hreach & Toks & -> & HToks).
    assert (HOps : Forall isDefToken (Operands (addOperands NS0 Toks))).
    { assert (HNS0 : Operands NS0 = []).
      { destruct (SDNodeEquiv (Target F) !! rec_ID Op) as [EquivNode|].
        - destruct (getSDNodeInfo (Target F) EquivNode) as [SDNI|];
            [|discriminate].
          simpl in ENS. destruct (pop_back_n _ _) as [Ts0|]; [|discriminate].
          simpl in ENS. injection ENS as <-. simpl.
          unfold setNSTypeFromNode. destruct (_ =? _); reflexivity.
        - injection ENS as <-. simpl.
          unfold setNSTypeFromNode. destruct (_ =? _); reflexivity. }
      simpl. rewrite HNS0. exact HToks. }
    simpl in H.
    eapply reach_trans; [exact Hreach|]. apply reach_prim.
    destruct Parent as [P|]; injection H as <- <-;
      apply prim_node; right; exact HOps.
Qed.


(** An invariant of the steps is an invariant of flattening. *)
Lemma reach_invariant (Inv : Flattener -> Prop) :
  (forall F F', prim CGI F F' -> Inv F -> Inv F') ->
  forall F F', reach CGI F F' -> Inv F -> Inv F'.
Proof.
  intros Hstep F F' H. induction H as [|F F1 F2 Hp _ IH]; intros HI.
  - exact HI.
  - apply IH. eapply Hstep; eassumption.
Qed.

End Steps.

(** ** The tail of [IMPLICIT] nodes (C8) *)

Lemma ImplicitRegSet_insert_cases (Regs : ImplicitRegSet) (R : TGRecord) :
  (ImplicitRegSet_insert Regs R = Regs /\ rec_ID R ∈ map rec_ID Regs)
  \/ (ImplicitRegSet_insert Regs R = Regs ++ [R]
      /\ rec_ID R ∉ map rec_ID Regs).
Proof.
  unfold ImplicitRegSet_insert.
  destruct (existsb (same_record R) Regs) eqn:E.
  - left. split; [reflexivity|].
    apply existsb_exists in E as (R' & Hin & Hsame).
    apply Z.eqb_eq in Hsame. rewrite Hsame.
    apply list_elem_of_fmap. exists R'. split; [reflexivity|].
    apply list_elem_of_In. exact Hin.
  - right. split; [reflexivity|]. intros Hin.
    apply list_elem_of_fmap in Hin as (R' & Heq & Hin).
    assert (existsb (same_record R) Regs = true); [|congruence].
    apply existsb_exists. exists R'. split.
    + apply list_elem_of_In. exact Hin.
    + unfold same_record. apply Z.eqb_eq. exact Heq.
Qed.




Lemma push_back_tail (CGI : CodeGenInstruction) (Regs : list TGRecord) :
  forall F,
    let F' := fold_left (fun F IRI => push_back F (ImplicitNS CGI IRI)) Regs F in
    Semantics F' = Semantics F ++ map (ImplicitNS CGI) Regs
    /\ EliminatedImplicitRegs F' = EliminatedImplicitRegs F
    /\ reach CGI F F'.
Proof.
  induction Regs as [|R Regs IH]; intros F; simpl.
  - rewrite app_nil_r. repeat split. apply reach_refl.
  - destruct (IH (push_back F (ImplicitNS CGI R))) as (HS & HR & Hreach).
    simpl in *. rewrite HS, HR. rewrite <- app_assoc. repeat split.
    eapply reach_step; [|exact Hreach].
    apply (prim_node CGI F (ImplicitNS CGI R)). left. discriminate.
Qed.

Lemma flatten_tree_reach (CGI : CodeGenInstruction) (TPN : TreePatternNode)
    (F F' : Flattener) :
  flatten_tree CGI TPN F = Ok F' -> reach CGI F F'.
Proof.
  unfold flatten_tree.
  destruct (flatten CGI TPN None F) as [[F1 P1]|] eqn:E; [|discriminate].
  simpl. intros [= <-].
  eapply reach_trans; [eapply flatten_reach; exact E|].
  apply push_back_tail.
Qed.

Lemma flatten_trees_reach (CGI : CodeGenInstruction)
    (Trees : list TreePatternNode) :
  forall F F', flatten_trees CGI Trees F = Ok F' -> reach CGI F F'.
Proof.
  induction Trees as [|T Trees IH]; intros F F' H; simpl in H.
  - injection H as <-. apply reach_refl.
  - destruct (flatten_tree CGI T F) as [F1|] eqn:E; [|discriminate].
    simpl in H. eapply reach_trans; [eapply flatten_tree_reach; exact E|].
    apply IH. exact H.
Qed.







(** ** Node equivalences (C4) *)

Lemma pop_back_n_spec {A : Type} (e : Z) (l l' : list A) :
  0 <= e -> pop_back_n e l = Ok l' ->
  exists Dropped, l = l' ++ Dropped /\ Z.of_nat (length Dropped) = e.
Proof.
  unfold pop_back_n. intros He.
  destruct (Z.leb_spec e (Z.of_nat (length l))) as [Hle|_]; [|discriminate].
  intros [= <-]. exists (drop (length l - Z.to_nat e) l).
  split; [symmetry; apply take_drop|].
  rewrite length_drop. lia.
Qed.

Lemma wrap32_nonneg (z : Z) : 0 <= wrap32 z.
Proof. unfold wrap32. apply Z.mod_pos_bound. reflexivity. Qed.

Lemma flatten_children_frame (CGI : CodeGenInstruction)
    (Children : list TreePatternNode) :
  forall NS F F' NS',
    flatten_children (flatten CGI) Children NS F = Ok (F', NS') ->
    Opcode NS' = Opcode NS /\ Types NS' = Types NS.
Proof.
  induction Children as [|C Cs IH]; intros NS F F' NS' H; simpl in H.
  - injection H as <- <-. split; reflexivity.
  - destruct (flatten CGI C (Some NS) F) as [[F1 P1]|] eqn:E; [|discriminate].
    simpl in H.
    destruct (flatten_parent _ _ _ _ _ _ E) as (Toks1 & -> & _).
    simpl in H. destruct (IH _ _ _ _ H) as [-> ->]. split; reflexivity.
Qed.

(** What [flattenSDNode] makes of a node whose operator has an equivalent. *)
Lemma flattenSDNode_equiv (CGI : CodeGenInstruction) (NumTypes : Z)
    (Operator : TGRecord) (Children : list TreePatternNode)
    (NS NS' : NodeSemantics) (F F' : Flattener) (EquivNode : TGRecord)
    (SDNI : SDNodeInfo) :
  SDNodeEquiv (Target F) !! rec_ID Operator = Some EquivNode ->
  getSDNodeInfo (Target F) EquivNode = Ok SDNI ->
  flattenSDNode (flatten CGI) NumTypes Operator Children NS F = Ok (F', NS') ->
  Opcode NS' = EnumName SDNI
  /\ exists Dropped,
       Types NS = Types NS' ++ Dropped
       /\ Z.of_nat (length Dropped) = wrap32 (NumTypes - NumResults SDNI).
Proof.
  intros HE HI. unfold flattenSDNode.
  destruct (getValueAsString_Opcode Operator) as [Opc|]; [|discriminate].
  simpl. rewrite HE, HI. simpl.
  destruct (pop_back_n _ _) as [Ts0|] eqn:EP; [|discriminate].
  simpl. intros H.
  destruct (flatten_children_frame _ _ _ _ _ _ H) as [-> ->]. simpl.
  split; [reflexivity|].
  apply pop_back_n_spec in EP; [exact EP | apply wrap32_nonneg].
Qed.

Lemma flattenSet_drops_spec (Children : list TreePatternNode) (n : nat) :
  forall (i : nat) (F F' : Flattener),
    flattenSet_drops Children i n F = Ok F' ->
    (forall R, rec_ID R ∈ map rec_ID (EliminatedImplicitRegs F) ->
               rec_ID R ∈ map rec_ID (EliminatedImplicitRegs F'))
    /\ forall j : nat,
         (i <= j < i + n)%nat ->
         exists N Ts R,
           Children !! j = Some (TPLeaf N Ts (DefInit R))
           /\ isSubClassOf R "Register" = true
           /\ rec_ID R ∈ map rec_ID (EliminatedImplicitRegs F').
Proof.
  induction n as [|n IH]; intros i F F' H; simpl in H.
  - injection H as <-. split; [tauto|]. intros j Hj. lia.
  - destruct (flattenSet_drop Children i F) as [F1|] eqn:E; [|discriminate].
    simpl in H. destruct (IH _ _ _ H) as (Hmono & Hall).
    unfold flattenSet_drop, getChild in E.
    destruct (Children !! i) as [[N Ts V|]|] eqn:EC; try discriminate.
    simpl in E. destruct V as [|R|]; try discriminate. simpl in E.
    destruct (isSubClassOf R "Register") eqn:ER; [|discriminate].
    injection E as <-. simpl in *.
    assert (Hin : rec_ID R ∈ map rec_ID
                    (ImplicitRegSet_insert (EliminatedImplicitRegs F) R)).
    { destruct (ImplicitRegSet_insert_cases (EliminatedImplicitRegs F) R)
        as [[-> Hin]|[-> _]]; [exact Hin|].
      rewrite map_app. apply elem_of_app. right. simpl.
      apply list_elem_of_singleton. reflexivity. }
    split.
    + intros R' HR'. apply Hmono.
      destruct (ImplicitRegSet_insert_cases (EliminatedImplicitRegs F) R)
        as [[-> _]|[-> _]]; [exact HR'|].
      rewrite map_app. apply elem_of_app. left. exact HR'.
    + intros j Hj. destruct (decide (j = i)) as [->|Hne].
      * exists N, Ts, R. split; [exact EC|]. split; [exact ER|].
        apply Hmono. exact Hin.
      * apply Hall. lia.
Qed.

(** C4. (1) When the operator of an SDNode has an equivalent in
    [SDNodeEquiv], the node that [flatten] appends for it carries the enum
    name of the equivalent as its opcode, and its types are the types that
    [setNSTypeFromNode] gave it without their trailing
    [numTypes - numResults] entries (the difference of the two [unsigned]
    numbers, which is the plain difference whenever the equivalent has at
    most as many results as the node has types).
    (2) When a [set] passes its arity check and its last child, flattened,
    hands [NumDefs] results to the set, every destination from index
    [NumDefs] up to the last one is a leaf whose value is a [Register]
    record, and that register is in [EliminatedImplicitRegs] afterwards. *)
Theorem C4_equivalence (CGI : CodeGenInstruction) :
  (forall N Ts Operator Children Parent F F' P' EquivNode SDNI,
     let TPN := TPOp N Ts Operator Children in
     getNamedOperand CGI N = None ->
     rec_Name Operator <> "set"%string ->
     rec_Name Operator <> "implicit"%string ->
     SDNodeEquiv (Target F) !! rec_ID Operator = Some EquivNode ->
     getSDNodeInfo (Target F) EquivNode = Ok SDNI ->
     flatten CGI TPN Parent F = Ok (F', P') ->
     exists F1 NS Dropped,
       flattenSDNode (flatten CGI) (getNumTypes TPN) Operator Children
         (setNSTypeFromNode emptyNS TPN) F = Ok (F1, NS)
       /\ Semantics F' = Semantics F1 ++ [NS]
       /\ Opcode NS = EnumName SDNI
       /\ (if getNumTypes TPN =? 0 then [isVoid] else Ts) = Types NS ++ Dropped
       /\ Z.of_nat (length Dropped) =
            wrap32 (getNumTypes TPN - NumResults SDNI)
       /\ (0 <= NumResults SDNI <= getNumTypes TPN ->
           getNumTypes TPN < 2 ^ 32 ->
           Z.of_nat (length Dropped) = getNumTypes TPN - NumResults SDNI))
  /\ (forall TPN Children LastChild F F' F1 DummyNS,
        last Children = Some LastChild ->
        Z.of_nat (length Children - 1) = getNumTypes LastChild ->
        flatten CGI LastChild (Some emptyNS) F = Ok (F1, Some DummyNS) ->
        flattenSet CGI (flatten CGI) TPN Children F = Ok F' ->
        forall i : nat,
          (length (Operands DummyNS) <= i < length Children - 1)%nat ->
          exists N Ts R,
            Children !! i = Some (TPLeaf N Ts (DefInit R))
            /\ isSubClassOf R "Register" = true
            /\ rec_ID R ∈ map rec_ID (EliminatedImplicitRegs F')).
Proof.
  split.
  - intros N Ts Operator Children Parent F F' P' EquivNode SDNI TPN
      HN Hset Himp HE HI H.
    subst TPN. simpl in H. rewrite HN in H.
    apply String.eqb_neq in Hset, Himp. rewrite Hset, Himp in H.
    fold (flatten CGI) in H.
    destruct (isSubClassOf Operator "SDNode"); [|discriminate].
    destruct (flattenSDNode (flatten CGI) (getNumTypes (TPOp N Ts Operator Children))
                Operator Children
                (setNSTypeFromNode emptyNS (TPOp N Ts Operator Children)) F)
      as [[F1 NS]|] eqn:ESD; [|discriminate].
    destruct (flattenSDNode_equiv _ _ _ _ _ _ _ _ _ _ HE HI ESD)
      as (HOpc & Dropped & HTs & HLen).
    exists F1, NS, Dropped. split; [reflexivity|].
    split.
    { simpl in H. destruct Parent as [P|]; injection H as <- <-; reflexivity. }
    split; [exact HOpc|]. split.
    { rewrite <- HTs. rewrite setNSTypeFromNode_emptyNS. reflexivity. }
    split; [exact HLen|].
    intros Hres Hlt. rewrite HLen. apply wrap32_small. lia.
  - intros TPN Children LastChild F F' F1 DummyNS Hlast Harity HL HS i Hi.
    unfold flattenSet in HS. rewrite with_last_last, Hlast in HS.
    unfold flattenSet_body in HS.
    destruct (Z.eqb_spec (Z.of_nat (length Children - 1))
                (getNumTypes LastChild)) as [_|Hne]; [|contradiction].
    simpl in HS. rewrite HL in HS. simpl in HS.
    destruct (flattenSet_defs CGI Children _ 0 (length (Operands DummyNS)) F1)
      as [F2|]; [|discriminate].
    simpl in HS.
    destruct (Nat.leb_spec (length (Operands DummyNS)) (length Children - 1))
      as [Hle|_]; [|discriminate].
    apply flattenSet_drops_spec in HS as [_ Hall].
    apply Hall. lia.
Qed.

Lemma C4_equivalence_witness :
  (exists F1 NS Dropped F,
     F = mkFlattener Sample.TEquiv [] [] ∅ 0 []
     /\ flattenSDNode (flatten Sample.CGI) 2 Sample.X86add_flag
          [Sample.leaf "a" Sample.GPR; Sample.leaf "b" Sample.GPR]
          (setNSTypeFromNode emptyNS
             (TPOp "" [i32; i32] Sample.X86add_flag
                [Sample.leaf "a" Sample.GPR; Sample.leaf "b" Sample.GPR])) F
        = Ok (F1, NS)
     /\ Opcode NS = "ISD::ADD"%string
     /\ [i32; i32] = Types NS ++ Dropped
     /\ Z.of_nat (length Dropped) = 2 - 1)
  /\ (exists R,
        [Sample.leaf "dst" Sample.GPR; Sample.leaf "" Sample.EFLAGS;
         TPOp "" [i32; i32] Sample.X86add_flag
           [Sample.leaf "a" Sample.GPR; Sample.leaf "b" Sample.GPR]]
          !! 1%nat = Some (TPLeaf "" [i32] (DefInit R))
        /\ isSubClassOf R "Register" = true
        /\ R = Sample.EFLAGS).
Proof.
  pose (F := mkFlattener Sample.TEquiv [] [] ∅ 0 []).
  pose (Last := TPOp "" [i32; i32] Sample.X86add_flag
                  [Sample.leaf "a" Sample.GPR; Sample.leaf "b" Sample.GPR]).
  pose (Children := [Sample.leaf "dst" Sample.GPR;
                     Sample.leaf "" Sample.EFLAGS; Last]).
  destruct (C4_equivalence Sample.CGI) as [H1 H2].
  split.
  - assert (HF : exists F' P', flatten Sample.CGI Last (Some emptyNS) F
                               = Ok (F', P')).
    { eexists. eexists. vm_compute. reflexivity. }
    destruct HF as (F' & P' & HF).
    destruct (H1 "" [i32; i32] Sample.X86add_flag
                [Sample.leaf "a" Sample.GPR; Sample.leaf "b" Sample.GPR]
                (Some emptyNS) F F' P' Sample.add (mkSDNodeInfo "ISD::ADD" 1))
      as (F1 & NS & Dropped & HSD & _ & HOpc & HTs & _ & HLen);
      [reflexivity | discriminate | discriminate | reflexivity | reflexivity
      | exact HF |].
    exists F1, NS, Dropped, F. split; [reflexivity|].
    split; [exact HSD|]. split; [exact HOpc|]. split; [exact HTs|].
    apply HLen; [vm_compute; split; discriminate | reflexivity].
  - assert (HL : exists F1 DummyNS F',
              flatten Sample.CGI Last (Some emptyNS) F = Ok (F1, Some DummyNS)
              /\ length (Operands DummyNS) = 1%nat
              /\ flattenSet Sample.CGI (flatten Sample.CGI) Sample.AddFlag
                   Children F = Ok F').
    { eexists. eexists. eexists. repeat split; vm_compute; reflexivity. }
    destruct HL as (F1 & DummyNS & F' & HL & HD & HS).
    destruct (H2 Sample.AddFlag Children Last F F' F1 DummyNS) with (i := 1%nat)
      as (N & Ts & R & HC & HR & Hin);
      [reflexivity | reflexivity | exact HL | exact HS | rewrite HD; simpl; lia |].
    exists R. simpl in HC. injection HC as <- <- <-.
    repeat split.
Defined.

(** ** Decimal tokens *)

Lemma digit_of_ascii (k : Z) :
  0 <= k < 10 ->
  digit_of (Ascii.ascii_of_nat (48 + Z.to_nat k)) = k.
Proof.
  intros Hk. unfold digit_of.
  rewrite Ascii.nat_ascii_embedding by lia. lia.
Qed.

Lemma parse_utostr_loop (fuel : nat) :
  forall (X : Z) (Buffer : string),
    0 <= X < 10 ^ Z.of_nat fuel ->
    parse_decimal 0 (utostr_loop fuel X Buffer) = parse_decimal X Buffer.
Proof.
  induction fuel as [|fuel IH]; intros X Buffer HX.
  - simpl in *. assert (X = 0) by lia. subst X. reflexivity.
  - cbn [utostr_loop]. destruct (Z.eqb_spec X 0) as [->|Hne]; [reflexivity|].
    rewrite IH.
    + cbn [parse_decimal]. rewrite digit_of_ascii.
      * f_equal. pose proof (Z.div_mod X 10). lia.
      * apply Z.mod_pos_bound. lia.
    + rewrite Nat2Z.inj_succ, Z.pow_succ_r in HX by lia.
      split; [apply Z.div_pos; lia|].
      apply Z.div_lt_upper_bound; lia.
Qed.

(** [utostr] can be read back, so it maps different numbers to different
    tokens. *)
Lemma parse_utostr (X : Z) :
  0 <= X < 2 ^ 64 -> parse_decimal 0 (utostr X) = X.
Proof.
  intros HX. unfold utostr. destruct (Z.eqb_spec X 0) as [->|Hne].
  - reflexivity.
  - rewrite parse_utostr_loop; [reflexivity|].
    change (10 ^ Z.of_nat 21) with 1000000000000000000000.
    change (2 ^ 64) with 18446744073709551616 in HX. lia.
Qed.

Lemma utostr_inj (X Y : Z) :
  0 <= X < 2 ^ 64 -> 0 <= Y < 2 ^ 64 -> utostr X = utostr Y -> X = Y.
Proof.
  intros HX HY H.
  rewrite <- (parse_utostr X HX), <- (parse_utostr Y HY), H. reflexivity.
Qed.





(** ** Named operands (C1) *)










(** ** The numbering of result tokens (C2) *)

(** For a child with a single type entry the tokens are the [DefNo]s that
    the child acquires. *)
Lemma addResOperand_single_type (F : Flattener) (NS Prev : NodeSemantics)
    (T : SimpleValueType) :
  Types Prev = [T] -> 0 <= CurDefNo F < 2 ^ 32 ->
  tokens_as_specified F NS Prev.
Proof.
  intros HT HD. unfold tokens_as_specified, addResOperand. simpl.
  rewrite HT. simpl. rewrite Z.sub_0_r, Z.add_0_r.
  rewrite !(wrap32_small (CurDefNo F) HD).
  destruct T; simpl; rewrite ?app_nil_r; reflexivity.
Qed.

(** The formula of [addResOperand] hits the counter exactly at the last
    position. *)
Lemma FirstDefNo_hits (D n i : Z) :
  0 <= D < 2 ^ 32 -> 0 <= i <= n - 1 -> n < 2 ^ 31 ->
  wrap32 (wrap32 (D - (n - 1)) + i) = D <-> i = n - 1.
Proof.
  intros HD Hi Hn. unfold wrap32. rewrite Zplus_mod_idemp_l.
  change (2 ^ 32) with 4294967296 in *.
  change (2 ^ 31) with 2147483648 in *.
  split.
  - intros H. destruct (Z_lt_le_dec (D - (n - 1) + i) 0) as [Hneg|Hpos].
    + assert (Hm : (D - (n - 1) + i) mod 4294967296
                   = D - (n - 1) + i + 4294967296).
      { symmetry. apply (Zmod_unique _ _ (-1)); lia. }
      rewrite Hm in H. lia.
    + rewrite Z.mod_small in H by lia. lia.
  - intros ->. replace (D - (n - 1) + (n - 1)) with D by lia.
    apply Z.mod_small. lia.
Qed.

Lemma wrap32_lt64 (z : Z) : 0 <= wrap32 z < 2 ^ 64.
Proof.
  unfold wrap32.
  pose proof (Z.mod_pos_bound z (2 ^ 32) ltac:(reflexivity)) as Hb.
  change (2 ^ 32) with 4294967296 in *.
  change (2 ^ 64) with 18446744073709551616. lia.
Qed.

Lemma removelast_cons_cons {A : Type} (x y : A) (l : list A) :
  removelast (x :: y :: l) = x :: removelast (y :: l).
Proof. reflexivity. Qed.

Lemma resTokens_specified (D n : Z) (Ts : list SimpleValueType) :
  0 <= D < 2 ^ 32 -> n < 2 ^ 31 ->
  forall i : Z,
    0 <= i -> i + Z.of_nat (length Ts) = n ->
    resTokens (wrap32 (D - (n - 1))) i Ts = map utostr (acquiredDefNos D Ts)
    <-> Forall (fun T => T = isVoid) (removelast Ts).
Proof.
  intros HD Hn. induction Ts as [|T Ts IH]; intros i Hi Hlen.
  - simpl. split; [constructor | reflexivity].
  - simpl length in Hlen. rewrite Nat2Z.inj_succ in Hlen.
    destruct (is_isVoid T) eqn:EV.
    + assert (HT : T = isVoid) by (destruct T; (reflexivity || discriminate)).
      cbn [resTokens acquiredDefNos]. rewrite EV. simpl app.
      rewrite (IH (i + 1)) by lia.
      destruct Ts as [|T' Ts]; [split; constructor|].
      rewrite removelast_cons_cons. split.
      * intros H. constructor; assumption.
      * intros H. apply Forall_cons in H as [_ H]. exact H.
    + assert (HT : T <> isVoid) by (intros ->; discriminate).
      cbn [resTokens acquiredDefNos]. rewrite EV. simpl app.
      split.
      * intros [= Hhead _]. apply utostr_inj in Hhead.
        -- apply FirstDefNo_hits in Hhead; [|exact HD|lia|exact Hn].
           destruct Ts as [|T' Ts]; [constructor|].
           simpl length in Hlen. lia.
        -- apply wrap32_lt64.
        -- change (2 ^ 64) with 18446744073709551616.
           change (2 ^ 32) with 4294967296 in HD. lia.
      * intros H. destruct Ts as [|T' Ts].
        -- simpl. f_equal. f_equal.
           apply FirstDefNo_hits; [exact HD| |exact Hn|]; simpl in Hlen; lia.
        -- rewrite removelast_cons_cons in H.
           apply Forall_cons in H as [H _]. contradiction.
Qed.

(** When the tokens of [addResOperand] are the [DefNo]s that the child
    acquires: exactly when no type entry of the child but the last one is a
    result. *)
Lemma tokens_as_specified_iff (F : Flattener) (NS Prev : NodeSemantics) :
  0 <= CurDefNo F < 2 ^ 32 ->
  Z.of_nat (length (Types Prev)) < 2 ^ 31 ->
  tokens_as_specified F NS Prev
  <-> Forall (fun T => T = isVoid) (removelast (Types Prev)).
Proof.
  intros HD Hn. unfold tokens_as_specified, addResOperand. simpl.
  rewrite addResOperands_tokens. simpl.
  rewrite <- (resTokens_specified (CurDefNo F)
                (Z.of_nat (length (Types Prev))) (Types Prev) HD Hn 0)
    by lia.
  split.
  - intros H. apply app_inv_head in H. exact H.
  - intros ->. reflexivity.
Qed.

(** C2 fails for a child with two results.  At [CurDefNo = 2] a child with
    types [[i32; i32]] acquires the [DefNo]s 2 and 3, and its parent is
    handed the tokens 1 and 2; at [CurDefNo = 0] the first token wraps
    around to 4294967295.  In the block of
    [(store (X86add_flag GPR:$a, GPR:$b))] the [ISD::STORE] node thus reads
    result 1, which is [$b], and result 2, instead of the two results of
    [X86ISD::ADD].  In [(set GPR:$dst, EFLAGS, (X86add_flag GPR:$a, GPR:$b))]
    the parent that [flattenSet] passes for the last child is handed the
    same tokens 1 and 2, which [flattenSet] does not read: it numbers the
    results anew, 2 and 3. *)
Theorem C2_two_results_misnumbered :
  let F := mkFlattener Sample.TPlain [] [] ∅ 2 [] in
  let F0 := mkFlattener Sample.TPlain [] [] ∅ 0 [] in
  let NS := mkNodeSemantics "ISD::STORE" [isVoid] [] in
  let Prev := mkNodeSemantics "X86ISD::ADD" [i32; i32]
                ["0"%string; "1"%string] in
  Operands (snd (addResOperand F NS Prev)) = ["1"%string; "2"%string]
  /\ CurDefNo (fst (addResOperand F NS Prev)) = 4
  /\ map utostr (acquiredDefNos (CurDefNo F) (Types Prev)) =
       ["2"%string; "3"%string]
  /\ ~ tokens_as_specified F NS Prev
  /\ Operands (snd (addResOperand F0 NS Prev)) =
       ["4294967295"%string; "0"%string]
  /\ match InstSemantics_new Sample.TPlain [] Sample.CGI [Sample.StoreFlag]
     with
     | Ok F' =>
         Semantics F' =
           [mkNodeSemantics "DCINS::GET_RC" [i32] ["1"%string];
            mkNodeSemantics "DCINS::GET_RC" [i32] ["2"%string];
            mkNodeSemantics "X86ISD::ADD" [i32; i32] ["0"%string; "1"%string];
            mkNodeSemantics "ISD::STORE" [isVoid] ["1"%string; "2"%string]]
     | Abort _ => False
     end
  /\ match flatten Sample.CGI
             (TPOp "" [i32; i32] Sample.X86add_flag
                [Sample.leaf "a" Sample.GPR; Sample.leaf "b" Sample.GPR])
             (Some emptyNS) (Flattener_new Sample.TPlain []),
           InstSemantics_new Sample.TPlain [] Sample.CGI [Sample.AddFlag]
     with
     | Ok (_, Some DummyNS), Ok F' =>
         Operands DummyNS = ["1"%string; "2"%string]
         /\ Semantics F' =
              [mkNodeSemantics "DCINS::GET_RC" [i32] ["1"%string];
               mkNodeSemantics "DCINS::GET_RC" [i32] ["2"%string];
               mkNodeSemantics "X86ISD::ADD" [i32; i32]
                 ["0"%string; "1"%string];
               mkNodeSemantics "DCINS::PUT_RC" [isVoid]
                 ["0"%string; "2"%string];
               mkNodeSemantics "DCINS::PUT_REG" [isVoid]
                 ["X86::EFLAGS"%string; "3"%string]]
     | _, _ => False
     end.
Proof.
  intros F F0 NS Prev.
  split; [vm_compute; reflexivity|].
  split; [vm_compute; reflexivity|].
  split; [vm_compute; reflexivity|].
  split; [unfold tokens_as_specified; vm_compute; discriminate|].
  split; [vm_compute; reflexivity|].
  split; [vm_compute; reflexivity|].
  vm_compute. split; reflexivity.
Qed.

(** ** The pool of the emitter (C7) *)

Lemma interns_app (Vs1 Vs2 : list Z) (T : SemanticsTarget) :
  interns (Vs1 ++ Vs2) T = interns Vs2 (interns Vs1 T).
Proof. unfold interns. apply fold_left_app. Qed.

(** Flattening changes the pool by [intern] only. *)
Lemma reach_pool (CGI : CodeGenInstruction) (F F' : Flattener) :
  reach CGI F F' -> exists Vs, Target F' = interns Vs (Target F).
Proof.
  induction 1 as [F|F F1 F2 Hp _ [Vs IH]].
  - exists []. reflexivity.
  - destruct Hp as [N OpInfo OpRec Ts F _ _ _|F NS _|F V|F R|F E];
      simpl in IH; try (exists Vs; exact IH).
    exists (V :: Vs). exact IH.
Qed.

Lemma addFlattened_pool (E E' : SemanticsEmitter) (i : nat)
    (CGI : CodeGenInstruction) (TP : list TreePatternNode) :
  addFlattened E i CGI TP = Ok E' ->
  exists Vs, SemaTarget E' = interns Vs (SemaTarget E).
Proof.
  unfold addFlattened.
  destruct (InstSemantics_new (SemaTarget E) (Diags E) CGI TP) as [F|] eqn:EF;
    [|discriminate].
  simpl. unfold addInstSemantics. simpl. destruct (_ <? _)%nat; [|discriminate].
  intros [= <-]. simpl.
  apply flatten_trees_reach in EF. apply reach_pool in EF. exact EF.
Qed.

Lemma ParseSemantics_pool (CGIByEnum : list Instruction)
    (Instrs : list (nat * list TreePatternNode)) :
  forall E E',
    ParseSemantics CGIByEnum Instrs E = Ok E' ->
    exists Vs, SemaTarget E' = interns Vs (SemaTarget E).
Proof.
  induction Instrs as [|[It TP] Instrs IH]; intros E E' H; simpl in H.
  - injection H as <-. exists []. reflexivity.
  - destruct (CGIByEnum !! It) as [Inst|]; [|discriminate].
    destruct (addFlattened E It (Inst_CGI Inst) TP) as [E1|] eqn:EA;
      [|discriminate].
    simpl in H. destruct (addFlattened_pool _ _ _ _ _ EA) as [Vs1 H1].
    destruct (IH _ _ H) as [Vs2 H2].
    exists (Vs1 ++ Vs2). rewrite interns_app, <- H1. exact H2.
Qed.

Lemma usePatterns_pool (Insts : list Instruction) :
  forall i E E',
    usePatterns Insts i E = Ok E' ->
    exists Vs, SemaTarget E' = interns Vs (SemaTarget E).
Proof.
  induction Insts as [|Inst Insts IH]; intros i E E' H; simpl in H.
  - injection H as <-. exists []. reflexivity.
  - destruct (InstIdx E !! i) as [Idx|]; [|discriminate]. simpl in H.
    destruct (negb (Idx =? 0)); [apply (IH _ _ _ H)|].
    destruct (Inst_Pattern Inst) as [TP|]; [|apply (IH _ _ _ H)].
    destruct (negb (isCodeGenOnly (Inst_CGI Inst))); [|apply (IH _ _ _ H)].
    destruct (addFlattened E i (Inst_CGI Inst) TP) as [E1|] eqn:EA;
      [|discriminate].
    simpl in H. destruct (addFlattened_pool _ _ _ _ _ EA) as [Vs1 H1].
    destruct (IH _ _ _ H) as [Vs2 H2].
    exists (Vs1 ++ Vs2). rewrite interns_app, <- H1. exact H2.
Qed.

(** The pool of the emitter is the pool of a session of [intern] calls. *)
Lemma SemanticsEmitter_new_pool (Info : TGRecord -> result SDNodeInfo)
    (Equivs : list (TGRecord * TGRecord)) (CGIByEnum : list Instruction)
    (Instrs : list (nat * list TreePatternNode)) (E : SemanticsEmitter) :
  SemanticsEmitter_new Info Equivs CGIByEnum Instrs = Ok E ->
  exists Vs, SemaTarget E = interns Vs (SemanticsTarget_new Info Equivs).
Proof.
  unfold SemanticsEmitter_new.
  destruct (addInstSemantics _ 0 InstSemantics_empty) as [E0|] eqn:E0eq;
    [|discriminate].
  simpl.
  destruct (ParseSemantics CGIByEnum Instrs E0) as [E1|] eqn:E1eq;
    [|discriminate].
  simpl. intros H.
  assert (H0 : SemaTarget E0 = SemanticsTarget_new Info Equivs).
  { unfold addInstSemantics in E0eq. simpl in E0eq.
    destruct (_ <? _)%nat; [|discriminate]. injection E0eq as <-.
    reflexivity. }
  destruct (ParseSemantics_pool _ _ _ _ E1eq) as [Vs1 H1].
  destruct (usePatterns_pool _ _ _ _ H) as [Vs2 H2].
  exists (Vs1 ++ Vs2). rewrite interns_app, <- H0, <- H1. exact H2.
Qed.



(** ** Which instructions have semantics *)

Lemma addFlattened_spec (E E' : SemanticsEmitter) (i : nat)
    (CGI : CodeGenInstruction) (TP : list TreePatternNode) :
  addFlattened E i CGI TP = Ok E' ->
  (i < length (InstIdx E))%nat
  /\ length (InstSemas E') = S (length (InstSemas E))
  /\ InstIdx E' =
       <[i := wrap32 (Z.of_nat (length (InstSemas E)))]> (InstIdx E).
Proof.
  unfold addFlattened.
  destruct (InstSemantics_new (SemaTarget E) (Diags E) CGI TP) as [F|];
    [|discriminate].
  simpl. unfold addInstSemantics. simpl.
  destruct (Nat.ltb_spec i (length (InstIdx E))) as [Hi|_]; [|discriminate].
  intros [= <-]. simpl. split; [exact Hi|].
  split; [rewrite length_app; simpl; lia | reflexivity].
Qed.

Lemma ParseSemantics_length (CGIByEnum : list Instruction)
    (Instrs : list (nat * list TreePatternNode)) :
  forall E E',
    ParseSemantics CGIByEnum Instrs E = Ok E' ->
    (length (InstSemas E) <= length (InstSemas E'))%nat
    /\ length (InstIdx E') = length (InstIdx E).
Proof.
  induction Instrs as [|[It TP] Instrs IH]; intros E E' H; simpl in H.
  - injection H as <-. split; [lia | reflexivity].
  - destruct (CGIByEnum !! It) as [Inst|]; [|discriminate].
    destruct (addFlattened E It (Inst_CGI Inst) TP) as [E1|] eqn:EA;
      [|discriminate].
    simpl in H.
    destruct (addFlattened_spec _ _ _ _ _ EA) as (_ & Hlen1 & HI1).
    destruct (IH _ _ H) as (Hle & HlenI).
    split; [lia|]. rewrite HlenI, HI1. apply length_insert.
Qed.

Lemma usePatterns_length (Insts : list Instruction) :
  forall i E E',
    usePatterns Insts i E = Ok E' ->
    (length (InstSemas E) <= length (InstSemas E'))%nat
    /\ length (InstIdx E') = length (InstIdx E).
Proof.
  induction Insts as [|Inst Insts IH]; intros i E E' H; simpl in H.
  - injection H as <-. split; [lia | reflexivity].
  - destruct (InstIdx E !! i) as [Idx|]; [|discriminate]. simpl in H.
    destruct (negb (Idx =? 0)); [apply (IH _ _ _ H)|].
    destruct (Inst_Pattern Inst) as [TP|]; [|apply (IH _ _ _ H)].
    destruct (negb (isCodeGenOnly (Inst_CGI Inst))); [|apply (IH _ _ _ H)].
    destruct (addFlattened E i (Inst_CGI Inst) TP) as [E1|] eqn:EA;
      [|discriminate].
    simpl in H.
    destruct (addFlattened_spec _ _ _ _ _ EA) as (_ & Hlen1 & HI1).
    destruct (IH _ _ _ H) as (Hle & HlenI).
    split; [lia|]. rewrite HlenI, HI1. apply length_insert.
Qed.

Lemma hasSemantics_insert (E E' : SemanticsEmitter) (i : nat) (X : Z) :
  InstIdx E' = <[i := X]> (InstIdx E) ->
  (i < length (InstIdx E))%nat -> X <> 0 ->
  forall j, hasSemantics E' j <-> hasSemantics E j \/ j = i.
Proof.
  intros HI Hi HX j. unfold hasSemantics. rewrite HI.
  destruct (decide (j = i)) as [->|Hne].
  - rewrite list_lookup_insert_eq by exact Hi. split.
    + intros _. right. reflexivity.
    + intros _. exists X. split; [reflexivity | exact HX].
  - rewrite list_lookup_insert_ne by congruence. split.
    + intros H. left. exact H.
    + intros [H|H]; [exact H | contradiction].
Qed.

Lemma addFlattened_hasSemantics (E E' : SemanticsEmitter) (i : nat)
    (CGI : CodeGenInstruction) (TP : list TreePatternNode) :
  addFlattened E i CGI TP = Ok E' ->
  (1 <= length (InstSemas E))%nat ->
  Z.of_nat (length (InstSemas E')) < 2 ^ 32 ->
  forall j, hasSemantics E' j <-> hasSemantics E j \/ j = i.
Proof.
  intros H Hpos Hlt.
  destruct (addFlattened_spec _ _ _ _ _ H) as (Hi & Hlen & HI).
  apply (hasSemantics_insert E E' i _ HI Hi).
  rewrite wrap32_small by lia. lia.
Qed.

Lemma ParseSemantics_hasSemantics (CGIByEnum : list Instruction)
    (Instrs : list (nat * list TreePatternNode)) :
  forall E E',
    ParseSemantics CGIByEnum Instrs E = Ok E' ->
    (1 <= length (InstSemas E))%nat ->
    Z.of_nat (length (InstSemas E')) < 2 ^ 32 ->
    forall j, hasSemantics E' j <-> hasSemantics E j \/ j ∈ map fst Instrs.
Proof.
  induction Instrs as [|[It TP] Instrs IH]; intros E E' H Hpos Hlt; simpl in H.
  - injection H as <-.
    intros j. split; [tauto|]. intros [Hj|Hj]; [exact Hj | inversion Hj].
  - destruct (CGIByEnum !! It) as [Inst|]; [|discriminate].
    destruct (addFlattened E It (Inst_CGI Inst) TP) as [E1|] eqn:EA;
      [|discriminate].
    simpl in H.
    destruct (addFlattened_spec _ _ _ _ _ EA) as (Hi & Hlen1 & HI1).
    destruct (ParseSemantics_length _ _ _ _ H) as (Hle & _).
    intros j. rewrite (IH _ _ H) by (lia || exact Hlt).
    rewrite (addFlattened_hasSemantics _ _ _ _ _ EA Hpos) by lia.
    simpl. rewrite elem_of_cons. tauto.
Qed.

Lemma usePatterns_hasSemantics (Insts : list Instruction) :
  forall i E E',
    usePatterns Insts i E = Ok E' ->
    (1 <= length (InstSemas E))%nat ->
    Z.of_nat (length (InstSemas E')) < 2 ^ 32 ->
    forall j,
      hasSemantics E' j <->
      hasSemantics E j
      \/ ((i <= j)%nat
          /\ exists Inst TP,
               Insts !! (j - i)%nat = Some Inst
               /\ Inst_Pattern Inst = Some TP
               /\ isCodeGenOnly (Inst_CGI Inst) = false).
Proof.
  induction Insts as [|Inst Insts IH]; intros i E E' H Hpos Hlt; simpl in H.
  - injection H as <-. intros j. split; [tauto|].
    intros [Hj|(_ & I0 & TP & Hl & _)]; [exact Hj|].
    rewrite lookup_nil in Hl. discriminate.
  - destruct (InstIdx E !! i) as [Idx|] eqn:EI; [|discriminate]. simpl in H.
    (* what the rest of the loop gives, seen from enum value [i] *)
    assert (Hshift : forall j,
              ((S i <= j)%nat /\ exists I0 TP,
                 Insts !! (j - S i)%nat = Some I0
                 /\ Inst_Pattern I0 = Some TP
                 /\ isCodeGenOnly (Inst_CGI I0) = false)
              <-> ((i <= j)%nat /\ j <> i /\ exists I0 TP,
                     (Inst :: Insts) !! (j - i)%nat = Some I0
                     /\ Inst_Pattern I0 = Some TP
                     /\ isCodeGenOnly (Inst_CGI I0) = false)).
    { intros j. split.
      - intros (Hj & I0 & TP & Hl & Hrest). split; [lia|]. split; [lia|].
        exists I0, TP. split; [|exact Hrest].
        replace (j - i)%nat with (S (j - S i)) by lia. exact Hl.
      - intros (Hj & Hne & I0 & TP & Hl & Hrest). split; [lia|].
        exists I0, TP. split; [|exact Hrest].
        replace (j - i)%nat with (S (j - S i)) in Hl by lia. exact Hl. }
    assert (Hskip : forall E0,
              usePatterns Insts (S i) E0 = Ok E' ->
              (1 <= length (InstSemas E0))%nat ->
              (forall j, hasSemantics E0 j <->
                         hasSemantics E j
                         \/ (j = i /\ exists TP,
                               Inst_Pattern Inst = Some TP
                               /\ isCodeGenOnly (Inst_CGI Inst) = false)) ->
              forall j,
                hasSemantics E' j <->
                hasSemantics E j
                \/ ((i <= j)%nat
                    /\ exists I0 TP,
                         (Inst :: Insts) !! (j - i)%nat = Some I0
                         /\ Inst_Pattern I0 = Some TP
                         /\ isCodeGenOnly (Inst_CGI I0) = false)).
    { intros E0 H0 Hpos0 HE0 j.
      rewrite (IH _ _ _ H0 Hpos0 Hlt), HE0, Hshift.
      split.
      - intros [[Hj|[-> (TP & HP & HC)]]|(Hj & Hne & Hex)].
        + left. exact Hj.
        + right. split; [lia|]. exists Inst, TP.
          rewrite Nat.sub_diag. repeat split; assumption.
        + right. split; assumption.
      - intros [Hj|(Hj & I0 & TP & Hl & HP & HC)].
        + left. left. exact Hj.
        + destruct (decide (j = i)) as [->|Hne].
          * rewrite Nat.sub_diag in Hl. injection Hl as <-.
            left. right. split; [reflexivity|]. exists TP. split; assumption.
          * right. split; [exact Hj|]. split; [exact Hne|].
            exists I0, TP. repeat split; assumption. }
    destruct (Z.eqb_spec Idx 0) as [HIdx|HIdx]; simpl in H.
    + destruct (Inst_Pattern Inst) as [TP|] eqn:EP.
      * destruct (isCodeGenOnly (Inst_CGI Inst)) eqn:EC; simpl in H.
        -- apply (Hskip E H Hpos). intros j. split; [tauto|].
           intros [Hj|(_ & TP' & _ & HC)]; [exact Hj | discriminate].
        -- destruct (addFlattened E i (Inst_CGI Inst) TP) as [E1|] eqn:EA;
             [|discriminate].
           simpl in H.
           destruct (addFlattened_spec _ _ _ _ _ EA) as (_ & Hlen1 & _).
           destruct (usePatterns_length _ _ _ _ H) as (Hle1 & _).
           apply (Hskip E1 H); [lia|].
           intros j.
           rewrite (addFlattened_hasSemantics _ _ _ _ _ EA Hpos) by lia.
           split.
           ++ intros [Hj | ->]; [left; exact Hj|].
              right. split; [reflexivity|]. exists TP. split; reflexivity.
           ++ intros [Hj|[-> _]]; [left; exact Hj | right; reflexivity].
      * apply (Hskip E H Hpos). intros j. split; [tauto|].
        intros [Hj|(_ & TP' & HP & _)]; [exact Hj | discriminate].
    + apply (Hskip E H Hpos).
      intros j. split; [tauto|].
      intros [Hj|[-> _]]; [exact Hj|].
      exists Idx. split; assumption.
Qed.

(** The instructions that have semantics in the emitter of the constructor
    are those for which it installs some. *)
Lemma SemanticsEmitter_new_hasSemantics
    (Info : TGRecord -> result SDNodeInfo)
    (Equivs : list (TGRecord * TGRecord)) (CGIByEnum : list Instruction)
    (Instrs : list (nat * list TreePatternNode)) (E : SemanticsEmitter) :
  SemanticsEmitter_new Info Equivs CGIByEnum Instrs = Ok E ->
  Z.of_nat (length (InstSemas E)) < 2 ^ 32 ->
  length (InstIdx E) = length CGIByEnum
  /\ forall i, hasSemantics E i <-> installed CGIByEnum Instrs i.
Proof.
  unfold SemanticsEmitter_new. intros H Hlt.
  destruct (addInstSemantics _ 0 InstSemantics_empty) as [E0|] eqn:E0eq;
    [|discriminate].
  simpl in H.
  destruct (ParseSemantics CGIByEnum Instrs E0) as [E1|] eqn:E1eq;
    [|discriminate].
  simpl in H.
  assert (HE0 : length (InstSemas E0) = 1%nat
                /\ length (InstIdx E0) = length CGIByEnum
                /\ forall j, ~ hasSemantics E0 j).
  { unfold addInstSemantics in E0eq. simpl in E0eq.
    destruct (_ <? _)%nat; [|discriminate]. injection E0eq as <-. simpl.
    split; [reflexivity|]. split.
    { rewrite length_insert, length_replicate. reflexivity. }
    intros j (X & HX & Hne). apply Hne.
    apply list_lookup_insert_Some in HX as [(_ & <- & _)|(_ & HX)].
    - reflexivity.
    - apply lookup_replicate in HX as [-> _]. reflexivity. }
  destruct HE0 as (Hlen0 & HlenI0 & Hnone).
  destruct (ParseSemantics_length _ _ _ _ E1eq) as (Hle1 & HlenI1).
  destruct (usePatterns_length _ _ _ _ H) as (Hle2 & HlenI2).
  split; [congruence|].
  intros i.
  rewrite (usePatterns_hasSemantics _ _ _ _ H) by (lia || exact Hlt).
  rewrite (ParseSemantics_hasSemantics _ _ _ _ E1eq) by lia.
  unfold installed. rewrite Nat.sub_0_r. split.
  - intros [[Hi|Hi]|(_ & Hex)].
    + destruct (Hnone i Hi).
    + left. exact Hi.
    + right. exact Hex.
  - intros [Hi|Hex].
    + left. right. exact Hi.
    + right. split; [lia | exact Hex].
Qed.

(** ** The offset table of the emitter (C5) *)

(** C5, as amended.  For the emitter that the constructor has built and the output of
    [run], as long as [InstSemantics[]] and the list of installed semantics
    have fewer than [2^32] elements: [OpcodeToSemaIdx] has one entry per
    instruction; the entry of instruction [i] is 0 exactly when no semantics
    were installed for [i]; and when some were, with or without a node, the
    entry is the offset at which the block of these semantics (its nodes,
    then the terminator) starts in [InstSemantics[]]: the element at that
    offset is the opcode of the first node of the block, and the terminator
    [END_OF_INSTRUCTION] when the block has no node. *)
Theorem C5_offset_table (Info : TGRecord -> result SDNodeInfo)
    (Equivs : list (TGRecord * TGRecord)) (CGIByEnum : list Instruction)
    (Instrs : list (nat * list TreePatternNode)) (E : SemanticsEmitter)
    (Out : Output) :
  SemanticsEmitter_new Info Equivs CGIByEnum Instrs = Ok E ->
  run E = Ok Out ->
  Z.of_nat (length (InstSemas E)) < 2 ^ 32 ->
  Z.of_nat (length (Out_InstSemantics Out)) < 2 ^ 32 ->
  length (Out_OpcodeToSemaIdx Out) = length CGIByEnum
  /\ forall i : nat,
       (i < length CGIByEnum)%nat ->
       exists Start,
         Out_OpcodeToSemaIdx Out !! i = Some Start
         /\ (Start = 0 <-> ~ installed CGIByEnum Instrs i)
         /\ (installed CGIByEnum Instrs i ->
             exists X Sema,
               InstIdx E !! i = Some X
               /\ InstSemas E !! Z.to_nat X = Some Sema
               /\ block_at (Out_InstSemantics Out) Start Sema
               /\ Out_InstSemantics Out !! Z.to_nat Start =
                    Some (firstOpcode Sema)
               /\ (forall NS Rest,
                     Sema = NS :: Rest ->
                     Out_InstSemantics Out !! Z.to_nat Start =
                       Some (Opcode NS))
               /\ (Sema = [] ->
                   Out_InstSemantics Out !! Z.to_nat Start =
                     Some "DCINS::END_OF_INSTRUCTION"%string)).
Proof.
  intros HE Hrun HlenS HlenO.
  destruct (SemanticsEmitter_new_hasSemantics _ _ _ _ _ HE HlenS)
    as (HlenI & Hhas).
  destruct (run_offset_table E Out Hrun HlenO) as (HlenT & Hall).
  split; [congruence|].
  intros i Hi.
  destruct (lookup_lt_is_Some_2 (InstIdx E) i) as [X HX]; [lia|].
  destruct (Hall i X HX) as (Start & HStart & Hzero & Hblock).
  exists Start. split; [exact HStart|]. split.
  - rewrite Hzero, Hhas. reflexivity.
  - intros Hinst. apply Hhas in Hinst.
    destruct (Hblock Hinst) as (Sema & HSema & Hat & Hfirst).
    exists X, Sema. split; [exact HX|]. split; [exact HSema|].
    split; [exact Hat|]. split; [exact Hfirst|]. split.
    + intros NS Rest ->. exact Hfirst.
    + intros ->. exact Hfirst.
Qed.

Lemma C5_offset_table_witness :
  exists E Out,
    SemanticsEmitter_new Sample.Info [] Sample.Insts Sample.Instrs = Ok E
    /\ run E = Ok Out
    /\ Out_OpcodeToSemaIdx Out = [0; 1; 16; 0; 17]
    /\ length (Out_OpcodeToSemaIdx Out) = length Sample.Insts
    /\ forall i : nat,
         (i < length Sample.Insts)%nat ->
         exists Start,
           Out_OpcodeToSemaIdx Out !! i = Some Start
           /\ (Start = 0 <-> ~ installed Sample.Insts Sample.Instrs i)
           /\ (installed Sample.Insts Sample.Instrs i ->
               exists X Sema,
                 InstIdx E !! i = Some X
                 /\ InstSemas E !! Z.to_nat X = Some Sema
                 /\ block_at (Out_InstSemantics Out) Start Sema
                 /\ Out_InstSemantics Out !! Z.to_nat Start =
                      Some (firstOpcode Sema)
                 /\ (forall NS Rest,
                       Sema = NS :: Rest ->
                       Out_InstSemantics Out !! Z.to_nat Start =
                         Some (Opcode NS))
                 /\ (Sema = [] ->
                     Out_InstSemantics Out !! Z.to_nat Start =
                       Some "DCINS::END_OF_INSTRUCTION"%string)).
Proof.
  assert (H : exists E Out,
            SemanticsEmitter_new Sample.Info [] Sample.Insts Sample.Instrs
            = Ok E
            /\ run E = Ok Out
            /\ Out_OpcodeToSemaIdx Out = [0; 1; 16; 0; 17]
            /\ Z.of_nat (length (InstSemas E)) < 2 ^ 32
            /\ Z.of_nat (length (Out_InstSemantics Out)) < 2 ^ 32).
  { eexists. eexists. split; [vm_compute; reflexivity|].
    split; [vm_compute; reflexivity|]. split; [vm_compute; reflexivity|].
    split; [vm_compute; reflexivity|]. vm_compute. reflexivity. }
  destruct H as (E & Out & HE & Hrun & Htab & HlenS & HlenO).
  exists E, Out. split; [exact HE|]. split; [exact Hrun|].
  split; [exact Htab|].
  exact (C5_offset_table Sample.Info [] Sample.Insts Sample.Instrs E Out
           HE Hrun HlenS HlenO).
Defined.

(** The offset table as the specification words it fails on an instruction
    whose semantics are installed and empty: the third instruction of the
    sample, whose [set] has a wrong arity, has no node, and its entry is 16,
    the offset of a terminator. *)
Lemma C5_offsets_as_specified_counterexample :
  exists E Out,
    SemanticsEmitter_new Sample.Info [] Sample.Insts Sample.Instrs = Ok E
    /\ run E = Ok Out
    /\ InstIdx E !! 2%nat = Some 3
    /\ InstSemas E !! 3%nat = Some []
    /\ Out_OpcodeToSemaIdx Out !! 2%nat = Some 16
    /\ Out_InstSemantics Out !! 16%nat = Some END_OF_INSTRUCTION
    /\ ~ offsets_as_specified E Out.
Proof.
  assert (H : exists E Out,
            SemanticsEmitter_new Sample.Info [] Sample.Insts Sample.Instrs
            = Ok E
            /\ run E = Ok Out
            /\ InstIdx E !! 2%nat = Some 3
            /\ InstSemas E !! 3%nat = Some []
            /\ Out_OpcodeToSemaIdx Out !! 2%nat = Some 16
            /\ Out_InstSemantics Out !! 16%nat = Some END_OF_INSTRUCTION).
  { eexists. eexists. split; [vm_compute; reflexivity|].
    split; [vm_compute; reflexivity|]. split; [vm_compute; reflexivity|].
    split; [vm_compute; reflexivity|]. split; [vm_compute; reflexivity|].
    vm_compute. reflexivity. }
  destruct H as (E & Out & HE & Hrun & HX & HS & HT & HO).
  exists E, Out. split; [exact HE|]. split; [exact Hrun|].
  split; [exact HX|]. split; [exact HS|]. split; [exact HT|].
  split; [exact HO|].
  intros Hspec. destruct (Hspec 2%nat 16 HT) as [[_ Hzero] _].
  assert (H16 : 16 = 0); [|discriminate H16].
  apply Hzero. intros (X & NS & Sema & HX' & _ & HS').
  rewrite HX in HX'. injection HX' as <-.
  change (Z.to_nat 3) with 3%nat in HS'. rewrite HS in HS'. discriminate HS'.
Qed.

(** * Further properties *)

(** ** Named operands and leaves *)

Lemma find_first {A : Type} (f : A -> bool) (l : list A) (x : A) :
  find f l = Some x <->
  exists pre post,
    l = pre ++ x :: post /\ f x = true
    /\ Forall (fun y => f y = false) pre.
Proof.
  induction l as [|a l IH]; simpl.
  - split; [discriminate|]. intros (pre & post & H & _).
    destruct pre; discriminate.
  - destruct (f a) eqn:Ea.
    + split.
      * intros [= <-]. exists [], l. repeat split; [exact Ea|constructor].
      * intros (pre & post & H & Hx & Hpre).
        destruct pre as [|b pre]; simpl in H.
        -- injection H as -> _. reflexivity.
        -- injection H as -> _. apply Forall_cons in Hpre as [Hb _]. congruence.
    + rewrite IH. split.
      * intros (pre & post & -> & Hx & Hpre). exists (a :: pre), post.
        repeat split; [exact Hx|]. constructor; assumption.
      * intros (pre & post & H & Hx & Hpre).
        destruct pre as [|b pre]; simpl in H.
        -- injection H as -> _. congruence.
        -- injection H as -> ->. apply Forall_cons in Hpre as [_ Hpre].
           exists pre, post. repeat split; assumption.
Qed.

Lemma find_none_iff {A : Type} (f : A -> bool) (l : list A) :
  find f l = None <-> Forall (fun y => f y = false) l.
Proof.
  induction l as [|a l IH]; simpl.
  - split; [constructor|reflexivity].
  - destruct (f a) eqn:Ea.
    + split; [discriminate|]. intros H. apply Forall_cons in H as [H _].
      congruence.
    + rewrite IH. split.
      * intros H. constructor; assumption.
      * intros H. apply Forall_cons in H as [_ H]. exact H.
Qed.

(** X1. [getNamedOperand] answers the first operand of the instruction that
    carries the name, and none for the empty name, even when an operand of
    the instruction has no name; it answers none exactly when the name is
    empty or no operand carries it. *)
Theorem X1_getNamedOperand_first (CGI : CodeGenInstruction) (N : string) :
  (forall OpInfo,
     getNamedOperand CGI N = Some OpInfo <->
     N <> EmptyString
     /\ exists pre post,
          CGI_Operands CGI = pre ++ OpInfo :: post
          /\ Name OpInfo = N
          /\ Forall (fun OI => Name OI <> N) pre)
  /\ (getNamedOperand CGI N = None <->
      N = EmptyString \/ Forall (fun OI => Name OI <> N) (CGI_Operands CGI)).
Proof.
  unfold getNamedOperand.
  assert (Hneq : forall l : list OperandInfo,
            Forall (fun OI => String.eqb N (Name OI) = false) l
            <-> Forall (fun OI => Name OI <> N) l).
  { intros l. apply Forall_proper; [|reflexivity]. intros OI.
    rewrite String.eqb_neq. split; intros H E; apply H; congruence. }
  destruct (String.eqb_spec N EmptyString) as [HN|HN].
  - split.
    + intros OpInfo. split; [discriminate|]. intros [H _]. contradiction.
    + split; [intros _; left; exact HN | reflexivity].
  - split.
    + intros OpInfo. rewrite find_first. split.
      * intros (pre & post & Hl & Hx & Hpre). split; [exact HN|].
        exists pre, post. split; [exact Hl|]. apply String.eqb_eq in Hx.
        split; [congruence|]. apply Hneq. exact Hpre.
      * intros (_ & pre & post & Hl & Hx & Hpre). exists pre, post.
        split; [exact Hl|]. split; [apply String.eqb_eq; congruence|].
        apply Hneq. exact Hpre.
    + rewrite find_none_iff, Hneq. split; [intros H; right; exact H|].
      intros [H|H]; [contradiction | exact H].
Qed.

Lemma forallb_is_isVoid (Ts : list SimpleValueType) :
  forallb is_isVoid Ts = true <-> Forall (fun T => T = isVoid) Ts.
Proof.
  induction Ts as [|T Ts IH]; simpl.
  - split; [intros _; constructor | reflexivity].
  - rewrite andb_true_iff, IH. split.
    + intros [HT H]. constructor; [destruct T; (reflexivity || discriminate)|exact H].
    + intros H. apply Forall_cons in H as [-> H]. split; [reflexivity|exact H].
Qed.

Lemma Types_setNSTypeFromNode (TPN : TreePatternNode) :
  Types (setNSTypeFromNode emptyNS TPN) = NodeTypes (getExtTypes TPN).
Proof.
  rewrite setNSTypeFromNode_emptyNS. unfold getNumTypes.
  destruct (getExtTypes TPN); reflexivity.
Qed.

(** A node without result appended under no parent. *)
Lemma addResOperand_to_None (TPN : TreePatternNode) (F F0 F' : Flattener)
    (Op : NodeSemantics) (P' : option NodeSemantics) :
  Types Op = NodeTypes (getExtTypes TPN) ->
  Semantics F0 = Semantics F -> CurDefNo F0 = CurDefNo F ->
  addResOperand_to F0 None Op = Ok (F', P') ->
  P' = None
  /\ Forall (fun T => T = isVoid) (getExtTypes TPN)
  /\ exists NS,
       Semantics F' = Semantics F ++ [NS]
       /\ Types NS = NodeTypes (getExtTypes TPN)
       /\ CurDefNo F' = CurDefNo F.
Proof.
  intros HT HS HD H.
  apply addResOperand_to_inv in H as (-> & -> & Hvoid).
  apply forallb_is_isVoid in Hvoid. split; [reflexivity|]. split.
  - rewrite HT in Hvoid. destruct (getExtTypes TPN); [constructor|exact Hvoid].
  - exists Op. simpl. rewrite HS. split; [reflexivity|]. split; [exact HT|].
    rewrite countDefs_all_void by exact Hvoid. exact HD.
Qed.

(** X2. A leaf or a named operand at the root of a tree.  The public
    [flatten] calls the private one without a parent, and such a root is
    handed to [flattenLeaf] or [flattenOperand], which write the results of
    their node to the parent.  When the root has a type other than [isVoid]
    the call never returns, and the semantics of an instruction that starts
    with this tree are not built.  A call that returns has found no such
    type: it hands nothing up, appends one node, with the types [[isVoid]]
    for a root without type, and leaves [CurDefNo] as it is.  A [Register]
    leaf without such a type does return, with its [GET_REG] node
    appended. *)
Theorem X2_root_without_operator (CGI : CodeGenInstruction)
    (TPN : TreePatternNode) :
  isLeaf TPN = true \/ getNamedOperand CGI (getName TPN) <> None ->
  (Exists (fun T => T <> isVoid) (getExtTypes TPN) ->
   (forall F, exists e, flatten CGI TPN None F = Abort e)
   /\ (forall T E Trees,
         exists e, InstSemantics_new T E CGI (TPN :: Trees) = Abort e))
  /\ (forall F F' P',
        flatten CGI TPN None F = Ok (F', P') ->
        P' = None
        /\ Forall (fun T => T = isVoid) (getExtTypes TPN)
        /\ exists NS,
             Semantics F' = Semantics F ++ [NS]
             /\ Types NS = NodeTypes (getExtTypes TPN)
             /\ CurDefNo F' = CurDefNo F)
  /\ (forall N Ts R F,
        TPN = TPLeaf N Ts (DefInit R) ->
        getNamedOperand CGI N = None ->
        isSubClassOf R "Register" = true ->
        Forall (fun T => T = isVoid) Ts ->
        flatten CGI TPN None F =
          Ok (addSemantics F
                (mkNodeSemantics "DCINS::GET_REG" (NodeTypes Ts)
                   [Namespace CGI +:+ "::" +:+ rec_Name R]), None)).
Proof.
  intros H.
  assert (Hop : forall OpInfo F F' P',
            flattenOperand CGI TPN None OpInfo F = Ok (F', P') ->
            P' = None
            /\ Forall (fun T => T = isVoid) (getExtTypes TPN)
            /\ exists NS,
                 Semantics F' = Semantics F ++ [NS]
                 /\ Types NS = NodeTypes (getExtTypes TPN)
                 /\ CurDefNo F' = CurDefNo F).
  { intros OpInfo F F' P'. unfold flattenOperand.
    destruct (asRegisterClass (Rec OpInfo)) as [OpRec|e]; simpl;
      [|discriminate].
    destruct (isSubClassOf OpRec "Operand").
    - destruct (String.eqb (OperandType OpInfo) "OPERAND_IMMEDIATE").
      + intros HR.
        refine (addResOperand_to_None TPN F _ F' _ P' _ _ _ HR);
          [exact (Types_setNSTypeFromNode _)|reflexivity|reflexivity].
      + destruct (OperandByName F !! Name OpInfo); [discriminate|].
        intros HR.
        refine (addResOperand_to_None TPN F _ F' _ P' _ _ _ HR);
          [exact (Types_setNSTypeFromNode _)|reflexivity|reflexivity].
    - destruct (isSubClassOf OpRec "RegisterClass"); [|discriminate].
      intros HR.
        refine (addResOperand_to_None TPN F _ F' _ P' _ _ _ HR);
          [exact (Types_setNSTypeFromNode _)|reflexivity|reflexivity]. }
  assert (Hret : forall F F' P',
            flatten CGI TPN None F = Ok (F', P') ->
            P' = None
            /\ Forall (fun T => T = isVoid) (getExtTypes TPN)
            /\ exists NS,
                 Semantics F' = Semantics F ++ [NS]
                 /\ Types NS = NodeTypes (getExtTypes TPN)
                 /\ CurDefNo F' = CurDefNo F).
  { intros F F' P'. destruct TPN as [N Ts V|N Ts Op Cs]; simpl.
    - destruct (getNamedOperand CGI N) as [OpInfo|]; [apply Hop|].
      unfold flattenLeaf. simpl. destruct V as [Value|OpRec|]; simpl.
      + destruct (intern Value (Target F)) as [Idx T].
        intros HR.
        refine (addResOperand_to_None (TPLeaf N Ts (IntInit Value)) F _ F' _ P' _ _ _ HR);
          [exact (Types_setNSTypeFromNode _)|reflexivity|reflexivity].
      + destruct (isSubClassOf OpRec "Register"); [|discriminate].
        intros HR.
        refine (addResOperand_to_None (TPLeaf N Ts (DefInit OpRec)) F _ F' _ P' _ _ _ HR);
          [exact (Types_setNSTypeFromNode _)|reflexivity|reflexivity].
      + discriminate.
    - destruct (getNamedOperand CGI N) as [OpInfo|] eqn:EN; [apply Hop|].
      destruct H as [H|H]; [discriminate H|]. simpl in H. contradiction. }
  split; [|split; [exact Hret|]].
  - intros Hex.
    assert (Hflat : forall F, exists e, flatten CGI TPN None F = Abort e).
    { intros F. destruct (flatten CGI TPN None F) as [[F' P']|e] eqn:EF;
        [|exists e; reflexivity].
      exfalso. destruct (Hret F F' P' EF) as (_ & Hvoid & _).
      apply Exists_exists in Hex as (T & HT & HnT).
      rewrite Forall_forall in Hvoid. apply HnT, Hvoid, HT. }
    split; [exact Hflat|].
    intros T E Trees. unfold InstSemantics_new. simpl. unfold flatten_tree.
    destruct (Hflat (Flattener_new T E)) as [e ->]. exists e. reflexivity.
  - intros N Ts R F -> HN HR Hvoid. simpl. rewrite HN.
    unfold flattenLeaf. simpl. rewrite HR.
    rewrite setNSTypeFromNode_emptyNS. unfold getNumTypes, addResOperand_to.
    apply forallb_is_isVoid in Hvoid.
    destruct Ts as [|T Ts]; [reflexivity|].
    simpl in Hvoid |- *. rewrite Hvoid. reflexivity.
Qed.

Lemma X2_root_without_operator_witness :
  (forall F, exists e,
     flatten Sample.CGI (Sample.leaf "a" Sample.GPR) None F = Abort e)
  /\ (forall T E Trees,
        exists e,
          InstSemantics_new T E Sample.CGI
            (Sample.leaf "a" Sample.GPR :: Trees) = Abort e)
  /\ (forall F,
        flatten Sample.CGI (TPLeaf "" [] (DefInit Sample.EFLAGS)) None F =
          Ok (addSemantics F
                (mkNodeSemantics "DCINS::GET_REG" [isVoid] ["X86::EFLAGS"]),
              None)).
Proof.
  pose proof (X2_root_without_operator Sample.CGI
                (Sample.leaf "a" Sample.GPR) (or_introl eq_refl))
    as (Htyped & _ & _).
  pose proof (X2_root_without_operator Sample.CGI
                (TPLeaf "" [] (DefInit Sample.EFLAGS)) (or_introl eq_refl))
    as (_ & _ & Hreg).
  split; [|split].
  - apply Htyped. apply Exists_cons_hd. discriminate.
  - apply Htyped. apply Exists_cons_hd. discriminate.
  - intros F.
    exact (Hreg "" [] Sample.EFLAGS F eq_refl eq_refl eq_refl (Forall_nil_2 _)).
Defined.

(** X3. The leaves that [flatten] accepts.  A leaf that does not carry the
    name of an operand of the instruction is flattened below a parent
    exactly when it holds an integer or a [Register] record; for a register
    the node is [GET_REG] with the types of the leaf and the qualified name
    of the register as its single operand. *)
Theorem X3_leaf_kinds (CGI : CodeGenInstruction) (N : string)
    (Ts : list SimpleValueType) (V : Init) (P : NodeSemantics)
    (F : Flattener) :
  getNamedOperand CGI N = None ->
  ((exists F' P', flatten CGI (TPLeaf N Ts V) (Some P) F = Ok (F', P'))
   <-> (exists Value, V = IntInit Value)
       \/ (exists R, V = DefInit R /\ isSubClassOf R "Register" = true))
  /\ (forall R,
        V = DefInit R -> isSubClassOf R "Register" = true ->
        exists P',
          flatten CGI (TPLeaf N Ts V) (Some P) F =
            Ok (addSemantics F
                  (mkNodeSemantics "DCINS::GET_REG" (NodeTypes Ts)
                     [Namespace CGI +:+ "::" +:+ rec_Name R]), Some P')).
Proof.
  intros HN. simpl. rewrite HN. unfold flattenLeaf. simpl.
  assert (HNS : setNSTypeFromNode emptyNS (TPLeaf N Ts V)
                = mkNodeSemantics EmptyString (NodeTypes Ts) []).
  { unfold setNSTypeFromNode, getNumTypes. simpl. destruct Ts; reflexivity. }
  split.
  - destruct V as [Value|R|]; simpl.
    + split; [intros _; left; eexists; reflexivity|]. intros _.
      destruct (intern Value (Target F)). eexists _, _. reflexivity.
    + destruct (isSubClassOf R "Register") eqn:ER.
      * split; [intros _; right; exists R; split; [reflexivity|exact ER]|].
        intros _. eexists _, _. reflexivity.
      * split; [intros (F' & P' & H); discriminate|].
        intros [[Value H]|(R' & [= <-] & H)]; [discriminate|congruence].
    + split; [intros (F' & P' & H); discriminate|].
      intros [[Value H]|(R' & H & _)]; discriminate.
  - intros R -> HR. simpl. rewrite HR, HNS. eexists. reflexivity.
Qed.

Lemma X3_leaf_kinds_witness :
  let F := Flattener_new Sample.TPlain [] in
  ((exists F' P',
      flatten Sample.CGI (TPLeaf "" [i32] (DefInit Sample.EAX)) (Some emptyNS) F
      = Ok (F', P'))
   <-> (exists Value, DefInit Sample.EAX = IntInit Value)
       \/ (exists R, DefInit Sample.EAX = DefInit R
                     /\ isSubClassOf R "Register" = true))
  /\ (forall R,
        DefInit Sample.EAX = DefInit R -> isSubClassOf R "Register" = true ->
        exists P',
          flatten Sample.CGI (TPLeaf "" [i32] (DefInit Sample.EAX))
            (Some emptyNS) F =
            Ok (addSemantics F
                  (mkNodeSemantics "DCINS::GET_REG" (NodeTypes [i32])
                     [Namespace Sample.CGI +:+ "::" +:+ rec_Name R]), Some P')).
Proof.
  intros F.
  apply (X3_leaf_kinds Sample.CGI "" [i32] (DefInit Sample.EAX) emptyNS F).
  reflexivity.
Defined.

(** ** [implicit] nodes *)

Lemma flattenImplicit_loop_leaves (CGI : CodeGenInstruction)
    (Cs : list TreePatternNode) :
  forall NS,
    (Forall (fun C => isLeaf C = true) Cs ->
     flattenImplicit_loop CGI Cs NS =
       Ok (addOperands NS (map (ImplicitOperand CGI) Cs)))
    /\ (forall NS', flattenImplicit_loop CGI Cs NS = Ok NS' ->
                    Forall (fun C => isLeaf C = true) Cs).
Proof.
  induction Cs as [|C Cs IH]; intros NS; simpl.
  - split; [intros _; rewrite addOperands_nil; reflexivity|constructor].
  - destruct C as [N Ts V|N Ts Op Cs']; simpl.
    + destruct (IH (addOperand NS (Namespace CGI +:+ "::" +:+ getAsString V)))
        as [IH1 IH2].
      split.
      * intros H. apply Forall_cons in H as [_ H]. rewrite (IH1 H).
        unfold addOperands, addOperand. simpl. rewrite <- app_assoc.
        reflexivity.
      * intros NS' H. constructor; [reflexivity|]. apply (IH2 _ H).
    + split; [|discriminate]. intros H. apply Forall_cons in H as [H _].
      discriminate H.
Qed.

(** X4. An [implicit] node.  At the top level, when all its children are
    leaves, it appends one [IMPLICIT] node with the types of the node and
    one operand per child, in the order of the children: the namespace,
    ["::"] and the printed value of the child, whatever that value is;
    nothing else changes.  It returns only if all its children are leaves,
    and below another node it never returns. *)
Theorem X4_implicit_node (CGI : CodeGenInstruction) (N : string)
    (Ts : list SimpleValueType) (Op : TGRecord) (Cs : list TreePatternNode)
    (F : Flattener) :
  getNamedOperand CGI N = None ->
  rec_Name Op = "implicit"%string ->
  (Forall (fun C => isLeaf C = true) Cs ->
   flatten CGI (TPOp N Ts Op Cs) None F =
     Ok (addSemantics F
           (mkNodeSemantics "DCINS::IMPLICIT" (NodeTypes Ts)
              (map (ImplicitOperand CGI) Cs)), None))
  /\ (forall F' P',
        flatten CGI (TPOp N Ts Op Cs) None F = Ok (F', P') ->
        Forall (fun C => isLeaf C = true) Cs)
  /\ (forall P, exists e,
        flatten CGI (TPOp N Ts Op Cs) (Some P) F = Abort e).
Proof.
  intros HN HOp.
  assert (HNS : setNSTypeFromNode emptyNS (TPOp N Ts Op Cs)
                = mkNodeSemantics EmptyString (NodeTypes Ts) []).
  { unfold setNSTypeFromNode, getNumTypes. simpl. destruct Ts; reflexivity. }
  split; [|split].
  - intros Hleaves. simpl. rewrite HN, HOp. simpl.
    unfold flattenImplicit. rewrite HNS.
    destruct (flattenImplicit_loop_leaves CGI Cs
                (setOpcode (mkNodeSemantics EmptyString (NodeTypes Ts) [])
                   "DCINS::IMPLICIT")) as [H1 _].
    rewrite (H1 Hleaves). reflexivity.
  - intros F' P'. simpl. rewrite HN, HOp. simpl.
    unfold flattenImplicit.
    destruct (flattenImplicit_loop CGI Cs _) as [NS'|] eqn:EL; [|discriminate].
    intros _.
    apply (proj2 (flattenImplicit_loop_leaves CGI Cs _) _ EL).
  - intros P. simpl. rewrite HN, HOp. simpl. eexists. reflexivity.
Qed.

Lemma X4_implicit_node_witness :
  let F := Flattener_new Sample.TPlain [] in
  let Cs := [Sample.leaf "" Sample.EFLAGS; TPLeaf "" [] (IntInit 7)] in
  (Forall (fun C => isLeaf C = true) Cs ->
   flatten Sample.CGI (TPOp "" [] Sample.implicit Cs) None F =
     Ok (addSemantics F
           (mkNodeSemantics "DCINS::IMPLICIT" [isVoid]
              ["X86::EFLAGS"; "X86::7"]%string), None))
  /\ (forall F' P',
        flatten Sample.CGI (TPOp "" [] Sample.implicit Cs) None F = Ok (F', P') ->
        Forall (fun C => isLeaf C = true) Cs)
  /\ (forall P, exists e,
        flatten Sample.CGI (TPOp "" [] Sample.implicit Cs) (Some P) F
        = Abort e).
Proof.
  intros F Cs.
  apply (X4_implicit_node Sample.CGI "" [] Sample.implicit Cs F); reflexivity.
Defined.

(** ** Flattening only adds *)

Lemma wrap32_idem_add (d k : Z) : wrap32 (wrap32 d + k) = wrap32 (d + k).
Proof. unfold wrap32. apply Zplus_mod_idemp_l. Qed.

Lemma extends_refl (F : Flattener) : extends F F.
Proof. repeat split; try reflexivity; auto. Qed.

Lemma extends_trans (F1 F2 F3 : Flattener) :
  extends F1 F2 -> extends F2 F3 -> extends F1 F3.
Proof.
  intros (S1 & O1 & R1 & P1 & E1) (S2 & O2 & R2 & P2 & E2).
  split; [etransitivity; eassumption|].
  split; [intros N d H; apply O2, O1, H|].
  split; [intros R H; apply R2, R1, H|].
  split; [intros K Idx H Hne; apply P2; [apply P1; assumption|exact Hne]|].
  congruence.
Qed.

Lemma intern_keeps (V : Z) (T : SemanticsTarget) (K Idx : Z) :
  ConstantIdx T !! K = Some Idx -> Idx <> 0 ->
  ConstantIdx (snd (intern V T)) !! K = Some Idx.
Proof.
  intros H Hne. unfold intern.
  destruct (ConstantIdx T !! wrap64 V) as [Idx'|] eqn:E.
  - destruct (Z.eqb_spec Idx' 0) as [->|_]; simpl; [|exact H].
    rewrite lookup_insert_ne; [exact H|]. intros <-. congruence.
  - simpl. rewrite lookup_insert_ne; [exact H|]. intros <-. congruence.
Qed.

Lemma intern_SDNodeEquiv (V : Z) (T : SemanticsTarget) :
  SDNodeEquiv (snd (intern V T)) = SDNodeEquiv T.
Proof.
  unfold intern. destruct (ConstantIdx T !! wrap64 V) as [Idx'|];
    [destruct (Idx' =? 0)|]; reflexivity.
Qed.

Lemma prim_extends (CGI : CodeGenInstruction) (F F' : Flattener) :
  prim CGI F F' -> extends F F'.
Proof.
  intros [N OpInfo OpRec Ts F0 _ _ Hnone|F0 NS _|F0 V|F0 R|F0 E];
    unfold extends; simpl.
  - split; [apply prefix_app_r; reflexivity|].
    split; [|repeat split; auto].
    intros N' d H. rewrite lookup_insert_ne; [exact H|]. congruence.
  - split; [apply prefix_app_r; reflexivity|]. repeat split; auto.
  - split; [reflexivity|]. split; [auto|]. split; [auto|].
    split; [apply intern_keeps | apply intern_SDNodeEquiv].
  - split; [reflexivity|]. split; [auto|]. split; [|split; auto].
    intros R' HR'.
    destruct (ImplicitRegSet_insert_cases (EliminatedImplicitRegs F0) R)
      as [[-> _]|[-> _]]; [exact HR'|].
    apply elem_of_app. left. exact HR'.
  - repeat split; auto.
Qed.

Lemma reach_extends (CGI : CodeGenInstruction) (F F' : Flattener) :
  reach CGI F F' -> extends F F'.
Proof.
  induction 1 as [|F F1 F2 Hp _ IH]; [apply extends_refl|].
  eapply extends_trans; [eapply prim_extends; exact Hp | exact IH].
Qed.

(** X5. Flattening only adds.  Whatever a tree, or a sequence of trees, is
    flattened into: the nodes emitted before are still there, at their
    places; a [DefNo] recorded for a named operand is never overwritten; an
    eliminated register stays eliminated; a constant keeps the non-zero
    index that it was given; and the node equivalences are not touched. *)
Theorem X5_flatten_extends (CGI : CodeGenInstruction) :
  (forall TPN Parent F F' P',
     flatten CGI TPN Parent F = Ok (F', P') -> extends F F')
  /\ (forall Trees F F',
        flatten_trees CGI Trees F = Ok F' -> extends F F').
Proof.
  split.
  - intros TPN Parent F F' P' H. apply (reach_extends CGI).
    eapply flatten_reach. exact H.
  - intros Trees F F' H. apply (reach_extends CGI).
    eapply flatten_trees_reach. exact H.
Qed.

Lemma X5_flatten_extends_witness :
  exists F F',
    F = mkFlattener (snd (intern 7 Sample.TPlain))
          [mkNodeSemantics "DCINS::GET_REG" [i32] ["X86::EAX"%string]]
          [Sample.EFLAGS] ∅ 1 []
    /\ flatten_trees Sample.CGI [Sample.AddRI; Sample.AddMM] F = Ok F'
    /\ extends F F'.
Proof.
  assert (H : exists F',
            flatten_trees Sample.CGI [Sample.AddRI; Sample.AddMM]
              (mkFlattener (snd (intern 7 Sample.TPlain))
                 [mkNodeSemantics "DCINS::GET_REG" [i32] ["X86::EAX"%string]]
                 [Sample.EFLAGS] ∅ 1 []) = Ok F').
  { eexists. vm_compute. reflexivity. }
  destruct H as [F' H].
  eexists _, F'. split; [reflexivity|]. split; [exact H|].
  apply (proj2 (X5_flatten_extends Sample.CGI) _ _ _ H).
Defined.

(** ** SDNodes without equivalent *)



(** ** The stores of a [set] *)

Lemma flattenSet_def_spec (CGI : CodeGenInstruction)
    (Children : list TreePatternNode) (First : Z) (i : nat)
    (F F' : Flattener) :
  flattenSet_def CGI Children First i F = Ok F' ->
  exists Child NS,
    Children !! i = Some Child
    /\ StoreNode CGI (utostr (wrap32 (First + Z.of_nat i))) Child NS
    /\ F' = addSemantics F NS.
Proof.
  unfold flattenSet_def, getChild.
  destruct (Children !! i) as [Child|]; [|discriminate]. simpl.
  destruct Child as [N Ts V|]; [|discriminate]. simpl.
  destruct V as [|R|]; try discriminate. simpl.
  destruct (asRegisterClass R) as [R'|] eqn:ER; [|discriminate]. simpl.
  destruct (isSubClassOf R' "RegisterClass") eqn:ERC.
  - destruct (getNamedOperand CGI N) as [OpInfo|] eqn:EN; [|discriminate].
    simpl. intros [= <-]. eexists _, _. split; [reflexivity|].
    split; [|reflexivity]. eapply Store_RC; eassumption.
  - destruct (isSubClassOf R' "Register") eqn:EReg; simpl; intros [= <-];
      eexists _, _; (split; [reflexivity|]); (split; [|reflexivity]).
    + eapply Store_Reg; eassumption.
    + eapply Store_other; eassumption.
Qed.

Lemma StoreNode_void (CGI : CodeGenInstruction) (Tok : string)
    (Child : TreePatternNode) (NS : NodeSemantics) :
  StoreNode CGI Tok Child NS -> Types NS = [isVoid].
Proof. intros []; reflexivity. Qed.

Lemma flattenSet_defs_spec (CGI : CodeGenInstruction)
    (Children : list TreePatternNode) (First : Z) (n : nat) :
  forall (i : nat) (F F' : Flattener),
    flattenSet_defs CGI Children First i n F = Ok F' ->
    exists Puts,
      appended F F' Puts
      /\ EliminatedImplicitRegs F' = EliminatedImplicitRegs F
      /\ length Puts = n
      /\ forall (k : nat) NS,
           Puts !! k = Some NS ->
           exists Child,
             Children !! (i + k)%nat = Some Child
             /\ StoreNode CGI (utostr (wrap32 (First + Z.of_nat (i + k))))
                  Child NS.
Proof.
  induction n as [|n IH]; intros i F F' H; simpl in H.
  - injection H as <-. exists []. unfold appended. rewrite app_nil_r.
    repeat split. intros k NS Hk. rewrite lookup_nil in Hk. discriminate.
  - destruct (flattenSet_def CGI Children First i F) as [F1|] eqn:E;
      [|discriminate].
    simpl in H.
    destruct (flattenSet_def_spec _ _ _ _ _ _ E) as (Child & NS & HC & HS & ->).
    destruct (IH _ _ _ H) as (Puts & (HSem & HD & HT & HO & HE) & HR & HL & Hall).
    exists (NS :: Puts). unfold appended. simpl in *.
    rewrite HSem, HD, HT, HO, HE, HR, (StoreNode_void _ _ _ _ HS).
    rewrite <- app_assoc. simpl. rewrite HL.
    repeat split.
    intros [|k] NS' Hk; simpl in Hk.
    + injection Hk as <-. exists Child. rewrite Nat.add_0_r.
      split; assumption.
    + replace (i + S k)%nat with (S i + k)%nat by lia. apply Hall. exact Hk.
Qed.

Lemma flattenSet_drops_frame (Children : list TreePatternNode) (n : nat) :
  forall (i : nat) (F F' : Flattener),
    flattenSet_drops Children i n F = Ok F' -> appended F F' [].
Proof.
  induction n as [|n IH]; intros i F F' H; simpl in H.
  - injection H as <-. unfold appended. rewrite app_nil_r. repeat split.
  - destruct (flattenSet_drop Children i F) as [F1|] eqn:E; [|discriminate].
    simpl in H. specialize (IH _ _ _ H).
    unfold flattenSet_drop in E.
    destruct (getChild Children i) as [Child|]; [|discriminate]. simpl in E.
    destruct (isLeaf Child); [|discriminate].
    destruct (getLeafValue Child) as [V|]; [|discriminate]. simpl in E.
    destruct (cast_DefInit V) as [OpRec|]; [|discriminate]. simpl in E.
    destruct (isSubClassOf OpRec "Register"); [|discriminate].
    injection E as <-. exact IH.
Qed.

(** X7. The stores of a [set].  When a [set] passes its arity check and its
    last child, flattened, hands [NumDefs] tokens up, [flattenSet] appends
    [NumDefs] nodes after the nodes of the last child, one for each of the
    first [NumDefs] destinations in their order, and nothing else; every
    such node has the types [[isVoid]], so [CurDefNo] stays where the last
    child left it.  The value that node [i] stores is
    [CurDefNo - NumDefs + i]: the tokens of the last child are counted, not
    read.  Every one of these destinations is a leaf that holds a record. *)
Theorem X7_set_stores (CGI : CodeGenInstruction) (TPN : TreePatternNode)
    (Children : list TreePatternNode) (LastChild : TreePatternNode)
    (F F1 F' : Flattener) (DummyNS : NodeSemantics) :
  last Children = Some LastChild ->
  Z.of_nat (length Children - 1) = getNumTypes LastChild ->
  flatten CGI LastChild (Some emptyNS) F = Ok (F1, Some DummyNS) ->
  flattenSet CGI (flatten CGI) TPN Children F = Ok F' ->
  exists Puts,
    appended F1 F' Puts
    /\ length Puts = length (Operands DummyNS)
    /\ (length (Operands DummyNS) <= length Children - 1)%nat
    /\ forall (i : nat) NS,
         Puts !! i = Some NS ->
         exists Child,
           Children !! i = Some Child
           /\ StoreNode CGI
                (utostr (wrap32 (CurDefNo F1
                                 - Z.of_nat (length (Operands DummyNS))
                                 + Z.of_nat i)))
                Child NS.
Proof.
  intros Hlast Harity HL HS.
  unfold flattenSet in HS. rewrite with_last_last, Hlast in HS.
  unfold flattenSet_body in HS.
  destruct (Z.eqb_spec (Z.of_nat (length Children - 1))
              (getNumTypes LastChild)) as [_|Hne]; [|contradiction].
  simpl in HS. rewrite HL in HS. simpl in HS.
  destruct (flattenSet_defs CGI Children _ 0 (length (Operands DummyNS)) F1)
    as [F2|] eqn:ED; [|discriminate].
  simpl in HS.
  destruct (Nat.leb_spec (length (Operands DummyNS)) (length Children - 1))
    as [Hle|_]; [|discriminate].
  apply flattenSet_drops_frame in HS.
  destruct (flattenSet_defs_spec _ _ _ _ _ _ _ ED)
    as (Puts & HA & _ & HLen & Hall).
  exists Puts. split.
  { destruct HA as (A1 & A2 & A3 & A4 & A5).
    destruct HS as (B1 & B2 & B3 & B4 & B5).
    unfold appended. rewrite B1, B2, B3, B4, B5, app_nil_r.
    repeat split; assumption. }
  split; [exact HLen|]. split; [exact Hle|].
  intros i NS Hi. destruct (Hall i NS Hi) as (Child & HC & HSt).
  exists Child. split; [exact HC|]. simpl in HSt.
  rewrite wrap32_idem_add in HSt. exact HSt.
Qed.

Lemma X7_set_stores_witness :
  exists F1 F' DummyNS Puts,
    flatten Sample.CGI
      (TPOp "" [i32] Sample.add
         [Sample.leaf "a" Sample.GPR; Sample.leaf "b" Sample.GPR])
      (Some emptyNS) (Flattener_new Sample.TPlain []) = Ok (F1, Some DummyNS)
    /\ Puts = [mkNodeSemantics "DCINS::PUT_RC" [isVoid] ["0"; "2"]%string]
    /\ appended F1 F' Puts
    /\ length Puts = length (Operands DummyNS)
    /\ (length (Operands DummyNS) <= 2 - 1)%nat
    /\ forall (i : nat) NS,
         Puts !! i = Some NS ->
         exists Child,
           [Sample.leaf "dst" Sample.GPR;
            TPOp "" [i32] Sample.add
              [Sample.leaf "a" Sample.GPR; Sample.leaf "b" Sample.GPR]] !! i
           = Some Child
           /\ StoreNode Sample.CGI
                (utostr (wrap32 (CurDefNo F1
                                 - Z.of_nat (length (Operands DummyNS))
                                 + Z.of_nat i)))
                Child NS.
Proof.
  pose (Last := TPOp "" [i32] Sample.add
                  [Sample.leaf "a" Sample.GPR; Sample.leaf "b" Sample.GPR]).
  pose (Children := [Sample.leaf "dst" Sample.GPR; Last]).
  pose (F := Flattener_new Sample.TPlain []).
  assert (HL : exists F1 DummyNS F',
            flatten Sample.CGI Last (Some emptyNS) F = Ok (F1, Some DummyNS)
            /\ flattenSet Sample.CGI (flatten Sample.CGI) Sample.AddRR
                 Children F = Ok F'
            /\ Semantics F' =
                 Semantics F1 ++
                 [mkNodeSemantics "DCINS::PUT_RC" [isVoid] ["0"; "2"]%string]).
  { eexists. eexists. eexists. split; [vm_compute; reflexivity|].
    split; [vm_compute; reflexivity|]. vm_compute. reflexivity. }
  destruct HL as (F1 & DummyNS & F' & HL & HS & HSem).
  destruct (X7_set_stores Sample.CGI Sample.AddRR Children Last F F1 F' DummyNS)
    as (Puts & HA & Hrest); [reflexivity | reflexivity | exact HL | exact HS |].
  exists F1, F', DummyNS, Puts. split; [exact HL|].
  split; [|split; [exact HA|exact Hrest]].
  destruct HA as (HA & _). rewrite HA in HSem.
  apply app_inv_head in HSem. exact HSem.
Defined.

(** ** The error stream *)

Section Diagnostics.

Variable CGI : CodeGenInstruction.

Lemma flattenOperand_errs (TPN : TreePatternNode)
    (Parent : option NodeSemantics) (OpInfo : OperandInfo)
    (F F' : Flattener) (P' : option NodeSemantics) :
  flattenOperand CGI TPN Parent OpInfo F = Ok (F', P') -> errs F' = errs F.
Proof.
  unfold flattenOperand.
  destruct (asRegisterClass (Rec OpInfo)) as [OpRec|]; [|discriminate].
  simpl.
  destruct (isSubClassOf OpRec "Operand").
  - destruct (String.eqb (OperandType OpInfo) "OPERAND_IMMEDIATE").
    + intros H. apply addResOperand_to_inv in H as [-> _].
      reflexivity.
    + destruct (OperandByName F !! Name OpInfo) as [DefNo|].
      * destruct Parent as [P|]; [|discriminate]. simpl. intros [= <- <-].
        reflexivity.
      * intros H. apply addResOperand_to_inv in H as [-> _].
        reflexivity.
  - destruct (isSubClassOf OpRec "RegisterClass"); [|discriminate].
    intros H. apply addResOperand_to_inv in H as [-> _].
    reflexivity.
Qed.

Lemma flattenLeaf_errs (TPN : TreePatternNode)
    (Parent : option NodeSemantics) (F F' : Flattener)
    (P' : option NodeSemantics) :
  flattenLeaf CGI TPN Parent F = Ok (F', P') -> errs F' = errs F.
Proof.
  unfold flattenLeaf.
  destruct (getLeafValue TPN) as [[Value|OpRec|]|]; simpl; try discriminate.
  - destruct (intern Value (Target F)) as [Idx T].
    intros H. apply addResOperand_to_inv in H as [-> _].
    reflexivity.
  - destruct (isSubClassOf OpRec "Register"); [|discriminate].
    intros H. apply addResOperand_to_inv in H as [-> _].
    reflexivity.
Qed.

Lemma flatten_children_errs (Children : list TreePatternNode) :
  Forall (flatten_silent CGI) Children ->
  forall NS F F' NS',
    flatten_children (flatten CGI) Children NS F = Ok (F', NS') ->
    errs F' = errs F.
Proof.
  induction 1 as [|C Cs HC _ IH]; intros NS F F' NS' H; simpl in H.
  - injection H as <- <-. reflexivity.
  - destruct (flatten CGI C (Some NS) F) as [[F1 P1]|] eqn:E; [|discriminate].
    simpl in H. rewrite (IH _ _ _ _ H). apply (HC _ _ _ _ E).
Qed.

Lemma flattenSDNode_errs (NumTypes : Z) (Operator : TGRecord)
    (Children : list TreePatternNode) (NS NS' : NodeSemantics)
    (F F' : Flattener) :
  Forall (flatten_silent CGI) Children ->
  flattenSDNode (flatten CGI) NumTypes Operator Children NS F = Ok (F', NS') ->
  errs F' = errs F.
Proof.
  intros IH H. unfold flattenSDNode in H.
  destruct (getValueAsString_Opcode Operator) as [Opc|]; [|discriminate].
  simpl in H. bind_ok H as NS0. simpl in H.
  apply (flatten_children_errs _ IH _ _ _ _ H).
Qed.

Lemma flatten_is_silent (TPN : TreePatternNode) : flatten_silent CGI TPN.
Proof.
  induction TPN as [N Ts V|N Ts Op Cs IH] using TreePatternNode_rect_children;
    intros P F F' P' H; simpl in H.
  - destruct (getNamedOperand CGI N) as [OpInfo|].
    + apply (flattenOperand_errs _ _ _ _ _ _ H).
    + apply (flattenLeaf_errs _ _ _ _ _ H).
  - destruct (getNamedOperand CGI N) as [OpInfo|].
    { apply (flattenOperand_errs _ _ _ _ _ _ H). }
    destruct (String.eqb (rec_Name Op) "set"); [discriminate|].
    fold (flatten CGI) in H.
    destruct (String.eqb (rec_Name Op) "implicit"); [discriminate|].
    destruct (isSubClassOf Op "SDNode"); [|discriminate].
    bind_ok H as [F1 NS] eqn:ESD. simpl in H. injection H as <- <-.
    simpl. apply (flattenSDNode_errs _ _ _ _ _ _ _ IH ESD).
Qed.

End Diagnostics.

(** X8. The only diagnostic.  Below a parent, [flatten] writes nothing to
    the error stream.  At the top level it writes nothing either, except for
    a [set] that fails its arity check, for which it writes the diagnostic
    of that check once; so the flattener reports no other fault than this
    one without stopping. *)
Theorem X8_only_arity_diagnostic (CGI : CodeGenInstruction)
    (TPN : TreePatternNode) :
  (forall P F F' P',
     flatten CGI TPN (Some P) F = Ok (F', P') -> errs F' = errs F)
  /\ (forall F F' P',
        flatten CGI TPN None F = Ok (F', P') ->
        errs F' = errs F
        \/ exists N Ts Op Cs LastChild,
             TPN = TPOp N Ts Op Cs
             /\ rec_Name Op = "set"%string
             /\ last Cs = Some LastChild
             /\ Z.of_nat (length Cs - 1) <> getNumTypes LastChild
             /\ errs F' =
                  errs F ++ SetMismatchDiag TPN (length Cs - 1) LastChild)
  /\ (forall F F',
        flatten_tree CGI TPN F = Ok F' ->
        exists D, errs F' = errs F ++ D
                  /\ (D = [] \/ exists n LastChild,
                                  D = SetMismatchDiag TPN n LastChild)).
Proof.
  assert (Hnone : forall F F' P',
    flatten CGI TPN None F = Ok (F', P') ->
    errs F' = errs F
    \/ exists N Ts Op Cs LastChild,
         TPN = TPOp N Ts Op Cs
         /\ rec_Name Op = "set"%string
         /\ last Cs = Some LastChild
         /\ Z.of_nat (length Cs - 1) <> getNumTypes LastChild
         /\ errs F' =
              errs F ++ SetMismatchDiag TPN (length Cs - 1) LastChild).
  { intros F F' P' H.
    destruct TPN as [N Ts V|N Ts Op Cs]; simpl in H.
    - left. destruct (getNamedOperand CGI N) as [OpInfo|].
      + apply (flattenOperand_errs _ _ _ _ _ _ _ H).
      + apply (flattenLeaf_errs _ _ _ _ _ _ H).
    - destruct (getNamedOperand CGI N) as [OpInfo|].
      { left. apply (flattenOperand_errs _ _ _ _ _ _ _ H). }
      destruct (String.eqb_spec (rec_Name Op) "set") as [Hset|_].
      { fold (flatten CGI) in H.
        destruct (flattenSet CGI (flatten CGI) (TPOp N Ts Op Cs) Cs F)
          as [F1|] eqn:ES; [|discriminate].
        simpl in H. injection H as <- <-.
        unfold flattenSet in ES. rewrite with_last_last in ES.
        destruct (last Cs) as [LastChild|] eqn:EL; [|discriminate].
        unfold flattenSet_body in ES.
        destruct (Z.eqb_spec (Z.of_nat (length Cs - 1))
                    (getNumTypes LastChild)) as [Heq|Hne]; simpl in ES.
        - left.
          destruct (flatten CGI LastChild (Some emptyNS) F) as [[F2 P2]|]
            eqn:E2; [|discriminate].
          simpl in ES. bind_ok ES as F3 eqn:ED. simpl in ES.
          destruct (_ <=? _)%nat; [|discriminate].
          apply flattenSet_drops_frame in ES as (_ & _ & _ & _ & ->).
          destruct (flattenSet_defs_spec _ _ _ _ _ _ _ ED)
            as (Puts & (_ & _ & _ & _ & ->) & _).
          apply (flatten_is_silent CGI _ _ _ _ _ E2).
        - right. injection ES as <-.
          exists N, Ts, Op, Cs, LastChild. repeat split; assumption. }
      left. fold (flatten CGI) in H.
      destruct (String.eqb (rec_Name Op) "implicit").
      { destruct (flattenImplicit CGI Cs _) as [NS|]; [|discriminate].
        simpl in H. injection H as <- <-. reflexivity. }
      destruct (isSubClassOf Op "SDNode"); [|discriminate].
      bind_ok H as [F1 NS] eqn:ESD. simpl in H. injection H as <- <-.
      simpl. apply (flattenSDNode_errs CGI _ _ _ _ _ _ _ ltac:(
        apply Forall_forall; intros C _; apply flatten_is_silent) ESD). }
  split; [apply flatten_is_silent|]. split; [exact Hnone|].
  intros F F'. unfold flatten_tree.
  destruct (flatten CGI TPN None F) as [[F1 P1]|] eqn:E; [|discriminate].
  simpl. intros [= <-].
  assert (Htail : forall Regs F0,
            errs (fold_left (fun F IRI => push_back F (ImplicitNS CGI IRI))
                    Regs F0) = errs F0).
  { induction Regs as [|R Regs IHR]; intros F0; simpl; [reflexivity|].
    rewrite IHR. reflexivity. }
  rewrite Htail.
  destruct (Hnone _ _ _ E) as [->|(N & Ts & Op & Cs & L & _ & _ & _ & _ & ->)].
  - exists []. rewrite app_nil_r. split; [reflexivity|left; reflexivity].
  - eexists. split; [reflexivity|]. right. eexists _, _. reflexivity.
Qed.

Lemma X8_only_arity_diagnostic_witness :
  exists F' D,
    flatten_tree Sample.CGI Sample.BadSet (Flattener_new Sample.TPlain [])
    = Ok F'
    /\ errs F' = [] ++ D
    /\ (D = [] \/ exists n LastChild,
                    D = SetMismatchDiag Sample.BadSet n LastChild).
Proof.
  assert (H : exists F',
            flatten_tree Sample.CGI Sample.BadSet
              (Flattener_new Sample.TPlain []) = Ok F').
  { eexists. vm_compute. reflexivity. }
  destruct H as [F' H].
  destruct (proj2 (proj2 (X8_only_arity_diagnostic Sample.CGI Sample.BadSet))
              _ _ H) as (D & HD & Hcase).
  exists F', D. split; [exact H|]. split; [exact HD|exact Hcase].
Defined.

(** ** The eliminated registers across trees *)

(** X9. The eliminated registers are never cleared between the trees of an
    instruction: a register that is eliminated when a tree is done has an
    [IMPLICIT] node in the tail of that tree and another one in the tail of
    the next tree. *)
Theorem X9_implicit_tail_repeats (CGI : CodeGenInstruction)
    (T1 T2 : TreePatternNode) (F F1 F2 : Flattener) (R : TGRecord) :
  flatten_tree CGI T1 F = Ok F1 ->
  flatten_tree CGI T2 F1 = Ok F2 ->
  R ∈ EliminatedImplicitRegs F1 ->
  exists A B C,
    Semantics F1 = A ++ ImplicitNS CGI R :: B
    /\ Semantics F2 = Semantics F1 ++ C
    /\ ImplicitNS CGI R ∈ C.
Proof.
  unfold flatten_tree. intros H1 H2 HR.
  destruct (flatten CGI T1 None F) as [[Fa Pa]|] eqn:Ea; [|discriminate].
  simpl in H1. injection H1 as <-.
  destruct (push_back_tail CGI (EliminatedImplicitRegs Fa) Fa)
    as (HS1 & HR1 & _). simpl in HS1, HR1.
  rewrite HR1 in HR.
  destruct (flatten CGI T2 None _) as [[Fb Pb]|] eqn:Eb; [|discriminate].
  simpl in H2. injection H2 as <-.
  destruct (push_back_tail CGI (EliminatedImplicitRegs Fb) Fb)
    as (HS2 & HR2 & _). simpl in HS2, HR2.
  pose proof (flatten_reach CGI _ _ _ _ _ Eb) as Hreach.
  destruct (reach_extends _ _ _ Hreach) as ([Mid HMid] & _ & Hkeep & _).
  specialize (Hkeep R). rewrite HR1 in Hkeep. specialize (Hkeep HR).
  apply list_elem_of_split in HR as (Ra & Rb & HRab).
  exists (Semantics Fa ++ map (ImplicitNS CGI) Ra), (map (ImplicitNS CGI) Rb),
    (Mid ++ map (ImplicitNS CGI) (EliminatedImplicitRegs Fb)).
  split; [|split].
  - rewrite HS1, HRab, map_app. simpl. rewrite <- app_assoc. reflexivity.
  - rewrite HS2, HMid. rewrite <- app_assoc. reflexivity.
  - apply elem_of_app. right. apply list_elem_of_fmap. exists R.
    split; [reflexivity|exact Hkeep].
Qed.

Lemma X9_implicit_tail_repeats_witness :
  exists F1 F2 A B C,
    flatten_tree Sample.CGI Sample.AddFlag (Flattener_new Sample.TEquiv [])
    = Ok F1
    /\ flatten_tree Sample.CGI Sample.AddRR F1 = Ok F2
    /\ Semantics F1 = A ++ ImplicitNS Sample.CGI Sample.EFLAGS :: B
    /\ Semantics F2 = Semantics F1 ++ C
    /\ ImplicitNS Sample.CGI Sample.EFLAGS ∈ C.
Proof.
  assert (H : exists F1 F2,
            flatten_tree Sample.CGI Sample.AddFlag
              (Flattener_new Sample.TEquiv []) = Ok F1
            /\ flatten_tree Sample.CGI Sample.AddRR F1 = Ok F2
            /\ EliminatedImplicitRegs F1 = [Sample.EFLAGS]).
  { eexists. eexists. split; [vm_compute; reflexivity|].
    split; [vm_compute; reflexivity|]. vm_compute. reflexivity. }
  destruct H as (F1 & F2 & H1 & H2 & HR).
  assert (Hin : Sample.EFLAGS ∈ EliminatedImplicitRegs F1)
    by (rewrite HR; left).
  pose proof (X9_implicit_tail_repeats Sample.CGI Sample.AddFlag Sample.AddRR
                (Flattener_new Sample.TEquiv []) F1 F2 Sample.EFLAGS H1 H2 Hin)
    as (A & B & C & Hrest).
  exists F1, F2, A, B, C. split; [exact H1|]. split; [exact H2|exact Hrest].
Defined.

(** ** The counter of defined values *)

Lemma countDefs_count (Ts : list SimpleValueType) :
  forall d : Z,
    countDefs Ts (wrap32 d) =
      wrap32 (d + Z.of_nat
                    (length (List.filter (fun T => negb (is_isVoid T)) Ts))).
Proof.
  unfold countDefs.
  induction Ts as [|T Ts IH]; intros d; simpl.
  - rewrite Z.add_0_r. reflexivity.
  - destruct (is_isVoid T); simpl.
    + apply IH.
    + rewrite wrap32_idem_add, IH. f_equal. lia.
Qed.

Lemma numDefs_snoc (Sema : list NodeSemantics) (NS : NodeSemantics) :
  numDefs (Sema ++ [NS]) = (numDefs Sema + definedBy NS)%nat.
Proof.
  unfold numDefs. rewrite map_app, list_sum_app. simpl. lia.
Qed.

Lemma addSemantics_defno (F : Flattener) (NS : NodeSemantics) :
  CurDefNo F = wrap32 (Z.of_nat (numDefs (Semantics F))) ->
  CurDefNo (addSemantics F NS) =
    wrap32 (Z.of_nat (numDefs (Semantics (addSemantics F NS)))).
Proof.
  intros H. simpl. rewrite H, countDefs_count, numDefs_snoc.
  f_equal. unfold definedBy. lia.
Qed.

Lemma reach_defno (CGI : CodeGenInstruction) (F F' : Flattener) :
  reach CGI F F' ->
  CurDefNo F = wrap32 (Z.of_nat (numDefs (Semantics F))) ->
  CurDefNo F' = wrap32 (Z.of_nat (numDefs (Semantics F'))).
Proof.
  apply (reach_invariant CGI
           (fun F => CurDefNo F = wrap32 (Z.of_nat (numDefs (Semantics F))))).
  clear. intros F F' [N OpInfo OpRec Ts F0 _ _ _|F0 NS _|F0 V|F0 R|F0 E] H;
    try exact H.
  - apply (addSemantics_defno
             (setOperandByName F0
                (<[Name OpInfo := CurDefNo F0]> (OperandByName F0)))).
    exact H.
  - apply addSemantics_defno. exact H.
Qed.

(** X10. The counter of defined values counts the results of the block:
    after the trees of an instruction are flattened, whatever they are,
    [CurDefNo] is the number of type entries other than [isVoid] over all
    nodes of the block, as an [unsigned]. *)
Theorem X10_CurDefNo_counts_results (T : SemanticsTarget) (E : list Diag)
    (CGI : CodeGenInstruction) (TP : list TreePatternNode) (F : Flattener) :
  InstSemantics_new T E CGI TP = Ok F ->
  CurDefNo F = wrap32 (Z.of_nat (numDefs (Semantics F)))
  /\ (Z.of_nat (numDefs (Semantics F)) < 2 ^ 32 ->
      CurDefNo F = Z.of_nat (numDefs (Semantics F))).
Proof.
  unfold InstSemantics_new. intros H.
  apply flatten_trees_reach in H. apply reach_defno in H; [|reflexivity].
  split; [exact H|]. intros Hlt. rewrite H. apply wrap32_small. lia.
Qed.

Lemma X10_CurDefNo_counts_results_witness :
  exists F,
    InstSemantics_new Sample.TPlain [] Sample.CGI [Sample.AddRR] = Ok F
    /\ numDefs (Semantics F) = 3%nat
    /\ CurDefNo F = wrap32 (Z.of_nat (numDefs (Semantics F)))
    /\ (Z.of_nat (numDefs (Semantics F)) < 2 ^ 32 ->
        CurDefNo F = Z.of_nat (numDefs (Semantics F))).
Proof.
  assert (H : exists F,
            InstSemantics_new Sample.TPlain [] Sample.CGI [Sample.AddRR] = Ok F
            /\ numDefs (Semantics F) = 3%nat).
  { eexists. split; [vm_compute; reflexivity|]. vm_compute. reflexivity. }
  destruct H as (F & H & Hn).
  exists F. split; [exact H|]. split; [exact Hn|].
  apply (X10_CurDefNo_counts_results _ _ _ _ _ H).
Defined.

(** ** Operands name values that are defined *)

Lemma numDefs_app (A B : list NodeSemantics) :
  numDefs (A ++ B) = (numDefs A + numDefs B)%nat.
Proof. unfold numDefs. rewrite map_app, list_sum_app. reflexivity. Qed.

Lemma numDefs_prefix (A B : list NodeSemantics) :
  A `prefix_of` B -> (numDefs A <= numDefs B)%nat.
Proof. intros [k ->]. rewrite numDefs_app. lia. Qed.

Lemma hands_up_mono (Sema Sema' : list NodeSemantics) (P P' : NodeSemantics)
    (ds : list Z) :
  Sema `prefix_of` Sema' -> hands_up Sema P P' ds -> hands_up Sema' P P' ds.
Proof.
  intros Hpre [HP Hds]. split; [exact HP|].
  apply numDefs_prefix in Hpre.
  eapply Forall_impl; [exact Hds|]. simpl. intros d Hd. lia.
Qed.

Lemma addSemantics_defs_ok (F : Flattener) (NS : NodeSemantics) :
  defs_ok F ->
  Z.of_nat (numDefs (Semantics F ++ [NS])) < 2 ^ 32 ->
  defs_ok (addSemantics F NS).
Proof.
  intros [HD HO] Hlt. split.
  - rewrite addSemantics_defno.
    + simpl. apply wrap32_small. lia.
    + rewrite HD. symmetry. apply wrap32_small.
      rewrite numDefs_app in Hlt. lia.
  - simpl. intros N d H. specialize (HO N d H).
    rewrite numDefs_app. lia.
Qed.

(** [addResOperand] for a child with at most one type entry. *)
Lemma addResOperand_defined (F : Flattener) (P Prev : NodeSemantics) :
  (length (Types Prev) <= 1)%nat ->
  defs_ok F ->
  Z.of_nat (numDefs (Semantics F ++ [Prev])) < 2 ^ 32 ->
  defs_ok (fst (addResOperand F P Prev))
  /\ exists ds,
       hands_up (Semantics F ++ [Prev]) P (snd (addResOperand F P Prev)) ds
       /\ (ds = [] \/ ds = [Z.of_nat (numDefs (Semantics F ++ [Prev])) - 1]).
Proof.
  intros HT Hok Hlt.
  split; [apply addSemantics_defs_ok; assumption|].
  unfold addResOperand. simpl. rewrite addResOperands_tokens.
  destruct Hok as [HD _].
  rewrite numDefs_app in Hlt.
  destruct (Types Prev) as [|T [|T' Ts]] eqn:ET; [| |simpl in HT; lia].
  - exists []. split; [split; [reflexivity|constructor]|left; reflexivity].
  - simpl. destruct (is_isVoid T) eqn:EV.
    + exists []. split; [split; [reflexivity|constructor]|left; reflexivity].
    + assert (Hone : numDefs (Semantics F ++ [Prev])
                     = (numDefs (Semantics F) + 1)%nat).
      { rewrite numDefs_app. f_equal.
        change (numDefs [Prev]) with (definedBy Prev + 0)%nat.
        unfold definedBy. rewrite ET. simpl. rewrite EV. reflexivity. }
      exists [CurDefNo F]. split; [split|].
      * simpl. rewrite Z.sub_0_r, Z.add_0_r.
        rewrite !(wrap32_small (CurDefNo F)) by lia. reflexivity.
      * repeat constructor; [lia|]. rewrite Hone. lia.
      * right. rewrite Hone, HD. f_equal. lia.
Qed.

Lemma NodeTypes_length (Ts : list SimpleValueType) :
  (length Ts <= 1)%nat -> (length (NodeTypes Ts) <= 1)%nat.
Proof. destruct Ts as [|T [|T' Ts]]; simpl; lia. Qed.

Lemma setNSTypeFromNode_NodeTypes (TPN : TreePatternNode) :
  setNSTypeFromNode emptyNS TPN =
    mkNodeSemantics EmptyString (NodeTypes (getExtTypes TPN)) [].
Proof.
  unfold setNSTypeFromNode, getNumTypes.
  destruct (getExtTypes TPN); reflexivity.
Qed.

Lemma numDefs_void (More : list NodeSemantics) :
  Forall (fun NS => Types NS = [isVoid]) More -> numDefs More = 0%nat.
Proof.
  induction 1 as [|NS More HNS _ IH]; [reflexivity|].
  change (numDefs (NS :: More)) with (definedBy NS + numDefs More)%nat.
  rewrite IH. unfold definedBy. rewrite HNS. reflexivity.
Qed.

Lemma appended_defs_ok (F F' : Flattener) (More : list NodeSemantics) :
  appended F F' More ->
  Forall (fun NS => Types NS = [isVoid]) More ->
  defs_ok F -> defs_ok F'.
Proof.
  intros (HS & HD & _ & HO & _) Hvoid [H1 H2]. unfold defs_ok.
  rewrite HS, HD, HO, numDefs_app, (numDefs_void _ Hvoid), Nat.add_0_r.
  split; assumption.
Qed.

Section Numbering.

Variable CGI : CodeGenInstruction.

Lemma finish_defined (F F0 F' : Flattener)
    (Parent P' : option NodeSemantics) (Op : NodeSemantics) :
  (length (Types Op) <= 1)%nat -> defs_ok F0 ->
  addResOperand_to F0 Parent Op = Ok (F', P') ->
  Z.of_nat (numDefs (Semantics F')) < 2 ^ 32 ->
  defs_ok F'
  /\ forall P, Parent = Some P ->
       exists P1 ds,
         P' = Some P1 /\ hands_up (Semantics F') P P1 ds
         /\ last_value F F' ds.
Proof.
  intros HT Hok H Hlt. destruct Parent as [P|].
  2:{ apply addResOperand_to_inv in H as (-> & _). split; [|discriminate].
      apply addSemantics_defs_ok; [exact Hok|exact Hlt]. }
  simpl in H. injection H as <- <-. simpl in Hlt.
  destruct (addResOperand_defined F0 P Op HT Hok Hlt)
    as [Hok' [ds [Hds Hlast]]].
  split; [exact Hok'|]. intros Q [= <-]. eexists _, ds.
  split; [reflexivity|]. split; [exact Hds|right; exact Hlast].
Qed.

Lemma flattenOperand_defined (TPN : TreePatternNode)
    (Parent : option NodeSemantics) (OpInfo : OperandInfo)
    (F F' : Flattener) (P' : option NodeSemantics) :
  (exists T, getExtTypes TPN = [T] /\ T <> isVoid) ->
  defs_ok F ->
  flattenOperand CGI TPN Parent OpInfo F = Ok (F', P') ->
  Z.of_nat (numDefs (Semantics F')) < 2 ^ 32 ->
  defs_ok F'
  /\ forall P, Parent = Some P ->
       exists P1 ds,
         P' = Some P1 /\ hands_up (Semantics F') P P1 ds
         /\ last_value F F' ds.
Proof.
  intros (T & HT & HTv) Hok. unfold flattenOperand.
  destruct (asRegisterClass (Rec OpInfo)) as [OpRec|]; [|discriminate].
  simpl. rewrite setNSTypeFromNode_NodeTypes, HT. simpl NodeTypes.
  destruct (isSubClassOf OpRec "Operand").
  - destruct (String.eqb (OperandType OpInfo) "OPERAND_IMMEDIATE").
    + intros H Hlt. refine (finish_defined F _ _ _ _ _ _ Hok H Hlt). simpl. lia.
    + destruct (OperandByName F !! Name OpInfo) as [DefNo|] eqn:EN.
      * destruct Parent as [P|]; [|discriminate]. simpl.
        intros [= <- <-] Hlt. split; [exact Hok|].
        intros Q [= <-]. exists (addOperand P (utostr DefNo)), [DefNo].
        split; [reflexivity|]. split; [|left; reflexivity].
        split; [reflexivity|].
        repeat constructor; apply (proj2 Hok _ _ EN).
      * intros H Hlt.
        destruct Parent as [P|];
          [|exfalso; unfold addResOperand_to in H; simpl in H;
            destruct T; (discriminate || contradiction)].
        simpl in H. injection H as <- <-. simpl in Hlt.
        set (Op := addOperand _ _) in *.
        set (F0 := setOperandByName F _) in *.
        assert (HTOp : Types Op = [T]) by reflexivity.
        assert (Hdef : definedBy Op = 1%nat).
        { unfold definedBy. rewrite HTOp. simpl.
          destruct T; (reflexivity || contradiction). }
        pose proof Hok as [HD HO].
        assert (Hok' : defs_ok (addSemantics F0 Op)).
        { split.
          - apply (proj1 (addSemantics_defs_ok F Op Hok Hlt)).
          - simpl. intros N d. rewrite numDefs_app.
            rewrite lookup_insert. case_decide as HN.
            + intros [= <-]. rewrite HD.
              change (numDefs [Op]) with (definedBy Op + 0)%nat.
              rewrite Hdef. lia.
            + intros Hd. specialize (HO N d Hd). lia. }
        split; [exact Hok'|]. intros Q [= <-].
        destruct (addResOperand_defined F P Op ltac:(rewrite HTOp; simpl; lia)
                    Hok Hlt) as [_ [ds [Hds Hlast]]].
        eexists _, ds. split; [reflexivity|].
        split; [exact Hds|right; exact Hlast].
  - destruct (isSubClassOf OpRec "RegisterClass"); [|discriminate].
    intros H Hlt. refine (finish_defined F _ _ _ _ _ _ Hok H Hlt). simpl. lia.
Qed.

Lemma flattenLeaf_defined (TPN : TreePatternNode)
    (Parent : option NodeSemantics) (F F' : Flattener)
    (P' : option NodeSemantics) :
  (length (getExtTypes TPN) <= 1)%nat ->
  defs_ok F ->
  flattenLeaf CGI TPN Parent F = Ok (F', P') ->
  Z.of_nat (numDefs (Semantics F')) < 2 ^ 32 ->
  defs_ok F'
  /\ forall P, Parent = Some P ->
       exists P1 ds,
         P' = Some P1 /\ hands_up (Semantics F') P P1 ds
         /\ last_value F F' ds.
Proof.
  intros HT Hok. unfold flattenLeaf.
  pose proof (NodeTypes_length _ HT) as HNT.
  destruct (getLeafValue TPN) as [[Value|OpRec|]|]; simpl; try discriminate.
  - rewrite setNSTypeFromNode_NodeTypes.
    destruct (intern Value (Target F)) as [Idx T]. intros H Hlt.
    refine (finish_defined F (setTarget F T) _ _ _ _ _ Hok H Hlt). exact HNT.
  - rewrite setNSTypeFromNode_NodeTypes.
    destruct (isSubClassOf OpRec "Register"); [|discriminate]. intros H Hlt.
    refine (finish_defined F F _ _ _ _ _ Hok H Hlt). exact HNT.
Qed.

Lemma flatten_children_defined (Children : list TreePatternNode) :
  Forall (flatten_defines CGI) Children ->
  forall NS F F' NS',
    Forall (single_valued CGI) Children -> defs_ok F ->
    flatten_children (flatten CGI) Children NS F = Ok (F', NS') ->
    Z.of_nat (numDefs (Semantics F')) < 2 ^ 32 ->
    defs_ok F'
    /\ Semantics F `prefix_of` Semantics F'
    /\ exists ds, hands_up (Semantics F') NS NS' ds.
Proof.
  induction 1 as [|C Cs HC _ IH]; intros NS F F' NS' Hsv Hok H Hlt;
    simpl in H.
  - injection H as <- <-. split; [exact Hok|]. split; [reflexivity|].
    exists []. split; [symmetry; apply addOperands_nil|constructor].
  - apply Forall_cons in Hsv as [HsvC HsvCs].
    destruct (flatten CGI C (Some NS) F) as [[F1 P1]|] eqn:E; [|discriminate].
    simpl in H.
    assert (Hpre1 : Semantics F `prefix_of` Semantics F1).
    { apply (reach_extends CGI). eapply flatten_reach. exact E. }
    assert (Hpre2 : Semantics F1 `prefix_of` Semantics F').
    { assert (Hall : Forall (flatten_reaches CGI) Cs)
        by (apply Forall_forall; intros x _; apply flatten_reach).
      destruct (flatten_children_reach CGI Cs Hall _ _ _ _ H) as [Hr _].
      apply (reach_extends CGI). exact Hr. }
    assert (Hlt1 : Z.of_nat (numDefs (Semantics F1)) < 2 ^ 32).
    { apply numDefs_prefix in Hpre2. lia. }
    destruct (HC _ _ _ _ HsvC Hok E Hlt1) as [Hok1 Hup].
    destruct (Hup NS eq_refl) as (Q & ds1 & -> & Hds1 & _).
    simpl in H.
    destruct (IH _ _ _ _ HsvCs Hok1 H Hlt) as (Hok' & _ & ds2 & Hds2).
    split; [exact Hok'|]. split; [etransitivity; eassumption|].
    exists (ds1 ++ ds2).
    apply (hands_up_mono _ _ _ _ _ Hpre2) in Hds1.
    destruct Hds1 as [-> Hf1]. destruct Hds2 as [-> Hf2].
    split.
    + rewrite addOperands_app, map_app. reflexivity.
    + apply Forall_app. split; assumption.
Qed.

Lemma flattenSDNode_defined (N : string) (Ts : list SimpleValueType)
    (Operator : TGRecord) (Children : list TreePatternNode)
    (F F1 : Flattener) (NS : NodeSemantics) :
  Forall (flatten_defines CGI) Children ->
  Forall (single_valued CGI) Children ->
  (length Ts <= 1)%nat -> defs_ok F ->
  flattenSDNode (flatten CGI) (getNumTypes (TPOp N Ts Operator Children))
    Operator Children
    (setNSTypeFromNode emptyNS (TPOp N Ts Operator Children)) F = Ok (F1, NS) ->
  Z.of_nat (numDefs (Semantics F1)) < 2 ^ 32 ->
  defs_ok F1
  /\ Semantics F `prefix_of` Semantics F1
  /\ (length (Types NS) <= 1)%nat
  /\ exists ds,
       Operands NS = map utostr ds
       /\ Forall (fun d => 0 <= d < Z.of_nat (numDefs (Semantics F1))) ds.
Proof.
  intros IH Hsv HT Hok H Hlt. unfold flattenSDNode in H.
  destruct (getValueAsString_Opcode Operator) as [Opc|]; [|discriminate].
  simpl in H. rewrite setNSTypeFromNode_NodeTypes in H. simpl in H.
  bind_ok H as NS0 eqn:ENS. simpl in H.
  assert (HNS0 : Operands NS0 = [] /\ (length (Types NS0) <= 1)%nat).
  { pose proof (NodeTypes_length _ HT) as HNT.
    destruct (SDNodeEquiv (Target F) !! rec_ID Operator) as [EquivNode|].
    - destruct (getSDNodeInfo (Target F) EquivNode) as [SDNI|];
        [|discriminate].
      simpl in ENS. unfold pop_back_n in ENS.
      destruct (_ <=? _); [|discriminate]. simpl in ENS.
      injection ENS as <-. simpl. split; [reflexivity|].
      rewrite length_take. lia.
    - injection ENS as <-. simpl. split; [reflexivity|exact HNT]. }
  destruct HNS0 as [HOps HTs].
  destruct (flatten_children_defined Children IH _ _ _ _ Hsv Hok H Hlt)
    as (Hok1 & Hpre & ds & -> & Hds).
  split; [exact Hok1|]. split; [exact Hpre|]. split; [exact HTs|].
  exists ds. simpl. rewrite HOps. split; [reflexivity|exact Hds].
Qed.

Lemma single_valued_inv (TPN : TreePatternNode) :
  single_valued CGI TPN ->
  types_ok CGI (getName TPN) (getExtTypes TPN)
  /\ match TPN with
     | TPLeaf _ _ _ => True
     | TPOp _ _ _ Cs => Forall (single_valued CGI) Cs
     end.
Proof. intros [N Ts V H|N Ts Op Cs H HCs]; simpl; split; auto. Qed.

Lemma flatten_defined (TPN : TreePatternNode) : flatten_defines CGI TPN.
Proof.
  induction TPN as [N Ts V|N Ts Op Cs IH] using TreePatternNode_rect_children;
    intros Parent F F' P' Hsv Hok H Hlt; simpl in H;
    apply single_valued_inv in Hsv as [[HT Hnamed] HCs]; simpl in HT, Hnamed.
  - destruct (getNamedOperand CGI N) as [OpInfo|] eqn:EN.
    + assert (HTs : exists T, Ts = [T] /\ T <> isVoid)
        by (apply Hnamed; discriminate).
      exact (flattenOperand_defined (TPLeaf N Ts V) _ _ _ _ _ HTs Hok H Hlt).
    + exact (flattenLeaf_defined (TPLeaf N Ts V) _ _ _ _ HT Hok H Hlt).
  - destruct (getNamedOperand CGI N) as [OpInfo|] eqn:EN.
    { assert (HTs : exists T, Ts = [T] /\ T <> isVoid)
        by (apply Hnamed; discriminate).
      exact (flattenOperand_defined (TPOp N Ts Op Cs) _ _ _ _ _ HTs Hok H
               Hlt). }
    destruct (String.eqb (rec_Name Op) "set").
    { destruct Parent as [P|]; [discriminate|].
      fold (flatten CGI) in H.
      destruct (flattenSet CGI (flatten CGI) (TPOp N Ts Op Cs) Cs F)
        as [F1|] eqn:ES; [|discriminate].
      simpl in H. injection H as <- <-.
      split; [|discriminate].
      unfold flattenSet in ES.
      apply with_last_elem in ES as (LastChild & _ & Hin & ES).
      unfold flattenSet_body in ES.
      destruct (negb _).
      { injection ES as <-. exact Hok. }
      destruct (flatten CGI LastChild (Some emptyNS) F) as [[F2 P2]|] eqn:EL;
        [|discriminate].
      simpl in ES.
      bind_ok ES as F3 eqn:ED. simpl in ES.
      destruct (_ <=? _)%nat; [|discriminate].
      destruct (flattenSet_defs_spec _ _ _ _ _ _ _ ED)
        as (Puts & HA & _ & _ & Hall).
      apply flattenSet_drops_frame in ES.
      assert (Hlt2 : Z.of_nat (numDefs (Semantics F2)) < 2 ^ 32).
      { destruct HA as (HS3 & _). destruct ES as (HS1 & _).
        rewrite HS1, HS3, app_nil_r, numDefs_app in Hlt. lia. }
      rewrite Forall_forall in IH, HCs.
      destruct (IH _ Hin _ _ _ _ (HCs _ Hin) Hok EL Hlt2) as [Hok2 _].
      apply (appended_defs_ok _ _ _ ES); [constructor|].
      apply (appended_defs_ok _ _ _ HA); [|exact Hok2].
      apply Forall_lookup. intros k NS Hk.
      destruct (Hall k NS Hk) as (Child & _ & HSt).
      eapply StoreNode_void. exact HSt. }
    fold (flatten CGI) in H.
    destruct (String.eqb (rec_Name Op) "implicit").
    { destruct Parent as [P|]; [discriminate|].
      destruct (flattenImplicit CGI Cs
                  (setNSTypeFromNode emptyNS (TPOp N Ts Op Cs)))
        as [NS|] eqn:EI; [|discriminate].
      simpl in H. injection H as <- <-.
      split; [|discriminate].
      apply addSemantics_defs_ok; [exact Hok | exact Hlt]. }
    destruct (isSubClassOf Op "SDNode"); [|discriminate].
    bind_ok H as [F1 NS] eqn:ESD. simpl in H.
    assert (Hpre : Semantics F1 `prefix_of` Semantics F').
    { destruct Parent as [P|]; injection H as <- <-; simpl;
        apply prefix_app_r; reflexivity. }
    assert (Hlt1 : Z.of_nat (numDefs (Semantics F1)) < 2 ^ 32).
    { apply numDefs_prefix in Hpre. lia. }
    destruct (flattenSDNode_defined _ _ _ _ _ _ _ IH HCs HT Hok ESD Hlt1)
      as (Hok1 & _ & HTs & _).
    destruct Parent as [P|]; injection H as <- <-.
    + simpl in Hlt.
      destruct (addResOperand_defined F1 P NS HTs Hok1 Hlt)
        as [Hok' [ds [Hds Hlast]]].
      split; [exact Hok'|]. intros Q [= <-]. eexists _, ds.
      split; [reflexivity|]. split; [exact Hds|right; exact Hlast].
    + split; [|discriminate]. apply addSemantics_defs_ok; assumption.
Qed.

End Numbering.

Lemma push_back_defs_ok (CGI : CodeGenInstruction) (Regs : list TGRecord) :
  forall F,
    defs_ok F ->
    defs_ok (fold_left (fun F IRI => push_back F (ImplicitNS CGI IRI)) Regs F).
Proof.
  induction Regs as [|R Regs IH]; intros F Hok; simpl; [exact Hok|].
  apply IH. destruct Hok as [HD HO]. unfold defs_ok. simpl.
  rewrite numDefs_app. change (numDefs [ImplicitNS CGI R]) with 0%nat.
  rewrite Nat.add_0_r. split; assumption.
Qed.

Lemma flatten_trees_defined (CGI : CodeGenInstruction)
    (Trees : list TreePatternNode) :
  forall F F',
    Forall (single_valued CGI) Trees -> defs_ok F ->
    flatten_trees CGI Trees F = Ok F' ->
    Z.of_nat (numDefs (Semantics F')) < 2 ^ 32 ->
    defs_ok F'.
Proof.
  induction Trees as [|T Trees IH]; intros F F' Hsv Hok H Hlt; simpl in H.
  - injection H as <-. exact Hok.
  - apply Forall_cons in Hsv as [HsvT Hsv].
    destruct (flatten_tree CGI T F) as [F1|] eqn:E; [|discriminate].
    simpl in H.
    assert (Hlt1 : Z.of_nat (numDefs (Semantics F1)) < 2 ^ 32).
    { apply flatten_trees_reach, reach_extends in H.
      destruct H as (Hpre & _). apply numDefs_prefix in Hpre. lia. }
    apply (IH _ _ Hsv) in H; [exact H| |exact Hlt].
    unfold flatten_tree in E.
    destruct (flatten CGI T None F) as [[Fa Pa]|] eqn:Ea; [|discriminate].
    simpl in E. injection E as <-.
    apply push_back_defs_ok.
    destruct (push_back_tail CGI (EliminatedImplicitRegs Fa) Fa)
      as (HS & _ & _). simpl in HS.
    apply (flatten_defined CGI T None F Fa Pa HsvT Hok Ea).
    rewrite HS, numDefs_app in Hlt1. lia.
Qed.

(** X11. Operands name values that are defined.  The trees are those in
    which every node has at most one type and every node that carries the
    name of an operand of the instruction has exactly one type, which is
    not [isVoid] ([single_valued]); the second condition is needed: the
    [DefNo] recorded for a custom operand without result is the number of
    no result.  For such trees, started where the counter stands at the
    number of results of the block and the recorded [DefNo]s are below it,
    and as long as the block defines fewer than [2^32] values:
    (1) every token that a call of [flatten] hands to its parent is the
    number of a result that the block has defined by then, and the counter
    and the recorded [DefNo]s stay as described; a call that has appended a
    node hands up no token, or one: the number of the result defined last;
    (2) the node of an SDNode is appended after the nodes of its children,
    and each of its operands is the number of a result defined before it;
    (3) the same holds of the flattener after all trees of an instruction. *)
Theorem X11_operands_are_defined (CGI : CodeGenInstruction) :
  (forall TPN P F F' P',
     single_valued CGI TPN -> defs_ok F ->
     flatten CGI TPN (Some P) F = Ok (F', P') ->
     Z.of_nat (numDefs (Semantics F')) < 2 ^ 32 ->
     defs_ok F'
     /\ exists P1 ds,
          P' = Some P1 /\ hands_up (Semantics F') P P1 ds
          /\ last_value F F' ds)
  /\ (forall N Ts Op Cs Parent F F' P',
        single_valued CGI (TPOp N Ts Op Cs) -> defs_ok F ->
        getNamedOperand CGI N = None ->
        rec_Name Op <> "set"%string -> rec_Name Op <> "implicit"%string ->
        flatten CGI (TPOp N Ts Op Cs) Parent F = Ok (F', P') ->
        Z.of_nat (numDefs (Semantics F')) < 2 ^ 32 ->
        exists F1 NS ds,
          Semantics F' = Semantics F1 ++ [NS]
          /\ Semantics F `prefix_of` Semantics F1
          /\ Operands NS = map utostr ds
          /\ Forall (fun d => 0 <= d < Z.of_nat (numDefs (Semantics F1))) ds)
  /\ (forall T E TP F,
        Forall (single_valued CGI) TP ->
        InstSemantics_new T E CGI TP = Ok F ->
        Z.of_nat (numDefs (Semantics F)) < 2 ^ 32 ->
        defs_ok F).
Proof.
  split; [|split].
  - intros TPN P F F' P' Hsv Hok H Hlt.
    destruct (flatten_defined CGI TPN _ _ _ _ Hsv Hok H Hlt) as [Hok' Hup].
    split; [exact Hok'|]. apply Hup. reflexivity.
  - intros N Ts Op Cs Parent F F' P' Hsv Hok HN Hset Himp H Hlt.
    apply single_valued_inv in Hsv as [[HT _] HCs]. simpl in HT.
    simpl in H. rewrite HN in H.
    apply String.eqb_neq in Hset, Himp. rewrite Hset, Himp in H.
    fold (flatten CGI) in H.
    destruct (isSubClassOf Op "SDNode"); [|discriminate].
    bind_ok H as [F1 NS] eqn:ESD. simpl in H.
    assert (HS : Semantics F' = Semantics F1 ++ [NS]).
    { destruct Parent as [P|]; injection H as <- <-; reflexivity. }
    assert (Hlt1 : Z.of_nat (numDefs (Semantics F1)) < 2 ^ 32).
    { rewrite HS, numDefs_app in Hlt. lia. }
    assert (IH : Forall (flatten_defines CGI) Cs).
    { apply Forall_forall. intros C _. apply flatten_defined. }
    destruct (flattenSDNode_defined CGI _ _ _ _ _ _ _ IH HCs HT Hok ESD Hlt1)
      as (_ & Hpre & _ & ds & HOps & Hds).
    exists F1, NS, ds. repeat split; assumption.
  - intros T E TP F Hsv H Hlt. unfold InstSemantics_new in H.
    apply (flatten_trees_defined CGI TP _ _ Hsv) in H; [exact H| |exact Hlt].
    split; [reflexivity|]. simpl. intros N d Hd.
    rewrite lookup_empty in Hd. discriminate.
Qed.

Lemma Sample_types_ok (N : string) (T : SimpleValueType) :
  T <> isVoid -> types_ok Sample.CGI N [T].
Proof.
  intros HT. split; [simpl; lia|]. intros _. exists T. split; [reflexivity|exact HT].
Qed.

Lemma Sample_AddMM_single_valued : single_valued Sample.CGI Sample.AddMM.
Proof.
  apply sv_op.
  - split; [simpl; lia|]. intros H. exfalso. apply H. reflexivity.
  - repeat (apply Forall_cons_2 || apply Forall_nil_2).
    + apply sv_leaf. apply Sample_types_ok. discriminate.
    + apply sv_op; [apply Sample_types_ok; discriminate|].
      repeat (apply Forall_cons_2 || apply Forall_nil_2);
        apply sv_leaf; apply Sample_types_ok; discriminate.
Qed.

Lemma X11_operands_are_defined_witness :
  exists F,
    InstSemantics_new Sample.TPlain [] Sample.CGI [Sample.AddMM] = Ok F
    /\ OperandByName F !! "addr"%string = Some 0
    /\ numDefs (Semantics F) = 2%nat
    /\ defs_ok F.
Proof.
  assert (H : exists F,
            InstSemantics_new Sample.TPlain [] Sample.CGI [Sample.AddMM] = Ok F
            /\ OperandByName F !! "addr"%string = Some 0
            /\ numDefs (Semantics F) = 2%nat).
  { eexists. split; [vm_compute; reflexivity|].
    split; [vm_compute; reflexivity|]. vm_compute. reflexivity. }
  destruct H as (F & H & HO & Hn).
  exists F. split; [exact H|]. split; [exact HO|]. split; [exact Hn|].
  apply (proj2 (proj2 (X11_operands_are_defined Sample.CGI))
           Sample.TPlain [] [Sample.AddMM] F).
  - apply Forall_cons_2; [exact Sample_AddMM_single_valued|apply Forall_nil_2].
  - exact H.
  - rewrite Hn. reflexivity.
Defined.

(** ** What a [set] stores *)

(** A [set] with one destination, once its source is flattened. *)
Lemma flattenSet_one (CGI : CodeGenInstruction) (TPN Dst Src : TreePatternNode)
    (F F1 F' : Flattener) (DummyNS : NodeSemantics) :
  getNumTypes Src = 1 ->
  flatten CGI Src (Some emptyNS) F = Ok (F1, Some DummyNS) ->
  flattenSet CGI (flatten CGI) TPN [Dst; Src] F = Ok F' ->
  (Operands DummyNS = [] -> Semantics F' = Semantics F1)
  /\ (forall Tok, Operands DummyNS = [Tok] ->
        exists NS,
          Semantics F' = Semantics F1 ++ [NS]
          /\ StoreNode CGI (utostr (wrap32 (CurDefNo F1 - 1))) Dst NS).
Proof.
  intros HT HL HS. unfold flattenSet in HS. simpl in HS.
  unfold flattenSet_body in HS. simpl in HS. rewrite HT in HS. simpl in HS.
  rewrite HL in HS. simpl in HS.
  split.
  - intros HO. rewrite HO in HS. simpl in HS.
    apply (flattenSet_drops_frame [Dst; Src] 1 0) in HS.
    destruct HS as (HSem & _). rewrite HSem, app_nil_r. reflexivity.
  - intros Tok HO. rewrite HO in HS. simpl in HS.
    destruct (flattenSet_def CGI [Dst; Src] _ 0 F1) as [F2|] eqn:ED;
      [|discriminate].
    simpl in HS. injection HS as <-.
    destruct (flattenSet_def_spec _ _ _ _ _ _ ED) as (Child & NS & HC & HSt & ->).
    simpl in HC. injection HC as <-.
    exists NS. split; [reflexivity|].
    simpl in HSt. rewrite wrap32_idem_add, Z.add_0_r in HSt. exact HSt.
Qed.

(** X12. What a [set] stores.  For a [set] with one destination whose source
    is a tree of nodes with at most one type (exactly one, not [isVoid],
    where a node names an operand of the instruction: [single_valued]),
    flattened where the counter and the recorded [DefNo]s are sound, in a
    block of fewer than [2^32] values: when flattening the source has appended a node, the [set]
    either appends nothing (the source has no result) or appends one node
    that stores, into the destination, the very value whose token the
    source has handed up, the result that the block defined last. *)
Theorem X12_set_stores_source (CGI : CodeGenInstruction)
    (TPN Dst Src : TreePatternNode) (F F1 F' : Flattener)
    (DummyNS : NodeSemantics) :
  single_valued CGI Src -> defs_ok F ->
  getNumTypes Src = 1 ->
  flatten CGI Src (Some emptyNS) F = Ok (F1, Some DummyNS) ->
  Semantics F1 <> Semantics F ->
  flattenSet CGI (flatten CGI) TPN [Dst; Src] F = Ok F' ->
  Z.of_nat (numDefs (Semantics F')) < 2 ^ 32 ->
  (Operands DummyNS = [] /\ Semantics F' = Semantics F1)
  \/ exists NS,
       Operands DummyNS = [utostr (Z.of_nat (numDefs (Semantics F1)) - 1)]
       /\ Semantics F' = Semantics F1 ++ [NS]
       /\ StoreNode CGI (utostr (Z.of_nat (numDefs (Semantics F1)) - 1))
            Dst NS.
Proof.
  intros Hsv Hok HT HL Hne HS Hlt.
  destruct (flattenSet_one CGI TPN Dst Src F F1 F' DummyNS HT HL HS)
    as [Hnone Hone].
  assert (Hlt1 : Z.of_nat (numDefs (Semantics F1)) < 2 ^ 32).
  { assert (Hpre : Semantics F1 `prefix_of` Semantics F').
    { destruct (Operands DummyNS) as [|Tok [|Tok' Toks]] eqn:EO.
      - rewrite (Hnone eq_refl). reflexivity.
      - destruct (Hone Tok eq_refl) as (NS & -> & _).
        apply prefix_app_r. reflexivity.
      - exfalso. clear Hnone Hone.
        unfold flattenSet in HS. simpl in HS. unfold flattenSet_body in HS.
        simpl in HS. rewrite HT in HS. simpl in HS. rewrite HL in HS.
        simpl in HS. rewrite EO in HS. simpl in HS.
        repeat match type of HS with
               | context [flattenSet_def ?a ?b ?c ?d ?e] =>
                   destruct (flattenSet_def a b c d e);
                   [simpl in HS|discriminate]
               end.
        match type of HS with
        | context [flattenSet_defs ?a ?b ?c ?d ?e ?f] =>
            destruct (flattenSet_defs a b c d e f); discriminate
        end. }
    apply numDefs_prefix in Hpre. lia. }
  destruct (flatten_defined CGI Src _ _ _ _ Hsv Hok HL Hlt1) as [[HD1 _] Hup].
  destruct (Hup emptyNS eq_refl) as (Q & ds & [= <-] & [-> Hds] & Hlast).
  simpl in Hnone, Hone |- *.
  destruct Hlast as [Hsame|[->| ->]]; [contradiction| |].
  - left. split; [reflexivity|]. apply Hnone. reflexivity.
  - right. apply Forall_cons in Hds as [Hd _].
    destruct (Hone _ eq_refl) as (NS & HSem & HSt).
    exists NS. split; [reflexivity|]. split; [exact HSem|].
    rewrite HD1, wrap32_small in HSt by lia. exact HSt.
Qed.

Lemma X12_set_stores_source_witness :
  exists F1 F' DummyNS,
    flatten Sample.CGI
      (TPOp "" [i32] Sample.add
         [Sample.leaf "a" Sample.GPR; Sample.leaf "b" Sample.GPR])
      (Some emptyNS) (Flattener_new Sample.TPlain []) = Ok (F1, Some DummyNS)
    /\ numDefs (Semantics F1) = 3%nat
    /\ ((Operands DummyNS = [] /\ Semantics F' = Semantics F1)
        \/ exists NS,
             Operands DummyNS =
               [utostr (Z.of_nat (numDefs (Semantics F1)) - 1)]
             /\ Semantics F' = Semantics F1 ++ [NS]
             /\ StoreNode Sample.CGI
                  (utostr (Z.of_nat (numDefs (Semantics F1)) - 1))
                  (Sample.leaf "dst" Sample.GPR) NS).
Proof.
  pose (Src := TPOp "" [i32] Sample.add
                 [Sample.leaf "a" Sample.GPR; Sample.leaf "b" Sample.GPR]).
  pose (Dst := Sample.leaf "dst" Sample.GPR).
  pose (F := Flattener_new Sample.TPlain []).
  assert (H : exists F1 DummyNS F',
            flatten Sample.CGI Src (Some emptyNS) F = Ok (F1, Some DummyNS)
            /\ flattenSet Sample.CGI (flatten Sample.CGI) Sample.AddRR
                 [Dst; Src] F = Ok F'
            /\ numDefs (Semantics F1) = 3%nat
            /\ Z.of_nat (numDefs (Semantics F')) < 2 ^ 32
            /\ Semantics F1 <> Semantics F).
  { eexists. eexists. eexists. split; [vm_compute; reflexivity|].
    split; [vm_compute; reflexivity|]. split; [vm_compute; reflexivity|].
    split; [vm_compute; reflexivity|]. vm_compute. discriminate. }
  destruct H as (F1 & DummyNS & F' & HL & HS & Hn & Hlt & Hne).
  assert (Hsv : single_valued Sample.CGI Src).
  { assert (Hty : forall N T, T <> isVoid -> types_ok Sample.CGI N [T]).
    { intros N T HT. split; [simpl; lia|]. intros _. exists T.
      split; [reflexivity|exact HT]. }
    apply sv_op; [apply Hty; discriminate|].
    repeat (apply Forall_cons_2 || apply Forall_nil_2);
      apply sv_leaf; apply Hty; discriminate. }
  assert (Hok : defs_ok F).
  { split; [reflexivity|]. intros N d Hd.
    change (OperandByName F) with (∅ : gmap string Z) in Hd.
    rewrite lookup_empty in Hd. discriminate. }
  pose proof (X12_set_stores_source Sample.CGI Sample.AddRR Dst Src F F1 F'
                DummyNS Hsv Hok eq_refl HL Hne HS Hlt) as HX.
  exists F1, F', DummyNS. split; [exact HL|]. split; [exact Hn|exact HX].
Defined.

(** X13. A [set] whose source is a custom operand recorded before.  The
    source hands up the recorded [DefNo] and appends nothing; [flattenSet]
    counts the token and does not read it: the node that it appends stores
    value [CurDefNo - 1], the result that the block defined last, whatever
    the recorded [DefNo] is. *)
Theorem X13_set_of_recorded_operand (CGI : CodeGenInstruction)
    (TPN Dst Src : TreePatternNode) (OpInfo : OperandInfo) (OpRec : TGRecord)
    (d : Z) (F F' : Flattener) :
  getNamedOperand CGI (getName Src) = Some OpInfo ->
  asRegisterClass (Rec OpInfo) = Ok OpRec ->
  isSubClassOf OpRec "Operand" = true ->
  String.eqb (OperandType OpInfo) "OPERAND_IMMEDIATE" = false ->
  OperandByName F !! Name OpInfo = Some d ->
  getNumTypes Src = 1 ->
  flattenSet CGI (flatten CGI) TPN [Dst; Src] F = Ok F' ->
  flatten CGI Src (Some emptyNS) F = Ok (F, Some (addOperand emptyNS (utostr d)))
  /\ exists NS,
       Semantics F' = Semantics F ++ [NS]
       /\ StoreNode CGI (utostr (wrap32 (CurDefNo F - 1))) Dst NS.
Proof.
  intros HN HR HOp HImm Hrec HT HS.
  assert (HL : flatten CGI Src (Some emptyNS) F
               = Ok (F, Some (addOperand emptyNS (utostr d)))).
  { destruct Src as [N Ts V|N Ts Op Cs]; simpl in HN |- *; rewrite HN;
      unfold flattenOperand; rewrite HR; simpl; rewrite HOp, HImm, Hrec;
      reflexivity. }
  split; [exact HL|].
  destruct (flattenSet_one CGI TPN Dst Src F F F' _ HT HL HS) as [_ Hone].
  apply (Hone (utostr d)). reflexivity.
Qed.

Lemma X13_set_of_recorded_operand_witness :
  let F := mkFlattener Sample.TPlain
             [mkNodeSemantics "DCINS::CUSTOM_OP" [i32]
                ["X86::OpTypes::MemOperand"; "3"]%string;
              mkNodeSemantics "DCINS::GET_RC" [i32] ["1"%string];
              mkNodeSemantics "ISD::ADD" [i32] ["0"; "1"]%string]
             [] {["addr"%string := 0]} 3 [] in
  exists F',
    flattenSet Sample.CGI (flatten Sample.CGI)
      (TPOp "" [] Sample.set
         [Sample.leaf "dst" Sample.GPR; Sample.leaf "addr" Sample.MemOperand])
      [Sample.leaf "dst" Sample.GPR; Sample.leaf "addr" Sample.MemOperand] F
    = Ok F'
    /\ flatten Sample.CGI (Sample.leaf "addr" Sample.MemOperand)
         (Some emptyNS) F = Ok (F, Some (addOperand emptyNS (utostr 0)))
    /\ exists NS,
         Semantics F' = Semantics F ++ [NS]
         /\ StoreNode Sample.CGI (utostr (wrap32 (CurDefNo F - 1)))
              (Sample.leaf "dst" Sample.GPR) NS
         /\ utostr (wrap32 (CurDefNo F - 1)) = "2"%string.
Proof.
  intros F.
  assert (H : exists F',
            flattenSet Sample.CGI (flatten Sample.CGI)
              (TPOp "" [] Sample.set
                 [Sample.leaf "dst" Sample.GPR;
                  Sample.leaf "addr" Sample.MemOperand])
              [Sample.leaf "dst" Sample.GPR;
               Sample.leaf "addr" Sample.MemOperand] F = Ok F').
  { eexists. vm_compute. reflexivity. }
  destruct H as (F' & HS).
  pose proof (X13_set_of_recorded_operand Sample.CGI
                (TPOp "" [] Sample.set
                   [Sample.leaf "dst" Sample.GPR;
                    Sample.leaf "addr" Sample.MemOperand])
                (Sample.leaf "dst" Sample.GPR)
                (Sample.leaf "addr" Sample.MemOperand)
                (mkOperandInfo "addr" 3 "OPERAND_MEMORY" Sample.MemOperand)
                Sample.MemOperand 0 F F'
                eq_refl eq_refl eq_refl eq_refl eq_refl eq_refl HS)
    as (HL & NS & HSem & HSt).
  exists F'. split; [exact HS|]. split; [exact HL|].
  exists NS. split; [exact HSem|]. split; [exact HSt|].
  vm_compute. reflexivity.
Defined.

(** ** The round trip of a constant *)

Lemma pool_full_new (Info : TGRecord -> result SDNodeInfo)
    (Equivs : list (TGRecord * TGRecord)) :
  pool_full (SemanticsTarget_new Info Equivs).
Proof. intros Idx H. simpl in H. lia. Qed.

Lemma intern_full (V : Z) (T : SemanticsTarget) :
  pool_wf T -> pool_full T ->
  Z.of_nat (size (ConstantIdx (snd (intern V T)))) < 2 ^ 32 - 1 ->
  pool_full (snd (intern V T)).
Proof.
  intros Hwf Hfull. destruct (ConstantIdx T !! wrap64 V) as [Idx|] eqn:E.
  - rewrite (intern_present V Idx T Hwf E). simpl. intros _. exact Hfull.
  - rewrite (intern_absent V T E). simpl.
    rewrite map_size_insert_None by exact E. intros Hsz.
    destruct Hwf as (Hcur & _ & _).
    intros Idx HIdx. simpl in HIdx.
    rewrite wrap32_small in HIdx by lia. simpl.
    destruct (decide (Idx = CurConstIdx T)) as [->|Hne].
    + exists (wrap64 V). apply lookup_insert_eq.
    + destruct (Hfull Idx) as [K HK]; [lia|].
      exists K. rewrite lookup_insert_ne; [exact HK|]. congruence.
Qed.

Lemma interns_full (Vs : list Z) (T : SemanticsTarget) :
  pool_wf T -> pool_full T ->
  Z.of_nat (size (ConstantIdx (interns Vs T))) < 2 ^ 32 - 1 ->
  pool_full (interns Vs T).
Proof.
  intros Hwf Hfull. induction Vs as [|V Vs IH] using rev_ind.
  - intros _. exact Hfull.
  - rewrite interns_snoc. intros Hsz.
    assert (Hprev : Z.of_nat (size (ConstantIdx (interns Vs T))) < 2 ^ 32 - 1).
    { destruct (ConstantIdx (interns Vs T) !! wrap64 V) as [Idx|] eqn:E.
      - destruct (decide (Z.of_nat (size (ConstantIdx (interns Vs T)))
                          < 2 ^ 32 - 1)) as [Hlt|Hge]; [exact Hlt|].
        exfalso. revert Hsz. unfold intern. rewrite E.
        destruct (Idx =? 0); simpl.
        + rewrite map_size_insert_Some by (rewrite E; eauto). lia.
        + lia.
      - revert Hsz. rewrite (intern_absent V _ E). simpl.
        rewrite map_size_insert_None by exact E. lia. }
    apply intern_full; [apply interns_wf; assumption | apply IH; exact Hprev
                       | exact Hsz].
Qed.

(** The array of a sound pool. *)
Lemma pool_wf_ConstantArray (T : SemanticsTarget) :
  pool_wf T ->
  Z.of_nat (size (ConstantIdx T)) < 2 ^ 32 - 1 ->
  exists Constants,
    emit_Constants T = Ok Constants
    /\ length Constants = S (size (ConstantIdx T))
    /\ Constants !! 0%nat = Some 0
    /\ (forall K Idx, ConstantIdx T !! K = Some Idx ->
          Constants !! Z.to_nat Idx = Some K).
Proof.
  intros Hwf Hsz.
  pose proof Hwf as (Hcur & Hrange & Hinj).
  destruct (fill_Constants_spec (ConstantIdx_entries (ConstantIdx T))
              (replicate (size (ConstantIdx T) + 1) 0))
    as (Constants & Hfill & Hlen & Hat & Hother).
  { apply Forall_forall. intros [K Idx] H.
    apply ConstantIdx_entries_elem in H. specialize (Hrange _ _ H).
    rewrite length_replicate. simpl. lia. }
  { unfold ConstantIdx_entries. rewrite merge_sort_Permutation.
    apply (NoDup_fmap_2_strong (fun CI : Z * Z => Z.to_nat (snd CI))).
    - intros [K1 I1] [K2 I2] H1 H2 Heq. simpl in Heq.
      apply elem_of_map_to_list in H1, H2.
      pose proof (Hrange _ _ H1). pose proof (Hrange _ _ H2).
      assert (I1 = I2) by lia. subst I2.
      rewrite (Hinj _ _ _ H1 H2). reflexivity.
    - apply NoDup_map_to_list. }
  exists Constants. split; [exact Hfill|]. split.
  { rewrite Hlen, length_replicate. lia. }
  split.
  { rewrite Hother.
    - apply lookup_replicate_2. lia.
    - intros H. apply list_elem_of_fmap in H as ([K Idx] & Heq & H).
      apply ConstantIdx_entries_elem in H. specialize (Hrange _ _ H).
      simpl in Heq. lia. }
  intros K Idx H. apply (Hat (K, Idx)).
  apply ConstantIdx_entries_elem. exact H.
Qed.

(** X14. The round trip of a compile-time constant.  In a sound pool with
    room for one more value, flattening an integer leaf that is not a named
    operand appends a [MOV_CONSTANT] node with the types of the leaf whose
    single operand is the decimal form of an index, not 0, under which the
    pool holds the 64-bit value of the integer; the pool stays sound, and
    the entry of [ConstantArray] at that index is this value. *)
Theorem X14_constant_round_trip (CGI : CodeGenInstruction) (N : string)
    (Ts : list SimpleValueType) (V : Z) (P : NodeSemantics) (F : Flattener) :
  getNamedOperand CGI N = None ->
  pool_wf (Target F) ->
  Z.of_nat (size (ConstantIdx (Target F))) < 2 ^ 32 - 2 ->
  exists Idx F' P' Constants,
    flatten CGI (TPLeaf N Ts (IntInit V)) (Some P) F = Ok (F', Some P')
    /\ Semantics F' =
         Semantics F ++
         [mkNodeSemantics "DCINS::MOV_CONSTANT"
            (match Ts with [] => [isVoid] | _ => Ts end) [utostr Idx]]
    /\ 1 <= Idx
    /\ ConstantIdx (Target F') !! wrap64 V = Some Idx
    /\ pool_wf (Target F')
    /\ emit_Constants (Target F') = Ok Constants
    /\ Constants !! Z.to_nat Idx = Some (wrap64 V).
Proof.
  intros HN Hwf Hsz.
  assert (Hsz' : Z.of_nat (size (ConstantIdx (snd (intern V (Target F)))))
                 < 2 ^ 32 - 1).
  { destruct (ConstantIdx (Target F) !! wrap64 V) as [Idx|] eqn:E.
    - rewrite (intern_present V Idx _ Hwf E). simpl. lia.
    - rewrite (intern_absent V _ E). simpl.
      rewrite map_size_insert_None by exact E. lia. }
  pose proof (intern_wf V _ Hwf Hsz') as Hwf'.
  assert (HIdx : ConstantIdx (snd (intern V (Target F))) !! wrap64 V
                 = Some (fst (intern V (Target F)))
                 /\ 1 <= fst (intern V (Target F))).
  { pose proof Hwf as (Hcur & Hrange & _).
    destruct (ConstantIdx (Target F) !! wrap64 V) as [Idx|] eqn:E.
    - rewrite (intern_present V Idx _ Hwf E). simpl.
      split; [exact E|]. specialize (Hrange _ _ E). lia.
    - rewrite (intern_absent V _ E). simpl.
      split; [apply lookup_insert_eq | lia]. }
  destruct HIdx as [HIdx Hpos].
  destruct (pool_wf_ConstantArray _ Hwf' Hsz')
    as (Constants & Hemit & _ & _ & Hlook).
  destruct (intern V (Target F)) as [Idx T'] eqn:EI. simpl in *.
  eexists Idx, _, _, Constants.
  split.
  { rewrite HN. unfold flattenLeaf. simpl. rewrite EI. simpl. reflexivity. }
  simpl. split.
  { f_equal. unfold setNSTypeFromNode, getNumTypes. simpl.
    destruct Ts; reflexivity. }
  split; [exact Hpos|]. split; [exact HIdx|]. split; [exact Hwf'|].
  split; [exact Hemit|]. apply Hlook. exact HIdx.
Qed.

Lemma X14_constant_round_trip_witness :
  exists Idx F' P' Constants,
    flatten Sample.CGI (TPLeaf "" [i32] (IntInit 1234)) (Some emptyNS)
      (Flattener_new Sample.TPlain []) = Ok (F', Some P')
    /\ Semantics F' =
         [mkNodeSemantics "DCINS::MOV_CONSTANT" [i32] [utostr Idx]]
    /\ 1 <= Idx
    /\ ConstantIdx (Target F') !! wrap64 1234 = Some Idx
    /\ pool_wf (Target F')
    /\ emit_Constants (Target F') = Ok Constants
    /\ Constants !! Z.to_nat Idx = Some (wrap64 1234).
Proof.
  apply (X14_constant_round_trip Sample.CGI "" [i32] 1234 emptyNS
           (Flattener_new Sample.TPlain [])).
  - reflexivity.
  - apply pool_wf_new.
  - vm_compute. reflexivity.
Defined.

(** ** The equivalences of the target *)

Lemma SDNodeEquiv_snoc (Info : TGRecord -> result SDNodeInfo)
    (Equivs : list (TGRecord * TGRecord)) (E : TGRecord * TGRecord) :
  SDNodeEquiv (SemanticsTarget_new Info (Equivs ++ [E])) =
    <[rec_ID (fst E) := snd E]> (SDNodeEquiv (SemanticsTarget_new Info Equivs)).
Proof. simpl. rewrite fold_left_app. reflexivity. Qed.

(** X15. The equivalences of the target.  A record has an equivalent exactly
    when some [SDNodeEquiv] definition names it as its target-specific node,
    and its equivalent is the target-independent node of the last such
    definition. *)
Theorem X15_SDNodeEquiv_last_wins (Info : TGRecord -> result SDNodeInfo)
    (Equivs : list (TGRecord * TGRecord)) (R : TGRecord) :
  SDNodeEquiv (SemanticsTarget_new Info Equivs) !! rec_ID R =
    snd <$> last (List.filter (fun E => same_record (fst E) R) Equivs).
Proof.
  induction Equivs as [|E Equivs IH] using rev_ind; [reflexivity|].
  rewrite SDNodeEquiv_snoc, List.filter_app. simpl.
  unfold same_record at 2.
  destruct (Z.eqb_spec (rec_ID (fst E)) (rec_ID R)) as [Heq|Hne].
  - rewrite Heq, lookup_insert_eq. rewrite last_snoc. reflexivity.
  - rewrite lookup_insert_ne by exact Hne. rewrite app_nil_r. exact IH.
Qed.

(** ** Where the semantics of an instruction come from *)

Lemma addFlattened_inv (E E' : SemanticsEmitter) (i : nat)
    (CGI : CodeGenInstruction) (TP : list TreePatternNode) :
  addFlattened E i CGI TP = Ok E' ->
  exists F,
    InstSemantics_new (SemaTarget E) (Diags E) CGI TP = Ok F
    /\ InstSemas E' = InstSemas E ++ [Semantics F]
    /\ InstIdx E' =
         <[i := wrap32 (Z.of_nat (length (InstSemas E)))]> (InstIdx E)
    /\ (i < length (InstIdx E))%nat.
Proof.
  unfold addFlattened.
  destruct (InstSemantics_new (SemaTarget E) (Diags E) CGI TP) as [F|];
    [|discriminate].
  simpl. unfold addInstSemantics. simpl.
  destruct (Nat.ltb_spec i (length (InstIdx E))) as [Hi|_]; [|discriminate].
  intros [= <-]. simpl. exists F. repeat split. exact Hi.
Qed.

(** What is installed stays: later calls append to [InstSemas] and rewrite
    only the entries of the instructions they are called for. *)
Lemma ParseSemantics_frame (CGIByEnum : list Instruction)
    (Instrs : list (nat * list TreePatternNode)) :
  forall E E',
    ParseSemantics CGIByEnum Instrs E = Ok E' ->
    InstSemas E `prefix_of` InstSemas E'
    /\ forall j, j ∉ map fst Instrs -> InstIdx E' !! j = InstIdx E !! j.
Proof.
  induction Instrs as [|[It TP] Instrs IH]; intros E E' H; simpl in H.
  - injection H as <-. split; reflexivity.
  - destruct (CGIByEnum !! It) as [Inst|]; [|discriminate].
    destruct (addFlattened E It (Inst_CGI Inst) TP) as [E1|] eqn:EA;
      [|discriminate].
    simpl in H. destruct (IH _ _ H) as (Hpre & Hidx).
    destruct (addFlattened_inv _ _ _ _ _ EA) as (F & _ & HS & HI & _).
    split.
    + etransitivity; [|exact Hpre]. rewrite HS. apply prefix_app_r. reflexivity.
    + intros j Hj. simpl in Hj. apply not_elem_of_cons in Hj as [Hne Hj].
      rewrite (Hidx j Hj), HI. apply list_lookup_insert_ne. congruence.
Qed.

Lemma usePatterns_frame (Insts : list Instruction) :
  forall i E E',
    usePatterns Insts i E = Ok E' ->
    InstSemas E `prefix_of` InstSemas E'
    /\ forall j,
         (j < i)%nat \/ (exists X, InstIdx E !! j = Some X /\ X <> 0) ->
         InstIdx E' !! j = InstIdx E !! j.
Proof.
  induction Insts as [|Inst Insts IH]; intros i E E' H; simpl in H.
  - injection H as <-. split; reflexivity.
  - destruct (InstIdx E !! i) as [Idx|] eqn:EI; [|discriminate]. simpl in H.
    assert (Hskip : usePatterns Insts (S i) E = Ok E' ->
              InstSemas E `prefix_of` InstSemas E'
              /\ forall j,
                   (j < i)%nat \/ (exists X, InstIdx E !! j = Some X /\ X <> 0) ->
                   InstIdx E' !! j = InstIdx E !! j).
    { intros H0. destruct (IH _ _ _ H0) as (Hpre & Hidx).
      split; [exact Hpre|]. intros j [Hj|Hj]; apply Hidx; [left; lia|right; exact Hj]. }
    destruct (Z.eqb_spec Idx 0) as [HIdx|HIdx]; simpl in H; [|exact (Hskip H)].
    destruct (Inst_Pattern Inst) as [TP|]; [|exact (Hskip H)].
    destruct (negb (isCodeGenOnly (Inst_CGI Inst))); [|exact (Hskip H)].
    destruct (addFlattened E i (Inst_CGI Inst) TP) as [E1|] eqn:EA;
      [|discriminate].
    simpl in H. destruct (IH _ _ _ H) as (Hpre & Hidx).
    destruct (addFlattened_inv _ _ _ _ _ EA) as (F & _ & HS & HI & _).
    split.
    + etransitivity; [|exact Hpre]. rewrite HS. apply prefix_app_r. reflexivity.
    + intros j Hj.
      assert (Hne : j <> i).
      { destruct Hj as [Hj|(X & HX & HneX)]; [lia|]. intros ->.
        rewrite EI in HX. injection HX as <-. contradiction. }
      assert (Hsame : InstIdx E1 !! j = InstIdx E !! j).
      { rewrite HI. apply list_lookup_insert_ne. congruence. }
      rewrite <- Hsame. apply Hidx.
      destruct Hj as [Hj|Hj]; [left; lia|right; rewrite Hsame; exact Hj].
Qed.

Lemma ParseSemantics_app (CGIByEnum : list Instruction)
    (A B : list (nat * list TreePatternNode)) :
  forall E,
    ParseSemantics CGIByEnum (A ++ B) E =
      (do E1 <- ParseSemantics CGIByEnum A E ; ParseSemantics CGIByEnum B E1).
Proof.
  induction A as [|[It TP] A IH]; intros E; simpl; [reflexivity|].
  destruct (CGIByEnum !! It) as [Inst|]; [|reflexivity].
  destruct (addFlattened E It (Inst_CGI Inst) TP) as [E1|]; simpl;
    [apply IH | reflexivity].
Qed.

Lemma usePatterns_app (A B : list Instruction) :
  forall i E,
    usePatterns (A ++ B) i E =
      (do E1 <- usePatterns A i E ; usePatterns B (i + length A) E1).
Proof.
  induction A as [|Inst A IH]; intros i E; simpl.
  - rewrite Nat.add_0_r. reflexivity.
  - replace (i + S (length A))%nat with (S i + length A)%nat by lia.
    destruct (InstIdx E !! i) as [Idx|]; [|reflexivity]. simpl.
    destruct (negb (Idx =? 0)); [apply IH|].
    destruct (Inst_Pattern Inst) as [TP|]; [|apply IH].
    destruct (negb (isCodeGenOnly (Inst_CGI Inst))); [|apply IH].
    destruct (addFlattened E i (Inst_CGI Inst) TP) as [E1|]; simpl;
      [apply IH | reflexivity].
Qed.

(** The prefix of the loop of the constructor that ends before instruction
    [i] leaves the entry of [i] as it is. *)
Lemma usePatterns_before (Insts : list Instruction) :
  forall i E E' j,
    usePatterns Insts i E = Ok E' ->
    (i + length Insts <= j)%nat ->
    InstIdx E' !! j = InstIdx E !! j.
Proof.
  induction Insts as [|Inst Insts IH]; intros i E E' j H Hj; simpl in H.
  - injection H as <-. reflexivity.
  - simpl in Hj.
    destruct (InstIdx E !! i) as [Idx|] eqn:EI; [|discriminate]. simpl in H.
    destruct (negb (Idx =? 0)); [apply (IH _ _ _ _ H); lia|].
    destruct (Inst_Pattern Inst) as [TP|]; [|apply (IH _ _ _ _ H); lia].
    destruct (negb (isCodeGenOnly (Inst_CGI Inst)));
      [|apply (IH _ _ _ _ H); lia].
    destruct (addFlattened E i (Inst_CGI Inst) TP) as [E1|] eqn:EA;
      [|discriminate].
    simpl in H. rewrite (IH _ _ _ _ H) by lia.
    destruct (addFlattened_inv _ _ _ _ _ EA) as (F & _ & _ & HI & _).
    rewrite HI. apply list_lookup_insert_ne. lia.
Qed.

Lemma addFlattened_semanticsFrom (E E' : SemanticsEmitter)
    (T0 : SemanticsTarget) (i : nat) (CGI : CodeGenInstruction)
    (TP : list TreePatternNode) (Vs : list Z) :
  addFlattened E i CGI TP = Ok E' ->
  SemaTarget E = interns Vs T0 ->
  (1 <= length (InstSemas E))%nat ->
  Z.of_nat (length (InstSemas E')) < 2 ^ 32 ->
  exists F,
    InstSemantics_new (interns Vs T0) (Diags E) CGI TP = Ok F
    /\ InstIdx E' !! i = Some (Z.of_nat (length (InstSemas E)))
    /\ InstSemas E' !! length (InstSemas E) = Some (Semantics F).
Proof.
  intros HA HT Hpos Hlt.
  destruct (addFlattened_inv _ _ _ _ _ HA) as (F & HF & HS & HI & Hi).
  exists F. rewrite <- HT. split; [exact HF|].
  rewrite HS in Hlt |- *. rewrite length_app in Hlt. simpl in Hlt.
  split.
  - rewrite HI, wrap32_small by lia. apply list_lookup_insert_eq. exact Hi.
  - rewrite lookup_app_r by lia. rewrite Nat.sub_diag. reflexivity.
Qed.

Lemma semanticsFrom_later (E1 E : SemanticsEmitter) (T0 : SemanticsTarget)
    (i : nat) (CGI : CodeGenInstruction) (TP : list TreePatternNode)
    (Vs : list Z) (D : list Diag) (F : Flattener) (k : nat) :
  InstSemantics_new (interns Vs T0) D CGI TP = Ok F ->
  InstIdx E1 !! i = Some (Z.of_nat k) -> (1 <= k)%nat ->
  InstSemas E1 !! k = Some (Semantics F) ->
  InstSemas E1 `prefix_of` InstSemas E ->
  InstIdx E !! i = InstIdx E1 !! i ->
  semanticsFrom E T0 i CGI TP.
Proof.
  intros HF HI Hk HS Hpre Hsame.
  exists (Z.of_nat k), Vs, D, F. split; [congruence|]. split; [lia|].
  split; [exact HF|]. rewrite Nat2Z.id.
  eapply prefix_lookup_Some; eassumption.
Qed.

(** Which trees the semantics of an instruction come from: those of the last
    [Semantics] definition that names it, whether or not it has a pattern of
    its own; else those of its own pattern. *)
Lemma SemanticsEmitter_new_semanticsFrom (Info : TGRecord -> result SDNodeInfo)
    (Equivs : list (TGRecord * TGRecord)) (CGIByEnum : list Instruction)
    (Instrs : list (nat * list TreePatternNode)) (E : SemanticsEmitter) :
  SemanticsEmitter_new Info Equivs CGIByEnum Instrs = Ok E ->
  Z.of_nat (length (InstSemas E)) < 2 ^ 32 ->
  (forall Instrs1 It TP Instrs2,
     Instrs = Instrs1 ++ (It, TP) :: Instrs2 ->
     It ∉ map fst Instrs2 ->
     exists Inst,
       CGIByEnum !! It = Some Inst
       /\ semanticsFrom E (SemanticsTarget_new Info Equivs) It
            (Inst_CGI Inst) TP)
  /\ (forall i Inst TP,
        i ∉ map fst Instrs ->
        CGIByEnum !! i = Some Inst ->
        Inst_Pattern Inst = Some TP ->
        isCodeGenOnly (Inst_CGI Inst) = false ->
        semanticsFrom E (SemanticsTarget_new Info Equivs) i (Inst_CGI Inst) TP).
Proof.
  unfold SemanticsEmitter_new. intros H Hlt.
  destruct (addInstSemantics _ 0 InstSemantics_empty) as [E0|] eqn:E0eq;
    [|discriminate].
  simpl in H.
  destruct (ParseSemantics CGIByEnum Instrs E0) as [E1|] eqn:E1eq;
    [|discriminate].
  simpl in H.
  assert (HE0 : length (InstSemas E0) = 1%nat
                /\ SemaTarget E0 = SemanticsTarget_new Info Equivs
                /\ forall j, (j < length CGIByEnum)%nat ->
                             InstIdx E0 !! j = Some 0).
  { unfold addInstSemantics in E0eq. simpl in E0eq.
    destruct (_ <? _)%nat; [|discriminate]. injection E0eq as <-. simpl.
    split; [reflexivity|]. split; [reflexivity|].
    intros j Hj. destruct (decide (j = 0%nat)) as [->|Hne].
    - apply list_lookup_insert_eq. rewrite length_replicate. exact Hj.
    - rewrite list_lookup_insert_ne by congruence.
      apply lookup_replicate_2. exact Hj. }
  destruct HE0 as (Hlen0 & HT0 & Hzero).
  destruct (ParseSemantics_length _ _ _ _ E1eq) as (Hle1 & _).
  destruct (usePatterns_length _ _ _ _ H) as (Hle2 & _).
  destruct (usePatterns_frame _ _ _ _ H) as (Hpre2 & Hkeep2).
  split.
  - intros Instrs1 It TP Instrs2 -> Hlast.
    rewrite ParseSemantics_app in E1eq.
    destruct (ParseSemantics CGIByEnum Instrs1 E0) as [Ea|] eqn:Eaeq;
      [|discriminate].
    simpl in E1eq.
    destruct (CGIByEnum !! It) as [Inst|] eqn:EIt; [|discriminate].
    destruct (addFlattened Ea It (Inst_CGI Inst) TP) as [Eb|] eqn:EA;
      [|discriminate].
    simpl in E1eq.
    destruct (ParseSemantics_pool _ _ _ _ Eaeq) as [Vs HVs].
    rewrite HT0 in HVs.
    destruct (ParseSemantics_length _ _ _ _ Eaeq) as (Hlea & _).
    destruct (ParseSemantics_length _ _ _ _ E1eq) as (Hleb & _).
    destruct (ParseSemantics_frame _ _ _ _ E1eq) as (Hpreb & Hkeepb).
    destruct (addFlattened_semanticsFrom _ _ _ _ _ _ Vs EA HVs)
      as (F & HF & HI & HS); [lia|lia|].
    exists Inst. split; [reflexivity|].
    eapply (semanticsFrom_later Eb E _ It _ _ Vs _ F _ HF HI); [lia|exact HS| |].
    + etransitivity; eassumption.
    + rewrite <- (Hkeepb It Hlast). apply Hkeep2. right.
      exists (Z.of_nat (length (InstSemas Ea))).
      rewrite (Hkeepb It Hlast). split; [exact HI|lia].
  - intros i Inst TP Hnot HInst HP HC.
    destruct (ParseSemantics_frame _ _ _ _ E1eq) as (_ & Hkeep1).
    pose proof (lookup_lt_Some _ _ _ HInst) as Hi.
    assert (Hi1 : InstIdx E1 !! i = Some 0).
    { rewrite (Hkeep1 i Hnot). apply Hzero. exact Hi. }
    rewrite <- (take_drop_middle _ _ _ HInst) in H.
    rewrite usePatterns_app in H.
    destruct (usePatterns (take i CGIByEnum) 0 E1) as [Ea|] eqn:Eaeq;
      [|discriminate].
    simpl in H. rewrite length_take, Nat.min_l in H by lia.
    assert (Hia : InstIdx Ea !! i = Some 0).
    { rewrite (usePatterns_before _ _ _ _ i Eaeq); [exact Hi1|].
      rewrite length_take. lia. }
    simpl in H. rewrite Hia in H. simpl in H. rewrite HP, HC in H. simpl in H.
    destruct (addFlattened Ea i (Inst_CGI Inst) TP) as [Eb|] eqn:EA;
      [|discriminate].
    simpl in H.
    destruct (usePatterns_pool _ _ _ _ Eaeq) as [Vs2 HVs2].
    destruct (ParseSemantics_pool _ _ _ _ E1eq) as [Vs1 HVs1].
    rewrite HVs1, HT0, <- interns_app in HVs2.
    destruct (usePatterns_length _ _ _ _ Eaeq) as (Hlea & _).
    destruct (usePatterns_length _ _ _ _ H) as (Hleb & _).
    destruct (usePatterns_frame _ _ _ _ H) as (Hpreb & Hkeepb).
    destruct (addFlattened_semanticsFrom _ _ _ _ _ _ _ EA HVs2)
      as (F & HF & HI & HS); [lia|lia|].
    eapply (semanticsFrom_later Eb E _ i _ _ _ _ F _ HF HI); [lia|exact HS| |].
    + exact Hpreb.
    + apply Hkeepb. left. lia.
Qed.

Lemma run_emittedFrom (E : SemanticsEmitter) (Out : Output)
    (T0 : SemanticsTarget) (i : nat) (CGI : CodeGenInstruction)
    (TP : list TreePatternNode) :
  run E = Ok Out ->
  Z.of_nat (length (Out_InstSemantics Out)) < 2 ^ 32 ->
  semanticsFrom E T0 i CGI TP ->
  emittedFrom Out T0 i CGI TP.
Proof.
  intros Hrun Hlen (X & Vs & D & F & HX & HX0 & HF & HS).
  destruct (run_offset_table E Out Hrun Hlen) as (_ & Hall).
  destruct (Hall i X HX) as (Start & HSt & H0 & Hhas).
  assert (Hh : hasSemantics E i) by (exists X; split; assumption).
  destruct (Hhas Hh) as (Sema & HSema & Hblk & _).
  rewrite HS in HSema. injection HSema as <-.
  exists Start, Vs, D, F. split; [exact HSt|]. split.
  - intros H. apply H0 in H. contradiction.
  - split; assumption.
Qed.

(** X16. Where an emitted block comes from.  After the constructor and [run]
    have returned, with fewer than [2^32] stored blocks and emitted
    entries: for the last [Semantics] definition that names an instruction,
    whether or not it has a pattern of its own, the offset of the
    instruction in [OpcodeToSemaIdx[]] is not zero and the block there in
    [InstSemantics[]] is the flattening of the trees of that definition; for
    an instruction that no definition names, with a pattern and not
    code-gen-only, it is the flattening of its own pattern. *)
Theorem X16_emitted_source (Info : TGRecord -> result SDNodeInfo)
    (Equivs : list (TGRecord * TGRecord)) (CGIByEnum : list Instruction)
    (Instrs : list (nat * list TreePatternNode)) (E : SemanticsEmitter)
    (Out : Output) :
  SemanticsEmitter_new Info Equivs CGIByEnum Instrs = Ok E ->
  run E = Ok Out ->
  Z.of_nat (length (InstSemas E)) < 2 ^ 32 ->
  Z.of_nat (length (Out_InstSemantics Out)) < 2 ^ 32 ->
  (forall Instrs1 It TP Instrs2,
     Instrs = Instrs1 ++ (It, TP) :: Instrs2 ->
     It ∉ map fst Instrs2 ->
     exists Inst,
       CGIByEnum !! It = Some Inst
       /\ emittedFrom Out (SemanticsTarget_new Info Equivs) It
            (Inst_CGI Inst) TP)
  /\ (forall i Inst TP,
        i ∉ map fst Instrs ->
        CGIByEnum !! i = Some Inst ->
        Inst_Pattern Inst = Some TP ->
        isCodeGenOnly (Inst_CGI Inst) = false ->
        emittedFrom Out (SemanticsTarget_new Info Equivs) i (Inst_CGI Inst) TP).
Proof.
  intros Hnew Hrun HlenS HlenO.
  destruct (SemanticsEmitter_new_semanticsFrom Info Equivs CGIByEnum Instrs E
              Hnew HlenS) as [H1 H2].
  split.
  - intros Instrs1 It TP Instrs2 HI Hnot.
    destruct (H1 Instrs1 It TP Instrs2 HI Hnot) as (Inst & HInst & Hfrom).
    exists Inst. split; [exact HInst|].
    exact (run_emittedFrom E Out _ _ _ _ Hrun HlenO Hfrom).
  - intros i Inst TP Hnot HInst HP Hcg.
    exact (run_emittedFrom E Out _ _ _ _ Hrun HlenO
             (H2 i Inst TP Hnot HInst HP Hcg)).
Qed.

Lemma X16_emitted_source_witness :
  exists E Out,
    SemanticsEmitter_new Sample.Info [] Sample.Insts Sample.Instrs = Ok E
    /\ run E = Ok Out
    /\ (exists Inst,
          Sample.Insts !! 4%nat = Some Inst
          /\ emittedFrom Out (SemanticsTarget_new Sample.Info []) 4
               (Inst_CGI Inst) [Sample.AddRI])
    /\ emittedFrom Out (SemanticsTarget_new Sample.Info []) 1 Sample.CGI
         [Sample.AddRR].
Proof.
  assert (H : exists E Out,
            SemanticsEmitter_new Sample.Info [] Sample.Insts Sample.Instrs
            = Ok E
            /\ run E = Ok Out
            /\ Z.of_nat (length (InstSemas E)) < 2 ^ 32
            /\ Z.of_nat (length (Out_InstSemantics Out)) < 2 ^ 32).
  { eexists. eexists. split; [vm_compute; reflexivity|].
    split; [vm_compute; reflexivity|]. split; [vm_compute; reflexivity|].
    vm_compute. reflexivity. }
  destruct H as (E & Out & H & Hrun & Hlt & HltO).
  pose proof (X16_emitted_source Sample.Info [] Sample.Insts Sample.Instrs E Out
                H Hrun Hlt HltO) as [H1 H2].
  exists E, Out. split; [exact H|]. split; [exact Hrun|]. split.
  - apply (H1 [] 4%nat [Sample.AddRI] []).
    + reflexivity.
    + simpl. apply not_elem_of_nil.
  - apply (H2 1%nat (mkInstruction Sample.CGI (Some [Sample.AddRR]))
             [Sample.AddRR]).
    + simpl. intros Hin. apply list_elem_of_singleton in Hin. discriminate.
    + reflexivity.
    + reflexivity.
    + reflexivity.
Defined.

Lemma ParseSemantics_same_CGI (CGIByEnum CGIByEnum' : list Instruction)
    (Instrs : list (nat * list TreePatternNode)) :
  (forall i Inst Inst',
     CGIByEnum !! i = Some Inst -> CGIByEnum' !! i = Some Inst' ->
     Inst_CGI Inst' = Inst_CGI Inst) ->
  length CGIByEnum' = length CGIByEnum ->
  forall E E',
    ParseSemantics CGIByEnum Instrs E = Ok E' ->
    ParseSemantics CGIByEnum' Instrs E = Ok E'.
Proof.
  intros Hsame Hlen.
  induction Instrs as [|[It TP] Instrs IH]; intros E E' H; simpl in H |- *.
  - exact H.
  - destruct (CGIByEnum !! It) as [Inst|] eqn:EI; [|discriminate].
    destruct (lookup_lt_is_Some_2 CGIByEnum' It) as [Inst' EI'].
    { rewrite Hlen. eapply lookup_lt_Some. exact EI. }
    rewrite EI', (Hsame _ _ _ EI EI').
    destruct (addFlattened E It (Inst_CGI Inst) TP) as [E1|]; [|discriminate].
    simpl in H |- *. apply IH. exact H.
Qed.

Lemma hasSemantics_other (E E1 : SemanticsEmitter) (i j : nat) (X : Z) :
  InstIdx E1 = <[i := X]> (InstIdx E) -> j <> i ->
  hasSemantics E j -> hasSemantics E1 j.
Proof.
  intros HI Hne (Y & HY & HneY). exists Y. split; [|exact HneY].
  rewrite HI, list_lookup_insert_ne by congruence. exact HY.
Qed.

Lemma usePatterns_same (Insts : list Instruction) :
  forall (Insts' : list Instruction) (i : nat) (E E' : SemanticsEmitter),
    usePatterns Insts i E = Ok E' ->
    length Insts' = length Insts ->
    (forall k Inst Inst',
       Insts !! k = Some Inst -> Insts' !! k = Some Inst' ->
       Inst_CGI Inst' = Inst_CGI Inst
       /\ (Inst_Pattern Inst' = Inst_Pattern Inst
           \/ isCodeGenOnly (Inst_CGI Inst) = true
           \/ hasSemantics E (i + k))) ->
    usePatterns Insts' i E = Ok E'.
Proof.
  induction Insts as [|Inst Insts IH]; intros Insts' i E E' H Hlen Hrel.
  - destruct Insts'; [exact H|discriminate].
  - destruct Insts' as [|Inst' Insts']; [discriminate|].
    simpl in Hlen. injection Hlen as Hlen.
    destruct (Hrel 0%nat Inst Inst' eq_refl eq_refl) as [HCGI Hpat].
    rewrite Nat.add_0_r in Hpat.
    assert (Hrest : forall E1 X,
              InstIdx E1 = InstIdx E \/ InstIdx E1 = <[i := X]> (InstIdx E) ->
              forall k I I',
                Insts !! k = Some I -> Insts' !! k = Some I' ->
                Inst_CGI I' = Inst_CGI I
                /\ (Inst_Pattern I' = Inst_Pattern I
                    \/ isCodeGenOnly (Inst_CGI I) = true
                    \/ hasSemantics E1 (S i + k))).
    { intros E1 X HE1 k I I' HI HI'.
      destruct (Hrel (S k) I I' HI HI') as [H1 H2]. split; [exact H1|].
      destruct H2 as [H2|[H2|H2]]; [left; exact H2|right; left; exact H2|].
      right. right. replace (S i + k)%nat with (i + S k)%nat by lia.
      destruct HE1 as [HE1|HE1].
      - destruct H2 as (Y & HY & HneY). exists Y. rewrite HE1.
        split; assumption.
      - eapply hasSemantics_other; [exact HE1|lia|exact H2]. }
    simpl in H |- *.
    destruct (InstIdx E !! i) as [Idx|] eqn:EI; [|discriminate].
    simpl in H |- *.
    destruct (Z.eqb_spec Idx 0) as [HIdx|HIdx]; simpl in H |- *.
    + rewrite HCGI.
      destruct Hpat as [Hpat|[Hcg|(Y & HY & HneY)]].
      * rewrite Hpat.
        destruct (Inst_Pattern Inst) as [TP|];
          [|apply (IH _ _ _ _ H Hlen (Hrest E 0 (or_introl eq_refl)))].
        destruct (negb (isCodeGenOnly (Inst_CGI Inst)));
          [|apply (IH _ _ _ _ H Hlen (Hrest E 0 (or_introl eq_refl)))].
        destruct (addFlattened E i (Inst_CGI Inst) TP) as [E1|] eqn:EA;
          [|discriminate].
        simpl in H |- *.
        destruct (addFlattened_inv _ _ _ _ _ EA) as (F & _ & _ & HI & _).
        apply (IH _ _ _ _ H Hlen (Hrest E1 _ (or_intror HI))).
      * rewrite Hcg in H |- *. simpl in H |- *.
        assert (Hskip : usePatterns Insts (S i) E = Ok E').
        { destruct (Inst_Pattern Inst); exact H. }
        pose proof (IH _ _ _ _ Hskip Hlen (Hrest E 0 (or_introl eq_refl)))
          as Hgoal.
        destruct (Inst_Pattern Inst'); exact Hgoal.
      * rewrite EI in HY. injection HY as <-. contradiction.
    + apply (IH _ _ _ _ H Hlen (Hrest E 0 (or_introl eq_refl))).
Qed.

(** X17. Patterns that are not used are not read.  The pattern of an
    instruction that a [Semantics] definition names, and the pattern of a
    code-gen-only instruction, are never flattened: the constructor builds
    the same emitter whatever these patterns are, so a fault in one of them
    cannot stop the generator. *)
Theorem X17_unused_patterns (Info : TGRecord -> result SDNodeInfo)
    (Equivs : list (TGRecord * TGRecord))
    (CGIByEnum CGIByEnum' : list Instruction)
    (Instrs : list (nat * list TreePatternNode)) (E : SemanticsEmitter) :
  SemanticsEmitter_new Info Equivs CGIByEnum Instrs = Ok E ->
  Z.of_nat (length (InstSemas E)) < 2 ^ 32 ->
  length CGIByEnum' = length CGIByEnum ->
  (forall i Inst Inst',
     CGIByEnum !! i = Some Inst -> CGIByEnum' !! i = Some Inst' ->
     Inst_CGI Inst' = Inst_CGI Inst
     /\ (Inst_Pattern Inst' = Inst_Pattern Inst
         \/ isCodeGenOnly (Inst_CGI Inst) = true
         \/ i ∈ map fst Instrs)) ->
  SemanticsEmitter_new Info Equivs CGIByEnum' Instrs = Ok E.
Proof.
  unfold SemanticsEmitter_new. intros H Hlt Hlen Hrel. rewrite Hlen.
  destruct (addInstSemantics _ 0 InstSemantics_empty) as [E0|] eqn:E0eq;
    [|discriminate].
  simpl in H |- *.
  destruct (ParseSemantics CGIByEnum Instrs E0) as [E1|] eqn:E1eq;
    [|discriminate].
  simpl in H.
  rewrite (ParseSemantics_same_CGI CGIByEnum CGIByEnum' Instrs
             (fun i I I' HI HI' => proj1 (Hrel i I I' HI HI')) Hlen _ _ E1eq).
  simpl.
  assert (Hlen0 : length (InstSemas E0) = 1%nat).
  { unfold addInstSemantics in E0eq. simpl in E0eq.
    destruct (_ <? _)%nat; [|discriminate]. injection E0eq as <-.
    reflexivity. }
  destruct (usePatterns_length _ _ _ _ H) as (Hle2 & _).
  apply (usePatterns_same _ _ _ _ _ H Hlen).
  intros k I I' HI HI'. destruct (Hrel k I I' HI HI') as [H1 H2].
  split; [exact H1|].
  destruct H2 as [H2|[H2|H2]]; [left; exact H2|right; left; exact H2|].
  right. right. simpl.
  apply (ParseSemantics_hasSemantics _ _ _ _ E1eq); [lia|lia|].
  right. exact H2.
Qed.

Lemma X17_unused_patterns_witness :
  exists E,
    SemanticsEmitter_new Sample.Info [] Sample.Insts Sample.Instrs = Ok E
    /\ SemanticsEmitter_new Sample.Info []
         [mkInstruction Sample.CGI None;
          mkInstruction Sample.CGI (Some [Sample.AddRR]);
          mkInstruction Sample.CGI (Some [Sample.BadSet]);
          mkInstruction Sample.CGI None;
          mkInstruction Sample.CGI (Some [Sample.leaf "a" Sample.GPR])]
         Sample.Instrs = Ok E.
Proof.
  assert (H : exists E,
            SemanticsEmitter_new Sample.Info [] Sample.Insts Sample.Instrs
            = Ok E
            /\ Z.of_nat (length (InstSemas E)) < 2 ^ 32).
  { eexists. split; [vm_compute; reflexivity|]. vm_compute. reflexivity. }
  destruct H as (E & H & Hlt).
  exists E. split; [exact H|].
  refine (X17_unused_patterns Sample.Info [] Sample.Insts
           [mkInstruction Sample.CGI None;
            mkInstruction Sample.CGI (Some [Sample.AddRR]);
            mkInstruction Sample.CGI (Some [Sample.BadSet]);
            mkInstruction Sample.CGI None;
            mkInstruction Sample.CGI (Some [Sample.leaf "a" Sample.GPR])]
           Sample.Instrs E H Hlt _ _).
  - reflexivity.
  - intros i Inst Inst' HI HI'.
    destruct i as [|[|[|[|[|i]]]]].
    + injection HI as <-. injection HI' as <-.
      split; [reflexivity|]. left. reflexivity.
    + injection HI as <-. injection HI' as <-.
      split; [reflexivity|]. left. reflexivity.
    + injection HI as <-. injection HI' as <-.
      split; [reflexivity|]. left. reflexivity.
    + injection HI as <-. injection HI' as <-.
      split; [reflexivity|]. left. reflexivity.
    + injection HI as <-. injection HI' as <-.
      split; [reflexivity|]. right. right. simpl. left.
    + discriminate HI.
Defined.

(** ** [run] returns *)

Lemma wrap32_le (z : Z) : 0 <= z -> 0 <= wrap32 z <= z.
Proof.
  intros Hz. unfold wrap32. split.
  - apply Z.mod_pos_bound. reflexivity.
  - apply Z.mod_le; [exact Hz | reflexivity].
Qed.

Lemma idx_wf_insert (Semas : list (list NodeSemantics)) (Sema : list NodeSemantics)
    (Idx : list Z) (i : nat) :
  Forall (fun X => 0 <= X /\ (X <> 0 -> X < Z.of_nat (length Semas))) Idx ->
  Forall (fun X => 0 <= X /\ (X <> 0 -> X < Z.of_nat (length (Semas ++ [Sema]))))
    (<[i := wrap32 (Z.of_nat (length Semas))]> Idx).
Proof.
  intros H. rewrite length_app. simpl.
  pose proof (wrap32_le (Z.of_nat (length Semas)) ltac:(lia)) as Hw.
  apply Forall_insert.
  - eapply Forall_impl; [exact H|]. simpl. intros X [H0 H1].
    split; [exact H0|]. intros Hne. specialize (H1 Hne). lia.
  - split; [lia|]. intros _. lia.
Qed.

Lemma addInstSemantics_idx_wf (E E' : SemanticsEmitter) (i : nat)
    (Sema : list NodeSemantics) :
  addInstSemantics E i Sema = Ok E' -> idx_wf E -> idx_wf E'.
Proof.
  unfold addInstSemantics, idx_wf.
  destruct (_ <? _)%nat; [|discriminate]. intros [= <-] H. simpl.
  apply idx_wf_insert. exact H.
Qed.

Lemma addFlattened_idx_wf (E E' : SemanticsEmitter) (i : nat)
    (CGI : CodeGenInstruction) (TP : list TreePatternNode) :
  addFlattened E i CGI TP = Ok E' -> idx_wf E -> idx_wf E'.
Proof.
  unfold addFlattened.
  destruct (InstSemantics_new (SemaTarget E) (Diags E) CGI TP) as [F|];
    [|discriminate].
  simpl. intros H HE. eapply addInstSemantics_idx_wf; [exact H|exact HE].
Qed.

Lemma ParseSemantics_idx_wf (CGIByEnum : list Instruction)
    (Instrs : list (nat * list TreePatternNode)) :
  forall E E',
    ParseSemantics CGIByEnum Instrs E = Ok E' -> idx_wf E -> idx_wf E'.
Proof.
  induction Instrs as [|[It TP] Instrs IH]; intros E E' H HE; simpl in H.
  - injection H as <-. exact HE.
  - destruct (CGIByEnum !! It) as [Inst|]; [|discriminate].
    destruct (addFlattened E It (Inst_CGI Inst) TP) as [E1|] eqn:EA;
      [|discriminate].
    simpl in H. apply (IH _ _ H). eapply addFlattened_idx_wf; eassumption.
Qed.

Lemma usePatterns_idx_wf (Insts : list Instruction) :
  forall i E E',
    usePatterns Insts i E = Ok E' -> idx_wf E -> idx_wf E'.
Proof.
  induction Insts as [|Inst Insts IH]; intros i E E' H HE; simpl in H.
  - injection H as <-. exact HE.
  - destruct (InstIdx E !! i) as [Idx|]; [|discriminate]. simpl in H.
    destruct (negb (Idx =? 0)); [apply (IH _ _ _ H HE)|].
    destruct (Inst_Pattern Inst) as [TP|]; [|apply (IH _ _ _ H HE)].
    destruct (negb (isCodeGenOnly (Inst_CGI Inst))); [|apply (IH _ _ _ H HE)].
    destruct (addFlattened E i (Inst_CGI Inst) TP) as [E1|] eqn:EA;
      [|discriminate].
    simpl in H. apply (IH _ _ _ H). eapply addFlattened_idx_wf; eassumption.
Qed.

Lemma SemanticsEmitter_new_idx_wf (Info : TGRecord -> result SDNodeInfo)
    (Equivs : list (TGRecord * TGRecord)) (CGIByEnum : list Instruction)
    (Instrs : list (nat * list TreePatternNode)) (E : SemanticsEmitter) :
  SemanticsEmitter_new Info Equivs CGIByEnum Instrs = Ok E -> idx_wf E.
Proof.
  unfold SemanticsEmitter_new.
  destruct (addInstSemantics _ 0 InstSemantics_empty) as [E0|] eqn:E0eq;
    [|discriminate].
  simpl.
  destruct (ParseSemantics CGIByEnum Instrs E0) as [E1|] eqn:E1eq;
    [|discriminate].
  simpl. intros H.
  eapply usePatterns_idx_wf; [exact H|].
  eapply ParseSemantics_idx_wf; [exact E1eq|].
  eapply addInstSemantics_idx_wf; [exact E0eq|].
  unfold idx_wf. simpl. apply Forall_replicate. split; [lia|]. intros Hne. lia.
Qed.

Lemma run_insts_returns (Semas : list (list NodeSemantics)) (Idx : list Z) :
  Forall (fun X => 0 <= X /\ (X <> 0 -> X < Z.of_nat (length Semas))) Idx ->
  forall OS Off, exists R, run_insts Semas Idx OS Off = Ok R.
Proof.
  induction 1 as [|X Idx [H0 H1] _ IH]; intros OS Off; simpl.
  - eexists. reflexivity.
  - destruct (Z.eqb_spec X 0) as [HX|HX].
    + destruct (IH OS Off) as [R ->]. simpl. eexists. reflexivity.
    + destruct (lookup_lt_is_Some_2 Semas (Z.to_nat X)) as [Sema ->].
      { specialize (H1 HX). lia. }
      destruct (run_nodes Sema OS (wrap32 (Off + 1))) as [O2 F2].
      destruct (IH (O2 ++ [END_OF_INSTRUCTION]) F2) as [R ->]. simpl.
      eexists. reflexivity.
Qed.

(** X18. [run] returns.  For every emitter that the constructor has built and
    whose pool holds fewer than [2^32 - 1] values, [run] writes its three
    arrays without fault: every non-zero entry of [InstIdx] is the index of
    an element of [InstSemas], and every index of the pool is a slot of
    [ConstantArray].  So [EmitSemantics] returns whenever the constructor
    does. *)
Theorem X18_run_returns (Info : TGRecord -> result SDNodeInfo)
    (Equivs : list (TGRecord * TGRecord)) (CGIByEnum : list Instruction)
    (Instrs : list (nat * list TreePatternNode)) (E : SemanticsEmitter) :
  SemanticsEmitter_new Info Equivs CGIByEnum Instrs = Ok E ->
  Z.of_nat (size (ConstantIdx (SemaTarget E))) < 2 ^ 32 - 1 ->
  exists Out,
    run E = Ok Out
    /\ EmitSemantics Info Equivs CGIByEnum Instrs = Ok Out.
Proof.
  intros HE Hsz.
  destruct (run_insts_returns _ _ (SemanticsEmitter_new_idx_wf _ _ _ _ _ HE)
              [END_OF_INSTRUCTION] 1) as [R HR].
  destruct (SemanticsEmitter_new_pool _ _ _ _ _ HE) as [Vs HVs].
  assert (Hsz' := Hsz). rewrite HVs in Hsz'.
  destruct (session_ConstantArray Info Equivs Vs Hsz')
    as (Constants & Hemit & _).
  rewrite <- HVs in Hemit.
  exists (mkOutput (snd (fst R)) (fst (fst R)) Constants).
  assert (Hrun : run E = Ok (mkOutput (snd (fst R)) (fst (fst R)) Constants)).
  { unfold run. rewrite HR. simpl. rewrite Hemit. reflexivity. }
  split; [exact Hrun|].
  unfold EmitSemantics. rewrite HE. simpl. exact Hrun.
Qed.

Lemma X18_run_returns_witness :
  exists E Out,
    SemanticsEmitter_new Sample.Info [] Sample.Insts Sample.Instrs = Ok E
    /\ run E = Ok Out
    /\ EmitSemantics Sample.Info [] Sample.Insts Sample.Instrs = Ok Out.
Proof.
  assert (H : exists E,
            SemanticsEmitter_new Sample.Info [] Sample.Insts Sample.Instrs
            = Ok E
            /\ Z.of_nat (size (ConstantIdx (SemaTarget E))) < 2 ^ 32 - 1).
  { eexists. split; [vm_compute; reflexivity|]. vm_compute. reflexivity. }
  destruct H as (E & H & Hsz).
  pose proof (X18_run_returns Sample.Info [] Sample.Insts Sample.Instrs E H Hsz)
    as (Out & Hrun).
  exists E, Out. split; [exact H|exact Hrun].
Defined.

(** ** The layout of [InstSemantics[]] *)

Lemma emittedSemas_cons_zero Semas X Idx :
  X = 0 -> emittedSemas Semas (X :: Idx) = emittedSemas Semas Idx.
Proof. intros ->. reflexivity. Qed.

Lemma emittedSemas_cons_some Semas X Idx Sema :
  X <> 0 -> Semas !! Z.to_nat X = Some Sema ->
  emittedSemas Semas (X :: Idx) = Sema :: emittedSemas Semas Idx.
Proof.
  intros HX HS. unfold emittedSemas. simpl.
  destruct (Z.eqb_spec X 0) as [|_]; [contradiction|]. rewrite HS. reflexivity.
Qed.

(** The stream and the table that the outer loop of [run] builds. *)
Lemma run_insts_layout (Semas : list (list NodeSemantics)) (Idx : list Z) :
  forall (OS : list string) (Off : Z) (Idx' : list Z) (OS' : list string)
         (Off' : Z),
    run_insts Semas Idx OS Off = Ok (Idx', OS', Off') ->
    OS' = OS ++ concat (map BlockTokens (emittedSemas Semas Idx))
    /\ (Off = Z.of_nat (length OS) ->
        Z.of_nat (length OS') < 2 ^ 32 ->
        Off' = Z.of_nat (length OS')
        /\ forall (i : nat) (X : Z),
             Idx !! i = Some X -> X <> 0 ->
             Idx' !! i =
               Some (Z.of_nat
                       (length (OS ++ concat (map BlockTokens
                                  (emittedSemas Semas (take i Idx))))))).
Proof.
  induction Idx as [|X Idx IH]; intros OS Off Idx' OS' Off' Hrun.
  - simpl in Hrun. injection Hrun as <- <- <-. simpl. rewrite app_nil_r.
    split; [reflexivity|]. intros HOff _. split; [exact HOff|].
    intros i X H. rewrite lookup_nil in H. discriminate.
  - simpl in Hrun. destruct (Z.eqb_spec X 0) as [HX|HX].
    + destruct (run_insts Semas Idx OS Off) as [[[I1 O1] F1]|] eqn:Hrest;
        [|discriminate].
      simpl in Hrun. injection Hrun as <- <- <-.
      destruct (IH _ _ _ _ _ Hrest) as (HOS & Hoff).
      rewrite (emittedSemas_cons_zero _ _ _ HX).
      split; [exact HOS|]. intros HOff Hlen.
      destruct (Hoff HOff Hlen) as (HF1 & Hall). split; [exact HF1|].
      intros [|i] Y H HY; simpl in H.
      * injection H as <-. contradiction.
      * simpl take. rewrite (emittedSemas_cons_zero _ _ _ HX).
        apply (Hall i Y H HY).
    + destruct (Semas !! Z.to_nat X) as [Sema|] eqn:HSema; [|discriminate].
      destruct (run_nodes Sema OS (wrap32 (Off + 1))) as [O2 F2] eqn:Hnodes.
      destruct (run_insts Semas Idx (O2 ++ [END_OF_INSTRUCTION]) F2)
        as [[[I1 O1] F1]|] eqn:Hrest; [|discriminate].
      simpl in Hrun. injection Hrun as <- <- <-.
      pose proof (run_nodes_OS Sema OS (wrap32 (Off + 1))) as HO2.
      rewrite Hnodes in HO2. simpl in HO2.
      destruct (IH _ _ _ _ _ Hrest) as (HOS & Hoff).
      rewrite (emittedSemas_cons_some _ _ _ _ HX HSema).
      assert (HB : O2 ++ [END_OF_INSTRUCTION] = OS ++ BlockTokens Sema).
      { rewrite HO2. unfold BlockTokens. rewrite <- app_assoc. reflexivity. }
      rewrite HB in HOS.
      assert (HOS' : O1 = OS ++ concat (map BlockTokens
                             (Sema :: emittedSemas Semas Idx))).
      { rewrite HOS. simpl. rewrite <- app_assoc. reflexivity. }
      split; [exact HOS'|]. intros HOff Hlen.
      assert (Hlen2 : Z.of_nat (length (OS ++ BlockTokens Sema)) < 2 ^ 32).
      { rewrite HOS in Hlen. rewrite (length_app (OS ++ _)) in Hlen. lia. }
      assert (HF2 : F2 = Z.of_nat (length (O2 ++ [END_OF_INSTRUCTION]))).
      { pose proof (run_nodes_Offset Sema OS (wrap32 (Off + 1)) 1) as HOff2.
        rewrite Hnodes in HOff2. simpl in HOff2. rewrite <- HO2 in HOff2.
        assert (Hl : Z.of_nat (length (O2 ++ [END_OF_INSTRUCTION]))
                     = Z.of_nat (length O2) + 1)
          by (rewrite length_app; simpl; lia).
        assert (HlO : Z.of_nat (length OS) <= Z.of_nat (length O2))
          by (rewrite HO2, length_app; lia).
        rewrite <- HB, Hl in Hlen2. rewrite Hl.
        apply HOff2; [|lia|lia].
        subst Off. apply wrap32_small. lia. }
      destruct (Hoff HF2 Hlen) as (HF1 & Hall). split; [exact HF1|].
      intros [|i] Y H HY; simpl in H.
      * injection H as <-. simpl. rewrite app_nil_r. f_equal. exact HOff.
      * simpl take. rewrite (emittedSemas_cons_some _ _ _ _ HX HSema).
        etransitivity; [exact (Hall i Y H HY)|].
        rewrite HB. simpl. rewrite <- app_assoc. reflexivity.
Qed.

Lemma emittedSemas_take_lt (Semas : list (list NodeSemantics)) (Idx : list Z)
    (i j : nat) (Xi : Z) (Semai : list NodeSemantics) :
  (i < j)%nat -> Idx !! i = Some Xi -> Xi <> 0 ->
  Semas !! Z.to_nat Xi = Some Semai ->
  exists rest,
    emittedSemas Semas (take j Idx) =
      emittedSemas Semas (take i Idx) ++ Semai :: rest.
Proof.
  intros Hij Hi HX HS.
  replace j with (i + S (j - S i))%nat by lia.
  rewrite <- take_take_drop. rewrite (drop_S _ _ _ Hi).
  cbn [take]. unfold emittedSemas at 1. rewrite omap_app.
  fold (emittedSemas Semas (take i Idx)).
  fold (emittedSemas Semas (Xi :: take (j - S i) (drop (S i) Idx))).
  rewrite (emittedSemas_cons_some _ _ _ _ HX HS).
  eexists. reflexivity.
Qed.

Lemma BlockTokens_length (Sema : list NodeSemantics) :
  (1 <= length (BlockTokens Sema))%nat.
Proof. unfold BlockTokens. rewrite length_app. simpl. lia. Qed.

(** X19. The stream that [run] writes is the terminator of offset 0 followed
    by the blocks of the instructions with a non-zero entry, one after the
    other in the order of the enum values, and nothing else: semantics that
    no entry points to, like the dummy of slot 0, are not written.  So
    offset 0, the entry of an instruction without semantics, is the start of
    an empty block. *)
Theorem X19_stream_layout (E : SemanticsEmitter) (Out : Output) :
  run E = Ok Out ->
  Out_InstSemantics Out =
    END_OF_INSTRUCTION
      :: concat (map BlockTokens (emittedSemas (InstSemas E) (InstIdx E)))
  /\ block_at (Out_InstSemantics Out) 0 [].
Proof.
  unfold run. intros Hrun.
  destruct (run_insts (InstSemas E) (InstIdx E) [END_OF_INSTRUCTION] 1)
    as [[[Idx' OS'] Off']|] eqn:Hinsts; [|discriminate].
  simpl in Hrun.
  destruct (emit_Constants (SemaTarget E)) as [Constants|]; [|discriminate].
  simpl in Hrun. injection Hrun as <-. simpl.
  destruct (run_insts_layout _ _ _ _ _ _ _ Hinsts) as [-> _].
  split; [reflexivity|].
  exists [], (concat (map BlockTokens (emittedSemas (InstSemas E) (InstIdx E)))).
  split; reflexivity.
Qed.

Lemma X19_stream_layout_witness :
  exists E Out,
    SemanticsEmitter_new Sample.Info [] Sample.Insts Sample.Instrs = Ok E
    /\ run E = Ok Out
    /\ length (emittedSemas (InstSemas E) (InstIdx E)) = 3%nat
    /\ Out_InstSemantics Out =
         END_OF_INSTRUCTION
           :: concat (map BlockTokens (emittedSemas (InstSemas E) (InstIdx E)))
    /\ block_at (Out_InstSemantics Out) 0 [].
Proof.
  assert (H : exists E Out,
            SemanticsEmitter_new Sample.Info [] Sample.Insts Sample.Instrs
            = Ok E
            /\ run E = Ok Out
            /\ length (emittedSemas (InstSemas E) (InstIdx E)) = 3%nat).
  { eexists. eexists. split; [vm_compute; reflexivity|].
    split; [vm_compute; reflexivity|]. vm_compute. reflexivity. }
  destruct H as (E & Out & H & Hrun & Hlen).
  exists E, Out. split; [exact H|]. split; [exact Hrun|].
  split; [exact Hlen|]. apply (X19_stream_layout E Out Hrun).
Defined.

(** X20. The blocks do not overlap and follow the enum values: the block of
    an instruction with semantics starts at offset 1 or later, and it ends
    before the block of any later instruction with semantics starts. *)
Theorem X20_blocks_ordered (E : SemanticsEmitter) (Out : Output)
    (i j : nat) (Xi Xj Si Sj : Z) (Semai : list NodeSemantics) :
  run E = Ok Out ->
  Z.of_nat (length (Out_InstSemantics Out)) < 2 ^ 32 ->
  (i < j)%nat ->
  InstIdx E !! i = Some Xi -> Xi <> 0 ->
  InstIdx E !! j = Some Xj -> Xj <> 0 ->
  InstSemas E !! Z.to_nat Xi = Some Semai ->
  Out_OpcodeToSemaIdx Out !! i = Some Si ->
  Out_OpcodeToSemaIdx Out !! j = Some Sj ->
  1 <= Si /\ Si + Z.of_nat (length (BlockTokens Semai)) <= Sj /\ Si < Sj.
Proof.
  unfold run. intros Hrun Hlen Hij Hi HXi Hj HXj HSi HOi HOj.
  destruct (run_insts (InstSemas E) (InstIdx E) [END_OF_INSTRUCTION] 1)
    as [[[Idx' OS'] Off']|] eqn:Hinsts; [|discriminate].
  simpl in Hrun.
  destruct (emit_Constants (SemaTarget E)) as [Constants|]; [|discriminate].
  simpl in Hrun. injection Hrun as <-. simpl in *.
  destruct (run_insts_layout _ _ _ _ _ _ _ Hinsts) as [_ Hoff].
  destruct (Hoff eq_refl Hlen) as [_ Hall].
  pose proof (Hall i Xi Hi HXi) as Hi'. pose proof (Hall j Xj Hj HXj) as Hj'.
  rewrite HOi in Hi'. rewrite HOj in Hj'.
  injection Hi' as ->. injection Hj' as ->.
  destruct (emittedSemas_take_lt _ _ i j Xi Semai Hij Hi HXi HSi) as [rest ->].
  rewrite map_app, concat_app. simpl.
  rewrite !length_app. simpl.
  pose proof (BlockTokens_length Semai). lia.
Qed.

Lemma X20_blocks_ordered_witness :
  exists E Out Semai,
    SemanticsEmitter_new Sample.Info [] Sample.Insts Sample.Instrs = Ok E
    /\ run E = Ok Out
    /\ InstSemas E !! 2%nat = Some Semai
    /\ 1 <= 1 /\ 1 + Z.of_nat (length (BlockTokens Semai)) <= 16 /\ 1 < 16.
Proof.
  assert (H : exists E Out Semai,
            SemanticsEmitter_new Sample.Info [] Sample.Insts Sample.Instrs
            = Ok E
            /\ run E = Ok Out
            /\ InstSemas E !! 2%nat = Some Semai
            /\ Z.of_nat (length (Out_InstSemantics Out)) < 2 ^ 32
            /\ InstIdx E !! 1%nat = Some 2
            /\ InstIdx E !! 2%nat = Some 3
            /\ Out_OpcodeToSemaIdx Out !! 1%nat = Some 1
            /\ Out_OpcodeToSemaIdx Out !! 2%nat = Some 16).
  { eexists. eexists. eexists. split; [vm_compute; reflexivity|].
    split; [vm_compute; reflexivity|]. split; [vm_compute; reflexivity|].
    split; [vm_compute; reflexivity|]. split; [vm_compute; reflexivity|].
    split; [vm_compute; reflexivity|]. split; [vm_compute; reflexivity|].
    vm_compute. reflexivity. }
  destruct H as (E & Out & Semai & H & Hrun & HS & Hlen & HI1 & HI2 & HO1 & HO2).
  exists E, Out, Semai. split; [exact H|]. split; [exact Hrun|].
  split; [exact HS|].
  apply (X20_blocks_ordered E Out 1 2 2 3 1 16 Semai Hrun Hlen); try assumption;
    try lia.
Defined.

(** ** [ConstantArray] has no hole *)

(** X21. [ConstantArray] has no hole and no repetition.  For the emitter that
    the constructor has built, with fewer than [2^32 - 1] pooled values:
    every slot from 1 on holds a pooled value whose index is the slot, and
    no value stands in two slots from 1 on. *)
Theorem X21_ConstantArray_exact (Info : TGRecord -> result SDNodeInfo)
    (Equivs : list (TGRecord * TGRecord)) (CGIByEnum : list Instruction)
    (Instrs : list (nat * list TreePatternNode)) (E : SemanticsEmitter)
    (Out : Output) :
  SemanticsEmitter_new Info Equivs CGIByEnum Instrs = Ok E ->
  run E = Ok Out ->
  Z.of_nat (size (ConstantIdx (SemaTarget E))) < 2 ^ 32 - 1 ->
  (forall i : nat,
     (1 <= i < length (Out_ConstantArray Out))%nat ->
     exists K,
       Out_ConstantArray Out !! i = Some K
       /\ ConstantIdx (SemaTarget E) !! K = Some (Z.of_nat i))
  /\ (forall (i j : nat) K,
        (1 <= i)%nat -> (1 <= j)%nat ->
        Out_ConstantArray Out !! i = Some K ->
        Out_ConstantArray Out !! j = Some K -> i = j).
Proof.
  intros HE Hrun Hsz.
  destruct (SemanticsEmitter_new_pool _ _ _ _ _ HE) as [Vs HVs].
  assert (Hwf : pool_wf (SemaTarget E)).
  { rewrite HVs in Hsz |- *. apply interns_wf; [apply pool_wf_new|exact Hsz]. }
  assert (Hfull : pool_full (SemaTarget E)).
  { rewrite HVs in Hsz |- *.
    apply interns_full; [apply pool_wf_new|apply pool_full_new|exact Hsz]. }
  destruct (pool_wf_ConstantArray _ Hwf Hsz)
    as (Constants & Hemit & Hlen & Hzero & Hlook).
  assert (HOut : Out_ConstantArray Out = Constants).
  { revert Hrun. unfold run.
    destruct (run_insts _ _ _ _) as [R|]; [|discriminate]. simpl.
    rewrite Hemit. simpl. intros [= <-]. reflexivity. }
  rewrite HOut. clear HOut Hrun.
  pose proof Hwf as (Hcur & Hrange & Hinj).
  assert (Hslot : forall i : nat,
            (1 <= i < length Constants)%nat ->
            exists K, Constants !! i = Some K
                      /\ ConstantIdx (SemaTarget E) !! K = Some (Z.of_nat i)).
  { intros i Hi. destruct (Hfull (Z.of_nat i)) as [K HK]; [lia|].
    exists K. split; [|exact HK].
    rewrite <- (Nat2Z.id i). apply Hlook. exact HK. }
  split; [exact Hslot|].
  intros i j K Hi Hj HKi HKj.
  destruct (Hslot i) as (Ki & HKi' & HIi).
  { apply lookup_lt_Some in HKi. lia. }
  destruct (Hslot j) as (Kj & HKj' & HIj).
  { apply lookup_lt_Some in HKj. lia. }
  assert (Ki = K) by congruence. assert (Kj = K) by congruence. subst Ki Kj.
  rewrite HIi in HIj. injection HIj as HIj. lia.
Qed.

Lemma X21_ConstantArray_exact_witness :
  exists E Out,
    SemanticsEmitter_new Sample.Info [] Sample.Insts Sample.Instrs = Ok E
    /\ run E = Ok Out
    /\ Out_ConstantArray Out = [0; 1234]
    /\ (forall i : nat,
          (1 <= i < length (Out_ConstantArray Out))%nat ->
          exists K,
            Out_ConstantArray Out !! i = Some K
            /\ ConstantIdx (SemaTarget E) !! K = Some (Z.of_nat i))
    /\ (forall (i j : nat) K,
          (1 <= i)%nat -> (1 <= j)%nat ->
          Out_ConstantArray Out !! i = Some K ->
          Out_ConstantArray Out !! j = Some K -> i = j).
Proof.
  assert (H : exists E Out,
            SemanticsEmitter_new Sample.Info [] Sample.Insts Sample.Instrs
            = Ok E
            /\ run E = Ok Out
            /\ Out_ConstantArray Out = [0; 1234]
            /\ Z.of_nat (size (ConstantIdx (SemaTarget E))) < 2 ^ 32 - 1).
  { eexists. eexists. split; [vm_compute; reflexivity|].
    split; [vm_compute; reflexivity|]. split; [vm_compute; reflexivity|].
    vm_compute. reflexivity. }
  destruct H as (E & Out & H & Hrun & HC & Hsz).
  exists E, Out. split; [exact H|]. split; [exact Hrun|]. split; [exact HC|].
  apply (X21_ConstantArray_exact Sample.Info [] Sample.Insts Sample.Instrs E Out
           H Hrun Hsz).
Defined.
